(** * nitrus: state machines, HTTP client framing and XML, verified against the C++ sources

    The development follows the layout of the repository:
    - [Outcome]: what a C++ call can do (return, throw, or recurse without bound);
    - [StdString]: the [std::string] operations the parsers use, with [size_t]
      as [N] and its wrap-around written out;
    - [StateMachine]: [include/state/StateMachine.hpp];
    - [TcpClient]: [include/net/TcpClient.hpp];
    - [HttpClient]: [include/http/HttpClient.hpp];
    - [Xml]: [include/xml/Xml.hpp] (DOM and progressive parser);
    - [TimeSpan]: [include/TimeSpan.hpp], with [double] as binary64;
    - [Event]: [include/Event.hpp]. *)

From Stdlib Require Import List String Ascii NArith ZArith Arith Lia Bool Sorted.
From Stdlib Require Import SpecFloat.
Import ListNotations.

Set Implicit Arguments.

(** ** Outcomes of a call *)

(** The exceptions the modelled classes throw. *)
Inductive exception : Type :=
| UndefinedTriggerException
| MultipleTriggerException
| EmptyDelegateException
| InvalidFormatException
| OutOfRangeException
| SendException.

(** A call on an object of type [S] returns a value and the mutated object,
    throws (the mutations done before the throw stay), or exhausts the
    recursion budget the model gives it. *)
Inductive outcome (S A : Type) : Type :=
| Returns (a : A) (s : S)
| Throws (e : exception) (s : S)
| OutOfFuel.

Arguments Returns {S A} a s.
Arguments Throws {S A} e s.
Arguments OutOfFuel {S A}.

Definition M (S A : Type) : Type := S -> outcome S A.

Definition ret {S A} (a : A) : M S A := fun s => Returns a s.

Definition bind {S A B} (c : M S A) (k : A -> M S B) : M S B :=
  fun s => match c s with
           | Returns a s' => k a s'
           | Throws e s' => Throws e s'
           | OutOfFuel => OutOfFuel
           end.

Definition throw {S A} (e : exception) : M S A := fun s => Throws e s.

Definition modify {S} (f : S -> S) : M S unit := fun s => Returns tt (f s).

Declare Scope cpp_scope.
Delimit Scope cpp_scope with cpp.
Notation "x <- c ;; k" := (bind c (fun x => k))
  (at level 61, c at next level, right associativity) : cpp_scope.
Notation "c ;; k" := (bind c (fun _ => k))
  (at level 61, right associativity) : cpp_scope.
Local Open Scope cpp_scope.

(** A [Delegate<Signature>] either holds an invokable target or is empty
    ([_invokable == 0]). *)
Inductive Delegate (T : Type) : Type :=
| Unbound
| Bound (target : T).

Arguments Unbound {T}.
Arguments Bound {T} target.

(** C++ enumerations and other keys of [std::map]/[std::set]: ordered through
    their underlying integer. *)
Class Ordered (T : Type) : Type := {
  ord : T -> N;
  ord_inj : forall a b, ord a = ord b -> a = b
}.

Definition key_eqb {T} `{Ordered T} (a b : T) : bool := N.eqb (ord a) (ord b).
Definition key_ltb {T} `{Ordered T} (a b : T) : bool := N.ltb (ord a) (ord b).

(** * [std::string] and String.hpp

    [size_t] is [N] below [2^64]; [npos] is its largest value, and sums and
    differences wrap. *)

Module StdString.

Local Open Scope N_scope.

(** The double-quote character (code 34), and the string that holds it. *)
Definition DoubleQuote : ascii := Ascii.ascii_of_nat 34.
Definition DoubleQuoteString : string := String DoubleQuote EmptyString.

Definition two64 : N := 18446744073709551616.
Definition npos : N := 18446744073709551615.

Definition size_add (a b : N) : N := (a + b) mod two64.
Definition size_sub (a b : N) : N := (a + two64 - b) mod two64.

Definition size (s : string) : N := N.of_nat (String.length s).

Definition empty (s : string) : bool :=
  match s with
  | EmptyString => true
  | String _ _ => false
  end.

Fixpoint drop (n : nat) (s : string) : string :=
  match n, s with
  | O, _ => s
  | S n', String _ s' => drop n' s'
  | S _, EmptyString => EmptyString
  end.

Fixpoint take (n : nat) (s : string) : string :=
  match n, s with
  | O, _ => EmptyString
  | S n', String c s' => String c (take n' s')
  | S _, EmptyString => EmptyString
  end.

(** Strings put one after the other. *)
Definition join (texts : list string) : string :=
  fold_right String.append EmptyString texts.

(** [s.erase(0, n)]: the position is inside the string, so nothing is
    thrown; at most the whole string goes. *)
Definition erase0 (s : string) (n : N) : string :=
  drop (N.to_nat (N.min n (size s))) s.

(** [s.substr(pos, n)]: [None] is [std::out_of_range]. *)
Definition substr (s : string) (pos n : N) : option string :=
  if size s <? pos then None
  else Some (take (N.to_nat (N.min n (size s - pos))) (drop (N.to_nat pos) s)).

(** [s.at(0)] of a string known to be non-empty; [s.at(0)] of an empty
    string throws. *)
Definition at0 (s : string) : option ascii :=
  match s with
  | EmptyString => None
  | String c _ => Some c
  end.

Fixpoint search (pat s : string) (i : N) : N :=
  if String.prefix pat s then i
  else match s with
       | EmptyString => npos
       | String _ s' => search pat s' (N.succ i)
       end.

(** [s.find(pat, pos)]. *)
Definition find (s pat : string) (pos : N) : N :=
  if size s <? pos then npos else search pat (drop (N.to_nat pos) s) pos.

Definition find_char (s : string) (c : ascii) (pos : N) : N :=
  find s (String c EmptyString) pos.

Fixpoint mem (c : ascii) (chars : string) : bool :=
  match chars with
  | EmptyString => false
  | String c' chars' => Ascii.eqb c c' || mem c chars'
  end.

Fixpoint first_where (p : ascii -> bool) (s : string) (i : N) : N :=
  match s with
  | EmptyString => npos
  | String c s' => if p c then i else first_where p s' (N.succ i)
  end.

(** [s.find_first_of(chars)] and [s.find_first_not_of(chars)]. *)
Definition find_first_of (s chars : string) : N :=
  first_where (fun c => mem c chars) s 0.
Definition find_first_not_of (s chars : string) : N :=
  first_where (fun c => negb (mem c chars)) s 0.

(** [s.replace(pos, n, t)] for a position inside the string. *)
Definition replace (s : string) (pos n : N) (t : string) : string :=
  (take (N.to_nat pos) s ++ t ++ drop (N.to_nat (pos + N.min n (size s - pos))) s)%string.

(** [::tolower] in the C locale. *)
Definition tolower (c : ascii) : ascii :=
  let n := N_of_ascii c in
  if (65 <=? n) && (n <=? 90) then ascii_of_N (n + 32) else c.

Fixpoint map_chars (f : ascii -> ascii) (s : string) : string :=
  match s with
  | EmptyString => EmptyString
  | String c s' => String (f c) (map_chars f s')
  end.

(** [String::ToLowerCase]. *)
Definition ToLowerCase (value : string) : string := map_chars tolower value.

(** [String::Split]: the [std::getline] loop. The last call succeeds only
    when it extracted something, so a trailing delimiter adds no item. *)
Fixpoint getlines (delimiter : ascii) (s item : string) : list string :=
  match s with
  | EmptyString => if empty item then [] else [item]
  | String c s' =>
      if Ascii.eqb c delimiter then item :: getlines delimiter s' EmptyString
      else getlines delimiter s' (item ++ String c EmptyString)
  end.

Definition Split (value : string) (delimiter : ascii) : list string :=
  getlines delimiter value EmptyString.

(** [String::Replace]: the loop over the positions [i], which ends when
    [find] fails. [None]: the loop is still running after [rounds] rounds.
    With a non-empty [pre] every round passes over the occurrence it
    replaces, so the loop has ended within [S (length value)] rounds; with
    an empty [pre], [find] succeeds at every position and the loop has no
    end, which is [None] here. *)
Fixpoint Replace_loop (rounds : nat) (replaced pre post : string) (i : N)
    : option string :=
  match rounds with
  | O => None
  | S rounds' =>
      if i =? npos then Some replaced
      else
        let i' := find replaced pre i in
        if negb (i' =? npos) then
          Replace_loop rounds' (replace replaced i' (size pre) post) pre post
            (size_add i' (size post))
        else Some replaced
  end.

Definition Replace (value pre post : string) : option string :=
  Replace_loop (S (String.length value)) value pre post 0.

(** The text that a call of [Replace] hands to a caller which goes on with
    it. The callers in this library search for texts that are not empty,
    and for those the call returns; [otherwise] stands where no run of the
    code gets to. *)
Definition returned (r : option string) (otherwise : string) : string :=
  match r with
  | Some replaced => replaced
  | None => otherwise
  end.

(** *** Numbers: [String::Convert] and [String::Format] *)

Definition digit_value (base : N) (c : ascii) : option N :=
  let n := N_of_ascii c in
  let v :=
    if (48 <=? n) && (n <=? 57) then Some (n - 48)
    else if (97 <=? n) && (n <=? 102) then Some (n - 87)
    else if (65 <=? n) && (n <=? 70) then Some (n - 55)
    else None in
  match v with
  | Some d => if d <? base then Some d else None
  | None => None
  end.

(** The digits at the front of [s]: how many there are and their value. *)
Fixpoint digits (base : N) (s : string) (count acc : N) : N * N :=
  match s with
  | EmptyString => (count, acc)
  | String c s' =>
      match digit_value base c with
      | Some d => digits base s' (N.succ count) (acc * base + d)
      | None => (count, acc)
      end
  end.

Definition isspace (c : ascii) : bool :=
  let n := N_of_ascii c in (n =? 32) || ((9 <=? n) && (n <=? 13)).

Fixpoint skipws (s : string) : string :=
  match s with
  | String c s' => if isspace c then skipws s' else s
  | EmptyString => s
  end.

(** An optional [0x] or [0X] in front of hexadecimal digits: in base 16
    the extraction takes it whatever follows, and then asks for a digit. *)
Definition skip0x (base : N) (s : string) : string :=
  match s with
  | String "0" (String x s') =>
      if (base =? 16) && (Ascii.eqb x "x" || Ascii.eqb x "X") then s' else s
  | _ => s
  end.

(** [String::Convert<size_t>(value, modifier)]: formatted extraction from a
    [std::stringstream] (leading white space skipped, an optional sign, the
    digits; what follows them is left unread). [None] is the
    [InvalidFormatException] thrown when the extraction fails. A minus sign
    negates modulo [2^64], as [strtoull] does. *)
Definition Convert_size_t (base : N) (value : string) : option N :=
  let s := skipws value in
  let '(negative, s) :=
    match s with
    | String "-" s' => (true, s')
    | String "+" s' => (false, s')
    | _ => (false, s)
    end in
  let '(count, v) := digits base (skip0x base s) 0 0 in
  if count =? 0 then None
  else if npos <? v then None
  else Some (if negative then size_sub 0 v else v).

(** [String::Convert<int>(value)]. *)
Definition Convert_int (value : string) : option Z :=
  let s := skipws value in
  let '(negative, s) :=
    match s with
    | String "-" s' => (true, s')
    | String "+" s' => (false, s')
    | _ => (false, s)
    end in
  let '(count, v) := digits 10 s 0 0 in
  if count =? 0 then None
  else
    let z := if negative then (- Z.of_N v)%Z else Z.of_N v in
    if ((-2147483648 <=? z) && (z <=? 2147483647))%Z then Some z else None.

Definition hex_digit (d : N) : ascii :=
  if d <? 10 then ascii_of_N (48 + d) else ascii_of_N (87 + d).

Fixpoint to_hex (rounds : nat) (n : N) (acc : string) : string :=
  match rounds with
  | O => acc
  | S rounds' =>
      let acc' := String (hex_digit (n mod 16)) acc in
      if n / 16 =? 0 then acc' else to_hex rounds' (n / 16) acc'
  end.

(** [String::Format("%x", n)]: the conversion takes an [unsigned int], so
    the low 32 bits are printed, in lower case. *)
Definition Format_x (n : N) : string := to_hex 8 (n mod 4294967296) EmptyString.

(** *** Vocabulary for texts built piece by piece *)

(** A text that starts with a digit written by [hex_digit], followed by
    nothing or by another such digit. *)
Definition hex_headed (s : string) : Prop :=
  exists d rest, d < 16 /\ s = String (hex_digit d) rest
    /\ (rest = EmptyString
        \/ exists d' rest', d' < 16 /\ rest = String (hex_digit d') rest').

(** Every character of [s] replaced by the text [f] gives for it. *)
Fixpoint expand (f : ascii -> string) (s : string) : string :=
  match s with
  | EmptyString => EmptyString
  | String c s' => (f c ++ expand f s')%string
  end.

(** No occurrence of [pre] starts inside [token], whatever follows the
    token. *)
Definition starts_nowhere (pre token : string) : Prop :=
  forall k, (k < String.length token)%nat ->
    forall rest, String.prefix pre (drop k token ++ rest) = false.

End StdString.

(** * StateMachine.hpp *)

Module StateMachine.

Section Machine.

Variables StateType TriggerType : Type.
Context {StateOrd : Ordered StateType} {TriggerOrd : Ordered TriggerType}.

(** Targets of the [Delegate<void()>] entry and exit handlers, and of the
    user supplied [Delegate<bool()>] predicates. *)
Variable Handler : Type.
Variable Guard : Type.

(** What a bound [Delegate<bool()>] points to: the static
    [DefaultPredicate] or a predicate of the caller. *)
Inductive Predicate : Type :=
| DefaultPredicate
| UserPredicate (g : Guard).

Record TriggerConfiguration : Type := {
  _destination : StateType;
  _predicate : Delegate Predicate
}.

(** [_superStates] is a [std::set] (kept sorted, no duplicates);
    [_triggerConfigurations] is a [std::multimap], of which the code only
    ever walks [equal_range(trigger)]: entries with equal keys stay in
    insertion order, so the list holds the entries in insertion order.
    [_lookup] is always bound to [Configure] of the owning machine. *)
Record StateConfiguration : Type := {
  _superStates : list StateType;
  _triggerConfigurations : list (TriggerType * TriggerConfiguration);
  _stateEntered : Delegate Handler;
  _stateExited : Delegate Handler
}.

Definition EmptyConfiguration : StateConfiguration :=
  {| _superStates := []; _triggerConfigurations := [];
     _stateEntered := Unbound; _stateExited := Unbound |}.

(** The machine with internally controlled state: [_stateAccessor] and
    [_stateMutator] read and write [_state]. *)
Record StateMachine : Type := {
  _stateConfigurations : list (StateType * StateConfiguration);
  _state : StateType
}.

(** *** Configuration *)

Definition Permit (trigger : TriggerType) (destination : StateType)
    (predicate : Delegate Predicate) (c : StateConfiguration) : StateConfiguration :=
  {| _superStates := _superStates c;
     _triggerConfigurations :=
       _triggerConfigurations c
         ++ [(trigger, {| _destination := destination; _predicate := predicate |})];
     _stateEntered := _stateEntered c;
     _stateExited := _stateExited c |}.

(** [std::set::insert]. *)
Fixpoint set_insert (x : StateType) (l : list StateType) : list StateType :=
  match l with
  | [] => [x]
  | y :: l' =>
      if key_eqb x y then l
      else if key_ltb x y then x :: l
      else y :: set_insert x l'
  end.

Definition SubstateOf (state : StateType) (c : StateConfiguration) : StateConfiguration :=
  {| _superStates := set_insert state (_superStates c);
     _triggerConfigurations := _triggerConfigurations c;
     _stateEntered := _stateEntered c;
     _stateExited := _stateExited c |}.

Definition OnEntry (handler : Handler) (c : StateConfiguration) : StateConfiguration :=
  {| _superStates := _superStates c;
     _triggerConfigurations := _triggerConfigurations c;
     _stateEntered := Bound handler;
     _stateExited := _stateExited c |}.

Definition OnExit (handler : Handler) (c : StateConfiguration) : StateConfiguration :=
  {| _superStates := _superStates c;
     _triggerConfigurations := _triggerConfigurations c;
     _stateEntered := _stateEntered c;
     _stateExited := Bound handler |}.

(** [std::map::find]. *)
Fixpoint find (state : StateType) (l : list (StateType * StateConfiguration))
    : option StateConfiguration :=
  match l with
  | [] => None
  | (k, c) :: l' => if key_eqb state k then Some c else find state l'
  end.

(** [map[state] = c]. *)
Fixpoint assign (state : StateType) (c : StateConfiguration)
    (l : list (StateType * StateConfiguration)) : list (StateType * StateConfiguration) :=
  match l with
  | [] => [(state, c)]
  | (k, c') :: l' =>
      if key_eqb state k then (k, c) :: l'
      else if key_ltb state k then (state, c) :: l
      else (k, c') :: assign state c l'
  end.

(** [Configure]: the configuration of [state], created empty when the
    state has none yet. *)
Definition Configure (state : StateType) (m : StateMachine)
    : StateMachine * StateConfiguration :=
  match find state (_stateConfigurations m) with
  | None =>
      ({| _stateConfigurations := assign state EmptyConfiguration (_stateConfigurations m);
          _state := _state m |}, EmptyConfiguration)
  | Some c => (m, c)
  end.

(** [Configure(state).f(..)....]: the calls chained on the reference that
    [Configure] returns act on the stored configuration. *)
Definition Configuring (state : StateType)
    (f : StateConfiguration -> StateConfiguration) (m : StateMachine) : StateMachine :=
  let (m', c) := Configure state m in
  {| _stateConfigurations := assign state (f c) (_stateConfigurations m');
     _state := _state m' |}.

(** The calls chained after [Configure(state)], first to last. *)
Definition chained (calls : list (StateConfiguration -> StateConfiguration))
    (c : StateConfiguration) : StateConfiguration :=
  fold_left (fun c f => f c) calls c.

(** *** Firing *)

(** The object that owns the machine: the machine and the other fields. *)
Variable World : Type.
Definition Object : Type := (StateMachine * World)%type.

Variable invoke : Handler -> M Object unit.

Definition State (o : Object) : StateType := _state (fst o).

(** A user predicate reads the owning object: its current state and its
    other fields. *)
Variable holds : Guard -> StateType -> World -> bool.

Definition DefaultStateMutator (state : StateType) (o : Object) : Object :=
  ({| _stateConfigurations := _stateConfigurations (fst o); _state := state |}, snd o).

(** [Delegate<void()>::operator()]: an empty delegate does nothing. *)
Definition call (d : Delegate Handler) : M Object unit :=
  match d with
  | Unbound => ret tt
  | Bound h => invoke h
  end.

Definition OnStateEntered (c : StateConfiguration) : M Object unit := call (_stateEntered c).
Definition OnStateExited (c : StateConfiguration) : M Object unit := call (_stateExited c).

(** [Delegate<bool()>::operator()]: an empty delegate throws. *)
Definition CanTransition (t : TriggerConfiguration) : M Object bool :=
  fun o => match _predicate t with
           | Unbound => Throws EmptyDelegateException o
           | Bound DefaultPredicate => Returns true o
           | Bound (UserPredicate g) => Returns (holds g (State o) (snd o)) o
           end.

Definition equal_range (trigger : TriggerType) (c : StateConfiguration)
    : list TriggerConfiguration :=
  map snd (filter (fun e => key_eqb trigger (fst e)) (_triggerConfigurations c)).

(** The first loop of [Transition]: [result] is the iterator found so far
    ([None] for [range.second]). *)
Fixpoint own_loop (range : list TriggerConfiguration) (result : option TriggerConfiguration)
    : M Object (option TriggerConfiguration) :=
  match range with
  | [] => ret result
  | i :: range' =>
      b <- CanTransition i ;;
      if b then
        match result with
        | Some _ => throw MultipleTriggerException
        | None => own_loop range' (Some i)
        end
      else own_loop range' result
  end.

(** [_lookup(state)], that is [Configure] on the owning machine. *)
Definition lookup (state : StateType) : M Object StateConfiguration :=
  fun o => let (m', c) := Configure state (fst o) in Returns c (m', snd o).

(** The second loop of [Transition], over the super-states; [result] holds
    the destination written by the super-state found so far. *)
Fixpoint super_loop
    (Transition : StateConfiguration -> M Object (option StateType))
    (supers : list StateType) (result : option StateType) : M Object (option StateType) :=
  match supers with
  | [] => ret result
  | i :: supers' =>
      c <- lookup i ;;
      r <- Transition c ;;
      match r with
      | Some destination =>
          match result with
          | Some _ => throw MultipleTriggerException
          | None => super_loop Transition supers' (Some destination)
          end
      | None => super_loop Transition supers' result
      end
  end.

(** [StateConfiguration::Transition]: [Some destination] for [true] with the
    out parameter written, [None] for [false]. The recursion through the
    super-states is bounded by [depth]. *)
Fixpoint Transition (depth : nat) (trigger : TriggerType) (self : StateConfiguration)
    : M Object (option StateType) :=
  match depth with
  | O => fun _ => OutOfFuel
  | S depth' =>
      result <- own_loop (equal_range trigger self) None ;;
      match result with
      | None => super_loop (Transition depth' trigger) (_superStates self) None
      | Some i => ret (Some (_destination i))
      end
  end.

(** [CanFire(trigger, source, destination)]. *)
Definition CanFire (depth : nat) (trigger : TriggerType)
    : M Object (StateType * option StateType) :=
  fun o =>
    let source := State o in
    match find source (_stateConfigurations (fst o)) with
    | None => Returns (source, None) o
    | Some c => (d <- Transition depth trigger c ;; ret (source, d)) o
    end.

(** [Fire]. *)
Definition Fire (depth : nat) (trigger : TriggerType) : M Object unit :=
  r <- CanFire depth trigger ;;
  match r with
  | (_, None) => throw UndefinedTriggerException
  | (source, Some destination) =>
      c <- lookup source ;;
      OnStateExited c ;;
      modify (DefaultStateMutator destination) ;;
      c' <- lookup destination ;;
      OnStateEntered c'
  end.

(** *** What the documentation says about resolving a trigger

    The predicates below state, in the words of the documentation of
    [Permit], [SubstateOf] and [Transition], which transition a trigger
    selects; the theory compares them with [Transition] and [Fire]. *)

Section Resolution.

Variable m : StateMachine.
Variable w : World.
Variable trigger : TriggerType.

(** The configuration a state has, an unconfigured one having none of
    anything. *)
Definition configuration (s : StateType) : StateConfiguration :=
  match find s (_stateConfigurations m) with
  | Some c => c
  | None => EmptyConfiguration
  end.

Definition is_bound (t : TriggerConfiguration) : bool :=
  match _predicate t with
  | Unbound => false
  | Bound _ => true
  end.

(** The guard of a permitted transition holds. *)
Definition guard_holds (t : TriggerConfiguration) : bool :=
  match _predicate t with
  | Unbound => false
  | Bound DefaultPredicate => true
  | Bound (UserPredicate g) => holds g (_state m) w
  end.

(** The transitions declared on [s] for the trigger whose guards hold. *)
Definition satisfied (s : StateType) : list TriggerConfiguration :=
  filter guard_holds (equal_range trigger (configuration s)).

(** Every guard declared on [s] for the trigger can be evaluated. *)
Definition guards_bound (s : StateType) : Prop :=
  Forall (fun t => is_bound t = true) (equal_range trigger (configuration s)).

(** No transition on [s] or on its super-states has a true guard. *)
Inductive ProvidesNone : StateType -> Prop :=
| ProvidesNone_intro : forall s,
    guards_bound s ->
    satisfied s = [] ->
    (forall p, In p (_superStates (configuration s)) -> ProvidesNone p) ->
    ProvidesNone s.

(** Exactly one transition with a true guard is found for [s]: declared
    on [s] itself, or, when none of the guards of [s] holds, provided by
    exactly one of its super-states. *)
Inductive Provides : StateType -> StateType -> Prop :=
| Provides_own : forall s t,
    guards_bound s ->
    satisfied s = [t] ->
    Provides s (_destination t)
| Provides_super : forall s before p after destination,
    guards_bound s ->
    satisfied s = [] ->
    _superStates (configuration s) = before ++ p :: after ->
    Provides p destination ->
    Forall ProvidesNone before ->
    Forall ProvidesNone after ->
    Provides s destination.

(** A super-state that is asked answers: with one transition or with
    none. *)
Definition Resolves (s : StateType) : Prop :=
  ProvidesNone s \/ exists destination, Provides s destination.

End Resolution.

(** [m'] is [m] with, possibly, empty configurations created by [_lookup]
    for states that had none. *)
Definition extends (m m' : StateMachine) : Prop :=
  _state m' = _state m /\ forall s, configuration m' s = configuration m s.

(** [Transition] on the configuration of [s], run on any machine that
    extends [m], gives [r] and leaves a machine that extends [m]. *)
Definition answers (m : StateMachine) (w : World) (trigger : TriggerType)
    (depth : nat) (s : StateType) (r : option StateType) : Prop :=
  forall m', extends m m' ->
    exists m'', extends m m'' /\
      Transition depth trigger (configuration m s) (m', w) = Returns r (m'', w).

(** The loop over the super-states [l], entered with [result], throws
    [MultipleTriggerException]. *)
Definition refuses_as_ambiguous (m : StateMachine) (w : World) (trigger : TriggerType)
    (depth : nat) (l : list StateType) (result : option StateType) : Prop :=
  forall m', extends m m' ->
    exists m'', extends m m'' /\
      super_loop (Transition depth trigger) l result (m', w)
        = Throws MultipleTriggerException (m'', w).

(** What the trigger selects for [s]: one destination, or nothing. *)
Definition Selects (m : StateMachine) (w : World) (trigger : TriggerType)
    (s : StateType) (r : option StateType) : Prop :=
  match r with
  | Some destination => Provides m w trigger s destination
  | None => ProvidesNone m w trigger s
  end.

(** What firing is documented to do with the selection made from [source]
    in the machine [m]: leave the source, become the destination, enter the
    destination, in that order; or refuse the trigger. *)
Definition fired (source : StateType) (m : StateMachine) (r : option StateType)
    : M Object unit :=
  match r with
  | Some destination =>
      OnStateExited (configuration m source) ;;
      modify (DefaultStateMutator destination) ;;
      c' <- lookup destination ;;
      OnStateEntered c'
  | None => throw UndefinedTriggerException
  end.

(** What calling a [Delegate<void()>] on the object [o] gives: an empty
    delegate does nothing, a bound one runs its handler. *)
Inductive invoked (d : Delegate Handler) (o : Object) : outcome Object unit -> Prop :=
| invoked_empty : d = Unbound -> invoked d o (Returns tt o)
| invoked_bound : forall h, d = Bound h -> invoked d o (invoke h o).

(** What the documentation promises of a transition that is taken, said
    with the handlers alone. The machine [m] is in its source state. The
    exit handler of the source is called first, on the object as it is.
    When it returns, leaving the object as [(m1, w1)], the current state
    becomes [destination] ([m2] is [m1] in that state, but for an empty
    configuration that the lookup of an unconfigured destination creates),
    and the entry handler that the destination then has is called on the
    object in that state; [result] is what that call gives. When the exit
    handler does not return, [result] is what it gave and nothing else was
    done. *)
Inductive taken (m : StateMachine) (w : World) (destination : StateType)
    (result : outcome Object unit) : Prop :=
| taken_entered : forall m1 w1 m2,
    invoked (_stateExited (configuration m (_state m))) (m, w) (Returns tt (m1, w1)) ->
    _state m2 = destination ->
    (forall s, configuration m2 s = configuration m1 s) ->
    invoked (_stateEntered (configuration m1 destination)) (m2, w1) result ->
    taken m w destination result
| taken_not_left :
    invoked (_stateExited (configuration m (_state m))) (m, w) result ->
    (forall o1, result <> Returns tt o1) ->
    taken m w destination result.

(** [p] is [s] or one of its super-states, direct or not. *)
Inductive Above (m : StateMachine) (s : StateType) : StateType -> Prop :=
| Above_self : Above m s s
| Above_super : forall p q,
    Above m s p -> In q (_superStates (configuration m p)) -> Above m s q.

(** The second half of the claim in the words of the specification, for
    every configured machine: when no transition on the current state or
    on its super-states has a true guard, [Fire] throws
    [UndefinedTriggerException] and the current state is unchanged. *)
Definition refused_when_unanswered : Prop :=
  forall (m : StateMachine) (w : World) (trigger : TriggerType),
    (forall p, Above m (_state m) p -> satisfied m w trigger p = []) ->
    exists depth m',
      Fire depth trigger (m, w) = Throws UndefinedTriggerException (m', w)
      /\ _state m' = _state m.

(** Two or more transitions declared on [s] for the trigger have guards
    that hold; or none of the guards of [s] holds and more than one of its
    super-states provides a transition. *)
Inductive Ambiguous (m : StateMachine) (w : World) (trigger : TriggerType)
    (s : StateType) : Prop :=
| Ambiguous_own :
    guards_bound m trigger s ->
    2 <= List.length (satisfied m w trigger s) ->
    Ambiguous m w trigger s
| Ambiguous_super : forall before p between q rest d1 d2,
    guards_bound m trigger s ->
    satisfied m w trigger s = [] ->
    _superStates (configuration m s) = before ++ p :: between ++ q :: rest ->
    Forall (Resolves m w trigger) before ->
    Provides m w trigger p d1 ->
    Forall (Resolves m w trigger) between ->
    Provides m w trigger q d2 ->
    Ambiguous m w trigger s.

End Machine.

End StateMachine.

(** * The socket under a client (Socket.hpp), seen from the client

    The operating system is an oracle indexed by the number of calls made so
    far: how many bytes the next [send] takes ([Some 0] when it would block,
    [None] when it fails), what a poll answers, what a [recv] yields. [wire]
    collects, in order, the bytes the socket has taken. *)

Module Socket.

Inductive SelectMode : Type := SelectMode_Read | SelectMode_Write | SelectMode_Error.

Record OS : Type := {
  send_window : nat -> option N;
  poll_answer : SelectMode -> nat -> bool;
  received : nat -> string
}.

Record Socket : Type := {
  os : OS;
  calls : nat;
  wire : string
}.

(** [Socket::Send]: the count of bytes taken; a call that would block takes
    none; any other failure throws. *)
Definition Send (value : string) : M Socket N :=
  fun s =>
    let s' := {| os := os s; calls := S (calls s); wire := wire s |} in
    match send_window (os s) (calls s) with
    | None => Throws SendException s'
    | Some window =>
        let count := N.min window (StdString.size value) in
        Returns count
          {| os := os s; calls := S (calls s);
             wire := (wire s ++ StdString.take (N.to_nat count) value)%string |}
    end.

(** A connection in good health: every [send] takes at least one byte. *)
Definition accepting (o : OS) : Prop :=
  forall i, exists window, send_window o i = Some window /\ (0 < window)%N.

Definition Poll (mode : SelectMode) : M Socket bool :=
  fun s => Returns (poll_answer (os s) mode (calls s))
             {| os := os s; calls := S (calls s); wire := wire s |}.

(** [Socket::Receive]: at most [count] bytes; a failing [recv] gives the
    empty string. *)
Definition Receive (count : N) : M Socket string :=
  fun s => Returns (StdString.take (N.to_nat count) (received (os s) (calls s)))
             {| os := os s; calls := S (calls s); wire := wire s |}.

End Socket.

(** * TcpClient.hpp *)

Module TcpClient.

Inductive State : Type :=
| State_Idle
| State_Connecting
| State_Connected
| State_Sending
| State_Disconnected.

Inductive Trigger : Type :=
| Trigger_Connect
| Trigger_Connected
| Trigger_Send
| Trigger_Timeout
| Trigger_Disconnected.

Definition State_ord (s : State) : N :=
  match s with
  | State_Idle => 0
  | State_Connecting => 1
  | State_Connected => 2
  | State_Sending => 3
  | State_Disconnected => 4
  end.

Definition Trigger_ord (t : Trigger) : N :=
  match t with
  | Trigger_Connect => 0
  | Trigger_Connected => 1
  | Trigger_Send => 2
  | Trigger_Timeout => 3
  | Trigger_Disconnected => 4
  end.

#[global] Instance State_Ordered : Ordered State.
Proof.
  refine {| ord := State_ord |}.
  intros [] []; simpl; intros H; try reflexivity; discriminate H.
Defined.

#[global] Instance Trigger_Ordered : Ordered Trigger.
Proof.
  refine {| ord := Trigger_ord |}.
  intros [] []; simpl; intros H; try reflexivity; discriminate H.
Defined.

(** The member functions bound to the entry delegates and to the delegates
    handed to [Thread::SetTimeout] and [Thread::Invoke]. *)
Inductive Handler : Type :=
| Connecting_OnEntry_
| Connected_OnEntry_
| Sending_OnEntry_
| Disconnected_OnEntry_
| Connected_Update_.

(** No transition of the client has a predicate of its own. *)
Definition Guard : Type := Empty_set.

(** The events, in the order they were raised; their subscribers are not
    part of the class. *)
Inductive Event : Type :=
| ClientConnected
| ClientDisconnected
| DataReceived (data : string).

Record Fields : Type := {
  _bufferSize : N;
  _sendBuffer : string;
  socket : Socket.Socket;
  raised : list Event;
  scheduled : list Handler
}.

Definition Machine : Type := StateMachine.StateMachine State Trigger Handler Guard.
Definition Object : Type := StateMachine.Object State Trigger Handler Guard Fields.

Definition with_sendBuffer (b : string) (f : Fields) : Fields :=
  {| _bufferSize := _bufferSize f; _sendBuffer := b; socket := socket f;
     raised := raised f; scheduled := scheduled f |}.

Definition with_socket (s : Socket.Socket) (f : Fields) : Fields :=
  {| _bufferSize := _bufferSize f; _sendBuffer := _sendBuffer f; socket := s;
     raised := raised f; scheduled := scheduled f |}.

Definition raise (e : Event) : M Object unit :=
  modify (fun o : Object =>
    (fst o, {| _bufferSize := _bufferSize (snd o); _sendBuffer := _sendBuffer (snd o);
               socket := socket (snd o); raised := raised (snd o) ++ [e];
               scheduled := scheduled (snd o) |})).

(** [Thread::SetTimeout] and [Thread::Invoke]: the delegate joins the queue
    of the event loop. *)
Definition schedule (h : Handler) : M Object unit :=
  modify (fun o : Object =>
    (fst o, {| _bufferSize := _bufferSize (snd o); _sendBuffer := _sendBuffer (snd o);
               socket := socket (snd o); raised := raised (snd o);
               scheduled := scheduled (snd o) ++ [h] |})).

(** A call of the [Socket] base class. *)
Definition base {A} (c : M Socket.Socket A) : M Object A :=
  fun o =>
    match c (socket (snd o)) with
    | Returns a s => Returns a (fst o, with_socket s (snd o))
    | Throws e s => Throws e (fst o, with_socket s (snd o))
    | OutOfFuel => OutOfFuel
    end.

Definition get_sendBuffer : M Object string := fun o => Returns (_sendBuffer (snd o)) o.
Definition set_sendBuffer (b : string) : M Object unit :=
  modify (fun o : Object => (fst o, with_sendBuffer b (snd o))).

Section Handlers.

(** [_stateMachine.Fire], with the recursion budget left. *)
Variable Fire : Trigger -> M Object unit.

Definition Connecting_OnEntry : M Object unit :=
  writable <- base (Socket.Poll Socket.SelectMode_Write) ;;
  if writable then Fire Trigger_Connected
  else
    failed <- base (Socket.Poll Socket.SelectMode_Error) ;;
    if failed then Fire Trigger_Disconnected
    else schedule Connecting_OnEntry_.

Definition Connected_OnEntry : M Object unit :=
  set_sendBuffer EmptyString ;;
  raise ClientConnected ;;
  schedule Connected_Update_.

Definition Sending_OnEntry : M Object unit :=
  buffer <- get_sendBuffer ;;
  count <- base (Socket.Send buffer) ;;
  set_sendBuffer (StdString.erase0 buffer count) ;;
  if negb (StdString.empty (StdString.erase0 buffer count))
  then Fire Trigger_Send
  else ret tt.

Definition Disconnected_OnEntry : M Object unit :=
  raise ClientDisconnected.

Definition Connected_Update : M Object unit :=
  readable <- base (Socket.Poll Socket.SelectMode_Read) ;;
  if readable then
    size <- (fun o : Object => Returns (_bufferSize (snd o)) o) ;;
    data <- base (Socket.Receive size) ;;
    if StdString.empty data then Fire Trigger_Disconnected
    else raise (DataReceived data) ;; schedule Connected_Update_
  else schedule Connected_Update_.

Definition invoke (h : Handler) : M Object unit :=
  match h with
  | Connecting_OnEntry_ => Connecting_OnEntry
  | Connected_OnEntry_ => Connected_OnEntry
  | Sending_OnEntry_ => Sending_OnEntry
  | Disconnected_OnEntry_ => Disconnected_OnEntry
  | Connected_Update_ => Connected_Update
  end.

End Handlers.

Definition holds (g : Guard) (_ : State) (_ : Fields) : bool := match g with end.

(** [_stateMachine.Fire(trigger)]; [fuel] bounds the nesting of fires in
    entry handlers and the depth of the search through super-states. *)
Fixpoint Fire (fuel : nat) (trigger : Trigger) : M Object unit :=
  match fuel with
  | O => fun _ => OutOfFuel
  | S fuel' => StateMachine.Fire (invoke (Fire fuel')) holds fuel trigger
  end.

Definition permit (trigger : Trigger) (destination : State)
    : StateMachine.StateConfiguration State Trigger Handler Guard
      -> StateMachine.StateConfiguration State Trigger Handler Guard :=
  StateMachine.Permit trigger destination (Bound (StateMachine.DefaultPredicate Guard)).

(** The machine as the constructor configures it. *)
Definition configured : Machine :=
  let configure state calls := StateMachine.Configuring state (StateMachine.chained calls) in
  let m0 : Machine :=
    {| StateMachine._stateConfigurations := []; StateMachine._state := State_Idle |} in
  let m1 := configure State_Idle
    [ permit Trigger_Connected State_Connected;
      permit Trigger_Connect State_Connecting ] m0 in
  let m2 := configure State_Connecting
    [ StateMachine.OnEntry Connecting_OnEntry_;
      permit Trigger_Connected State_Connected;
      permit Trigger_Disconnected State_Disconnected;
      permit Trigger_Timeout State_Disconnected ] m1 in
  let m3 := configure State_Connected
    [ StateMachine.OnEntry Connected_OnEntry_;
      permit Trigger_Send State_Sending;
      permit Trigger_Disconnected State_Disconnected ] m2 in
  let m4 := configure State_Sending
    [ StateMachine.SubstateOf State_Connected;
      StateMachine.OnEntry Sending_OnEntry_ ] m3 in
  configure State_Disconnected
    [ StateMachine.OnEntry Disconnected_OnEntry_ ] m4.

(** The constructor: a client in [State_Idle] with an empty send queue. *)
Definition construct (bufferSize : N) (sock : Socket.Socket) : Object :=
  (configured,
   {| _bufferSize := bufferSize; _sendBuffer := EmptyString; socket := sock;
      raised := []; scheduled := [] |}).

(** [AssumeConnected], [Send], [Disconnect]. *)
Definition AssumeConnected (fuel : nat) : M Object unit := Fire fuel Trigger_Connected.

Definition Send (fuel : nat) (value : string) : M Object unit :=
  buffer <- get_sendBuffer ;;
  set_sendBuffer (buffer ++ value)%string ;;
  Fire fuel Trigger_Send.

Definition Disconnect (fuel : nat) : M Object unit := Fire fuel Trigger_Disconnected.

(** The destructor. *)
Definition destroy (fuel : nat) : M Object unit :=
  fun o =>
    match StateMachine.State o with
    | State_Connected | State_Connecting => Fire fuel Trigger_Disconnected o
    | _ => Returns tt o
    end.

(** The machine with the configuration of the constructor, in state [s]. *)
Definition machine (s : State) : Machine :=
  {| StateMachine._stateConfigurations := StateMachine._stateConfigurations configured;
     StateMachine._state := s |}.

(** The fields once the socket has taken all of [bytes] in [sends] calls
    and the send queue is empty. *)
Definition sent (bytes : string) (sends : nat) (f : Fields) : Fields :=
  {| _bufferSize := _bufferSize f;
     _sendBuffer := EmptyString;
     socket := {| Socket.os := Socket.os (socket f);
                  Socket.calls := Socket.calls (socket f) + sends;
                  Socket.wire := (Socket.wire (socket f) ++ bytes)%string |};
     raised := raised f;
     scheduled := scheduled f |}.

(** The fields once event [e] has been raised. *)
Definition raising (e : Event) (f : Fields) : Fields :=
  {| _bufferSize := _bufferSize f; _sendBuffer := _sendBuffer f; socket := socket f;
     raised := raised f ++ [e]; scheduled := scheduled f |}.

(** The fields after [k] more calls on the socket that put nothing on the
    wire. *)
Definition polled (k : nat) (f : Fields) : Fields :=
  with_socket {| Socket.os := Socket.os (socket f);
                 Socket.calls := Socket.calls (socket f) + k;
                 Socket.wire := Socket.wire (socket f) |} f.

End TcpClient.

(** * Clients and machines used as examples *)

Module Examples.

(** A socket whose every [send] takes up to 1460 bytes. *)
Definition os : Socket.OS :=
  {| Socket.send_window := fun _ => Some 1460%N;
     Socket.poll_answer := fun _ _ => false;
     Socket.received := fun _ => EmptyString |}.

Definition socket : Socket.Socket :=
  {| Socket.os := os; Socket.calls := 0; Socket.wire := EmptyString |}.

Definition fields : TcpClient.Fields := snd (TcpClient.construct 4096 socket).

(** Two transitions permitted for one trigger in one state, both with the
    default predicate. *)
Definition twice : TcpClient.Machine :=
  StateMachine.Configuring TcpClient.State_Idle
    (StateMachine.chained
       [ TcpClient.permit TcpClient.Trigger_Connect TcpClient.State_Connecting;
         TcpClient.permit TcpClient.Trigger_Connect TcpClient.State_Connected ])
    {| StateMachine._stateConfigurations := [];
       StateMachine._state := TcpClient.State_Idle |}.

(** A socket whose send buffer is full: every [send] would block. *)
Definition congested_os : Socket.OS :=
  {| Socket.send_window := fun _ => Some 0%N;
     Socket.poll_answer := fun _ _ => false;
     Socket.received := fun _ => EmptyString |}.

Definition congested : TcpClient.Fields :=
  snd (TcpClient.construct 4096
         {| Socket.os := congested_os; Socket.calls := 0; Socket.wire := EmptyString |}).

(** A socket with a peer that has answered: it polls ready and every
    [recv] yields the bytes [pong]. *)
Definition answering_os : Socket.OS :=
  {| Socket.send_window := fun _ => Some 1460%N;
     Socket.poll_answer := fun _ _ => true;
     Socket.received := fun _ => "pong"%string |}.

Definition answering : TcpClient.Fields :=
  snd (TcpClient.construct 4096
         {| Socket.os := answering_os; Socket.calls := 0; Socket.wire := EmptyString |}).

(** Two states, each configured as a sub-state of the other, and no
    transition permitted anywhere. *)
Definition cyclic : TcpClient.Machine :=
  StateMachine.Configuring TcpClient.State_Connecting
    (StateMachine.SubstateOf TcpClient.State_Idle)
    (StateMachine.Configuring TcpClient.State_Idle
       (StateMachine.SubstateOf TcpClient.State_Connecting)
       {| StateMachine._stateConfigurations := [];
          StateMachine._state := TcpClient.State_Idle |}).

(** A sub-state and its super-state that both permit a transition for the
    same trigger, to different destinations. *)
Definition shadowing : TcpClient.Machine :=
  StateMachine.Configuring TcpClient.State_Sending
    (StateMachine.chained
       [ StateMachine.SubstateOf TcpClient.State_Connected;
         TcpClient.permit TcpClient.Trigger_Disconnected TcpClient.State_Idle ])
    (StateMachine.Configuring TcpClient.State_Connected
       (TcpClient.permit TcpClient.Trigger_Disconnected TcpClient.State_Disconnected)
       {| StateMachine._stateConfigurations := [];
          StateMachine._state := TcpClient.State_Sending |}).

(** A transition permitted with an empty delegate as its predicate. *)
Definition unguarded : TcpClient.Machine :=
  StateMachine.Configuring TcpClient.State_Idle
    (StateMachine.Permit TcpClient.Trigger_Connect TcpClient.State_Connecting Unbound)
    {| StateMachine._stateConfigurations := [];
       StateMachine._state := TcpClient.State_Idle |}.

(** Handlers that all throw. *)
Definition throwing (h : TcpClient.Handler) : M TcpClient.Object unit :=
  throw SendException.

End Examples.

(** * HttpClient.hpp *)

Module HttpClient.

Import StdString.
Local Open Scope N_scope.

Definition CR : ascii := "013"%char.
Definition LF : ascii := "010"%char.
Definition CRLF : string := String CR (String LF EmptyString).

Inductive State : Type :=
| State_WaitForConnection
| State_Connected
| State_RequestActionLine
| State_RequestHeaderLine
| State_RequestLastHeader
| State_RequestChunk
| State_ResponseActionLine
| State_ResponseHeaderLine
| State_ResponseHeaderLineAndTransferEncodingChunked
| State_ResponseHeaderLineAndContentLength
| State_ResponseHeaderLineConnectionClose
| State_ResponseHeaderLineAndContentLengthAndConnectionClose
| State_ResponseHeaderLineAndTransferEncodingChunkedAndConnectionClose
| State_ResponseContent
| State_ResponseContentUntilClosed
| State_ResponseChunkSize
| State_ResponseChunkSizeAndConnectionClose
| State_ResponseChunk
| State_ResponseChunkAndConnectionClose
| State_EndOfResponseContentUntilClosed
| State_EndOfResponse
| State_WaitForDisconnect.

Inductive Trigger : Type :=
| Trigger_Connected
| Trigger_RequestBegin
| Trigger_RequestHeader
| Trigger_RequestChunk
| Trigger_Continue
| Trigger_Break
| Trigger_RequestEnd
| Trigger_TransferEncodingChunked
| Trigger_ContentLength
| Trigger_ConnectionClose
| Trigger_EndOfChunks
| Trigger_Disconnect.

Definition State_ord (s : State) : N :=
  match s with
  | State_WaitForConnection => 0
  | State_Connected => 1
  | State_RequestActionLine => 2
  | State_RequestHeaderLine => 3
  | State_RequestLastHeader => 4
  | State_RequestChunk => 5
  | State_ResponseActionLine => 6
  | State_ResponseHeaderLine => 7
  | State_ResponseHeaderLineAndTransferEncodingChunked => 8
  | State_ResponseHeaderLineAndContentLength => 9
  | State_ResponseHeaderLineConnectionClose => 10
  | State_ResponseHeaderLineAndContentLengthAndConnectionClose => 11
  | State_ResponseHeaderLineAndTransferEncodingChunkedAndConnectionClose => 12
  | State_ResponseContent => 13
  | State_ResponseContentUntilClosed => 14
  | State_ResponseChunkSize => 15
  | State_ResponseChunkSizeAndConnectionClose => 16
  | State_ResponseChunk => 17
  | State_ResponseChunkAndConnectionClose => 18
  | State_EndOfResponseContentUntilClosed => 19
  | State_EndOfResponse => 20
  | State_WaitForDisconnect => 21
  end.

Definition Trigger_ord (t : Trigger) : N :=
  match t with
  | Trigger_Connected => 0
  | Trigger_RequestBegin => 1
  | Trigger_RequestHeader => 2
  | Trigger_RequestChunk => 3
  | Trigger_Continue => 4
  | Trigger_Break => 5
  | Trigger_RequestEnd => 6
  | Trigger_TransferEncodingChunked => 7
  | Trigger_ContentLength => 8
  | Trigger_ConnectionClose => 9
  | Trigger_EndOfChunks => 10
  | Trigger_Disconnect => 11
  end.

#[global] Instance State_Ordered : Ordered State.
Proof.
  refine {| ord := State_ord |}.
  intros [] []; simpl; intros H; try reflexivity; discriminate H.
Defined.

#[global] Instance Trigger_Ordered : Ordered Trigger.
Proof.
  refine {| ord := Trigger_ord |}.
  intros [] []; simpl; intros H; try reflexivity; discriminate H.
Defined.

(** The member functions bound to the entry delegates. *)
Inductive Handler : Type :=
| OnWaitForConnectionEntered_
| OnLastHeaderEntered_
| ActionLineEntered_
| HeaderLineEntered_
| ContentUntilClosedEntered_
| ContentEntered_
| ChunkSizeEntered_
| ChunkEntered_
| EndOfResponseContentUntilClosedEntered_
| EndEntered_.

Definition Guard : Type := Empty_set.

(** The events of the client, in the order they were raised. *)
Inductive Event : Type :=
| ResponseStarted (protocol : string) (code : Z) (description : string)
| HeaderReceived (key value : string)
| ContentReceived (content : string)
| ResponseEnded.

(** The fields of the client; [tcp] is the [TcpClient] base class. *)
Record Fields : Type := {
  _buffer : string;
  _contentLength : N;
  tcp : TcpClient.Object;
  raised : list Event
}.

Definition Machine : Type := StateMachine.StateMachine State Trigger Handler Guard.
Definition Object : Type := StateMachine.Object State Trigger Handler Guard Fields.

Definition get_buffer : M Object string := fun o => Returns (_buffer (snd o)) o.
Definition get_contentLength : M Object N := fun o => Returns (_contentLength (snd o)) o.

Definition set_buffer (b : string) : M Object unit :=
  modify (fun o : Object =>
    (fst o, {| _buffer := b; _contentLength := _contentLength (snd o);
               tcp := tcp (snd o); raised := raised (snd o) |})).

Definition set_contentLength (n : N) : M Object unit :=
  modify (fun o : Object =>
    (fst o, {| _buffer := _buffer (snd o); _contentLength := n;
               tcp := tcp (snd o); raised := raised (snd o) |})).

Definition raise (e : Event) : M Object unit :=
  modify (fun o : Object =>
    (fst o, {| _buffer := _buffer (snd o); _contentLength := _contentLength (snd o);
               tcp := tcp (snd o); raised := raised (snd o) ++ [e] |})).

(** A call of the [TcpClient] base class. *)
Definition base {A} (c : M TcpClient.Object A) : M Object A :=
  fun o =>
    let put t := (fst o, {| _buffer := _buffer (snd o);
                            _contentLength := _contentLength (snd o);
                            tcp := t; raised := raised (snd o) |}) in
    match c (tcp (snd o)) with
    | Returns a t => Returns a (put t)
    | Throws e t => Throws e (put t)
    | OutOfFuel => OutOfFuel
    end.

Definition substr (s : string) (pos n : N) : M Object string :=
  match StdString.substr s pos n with
  | Some r => ret r
  | None => throw OutOfRangeException
  end.

Definition convert {A} (r : option A) : M Object A :=
  match r with
  | Some v => ret v
  | None => throw InvalidFormatException
  end.

Section Handlers.

Variable fuel : nat.

(** [_stateMachine.Fire], with the recursion budget left. *)
Variable Fire : Trigger -> M Object unit.

Definition OnWaitForConnectionEntered : M Object unit :=
  set_buffer EmptyString.

Definition OnLastHeaderEntered : M Object unit :=
  base (TcpClient.Send fuel ("Transfer-Encoding: chunked" ++ CRLF ++ CRLF)) ;;
  Fire Trigger_Break.

Definition ActionLineEntered : M Object unit :=
  buffer <- get_buffer ;;
  let endOfProtocol := find buffer " " 0 in
  if endOfProtocol =? npos then ret tt
  else
    let endOfCode := find buffer " " (size_add endOfProtocol 1) in
    if endOfCode =? npos then ret tt
    else
      let endOfDescription := find buffer CRLF (size_add endOfCode 1) in
      if endOfDescription =? npos then ret tt
      else
        protocol <- substr buffer 0 endOfProtocol ;;
        text <- substr buffer (size_add endOfProtocol 1)
                  (size_sub (size_sub endOfCode endOfProtocol) 1) ;;
        code <- convert (Convert_int text) ;;
        description <- substr buffer (size_add endOfCode 1)
                         (size_sub (size_sub endOfDescription endOfCode) 1) ;;
        set_buffer (erase0 buffer (size_add endOfDescription 2)) ;;
        set_contentLength 0 ;;
        raise (ResponseStarted protocol code description) ;;
        Fire Trigger_Break.

Definition HeaderLineEntered : M Object unit :=
  buffer <- get_buffer ;;
  let endOfValue := find buffer CRLF 0 in
  if endOfValue =? npos then ret tt
  else if endOfValue =? 0 then
    set_buffer (erase0 buffer 2) ;;
    Fire Trigger_Break
  else
    let endOfKey := find buffer ":" 0 in
    if endOfKey =? npos then ret tt
    else
      key <- substr buffer 0 endOfKey ;;
      value <- substr buffer (size_add endOfKey 2)
                 (size_sub (size_sub endOfValue endOfKey) 2) ;;
      set_buffer (erase0 buffer (size_add endOfValue 2)) ;;
      raise (HeaderReceived key value) ;;
      if String.eqb (ToLowerCase key) "transfer-encoding"
         && String.eqb (ToLowerCase value) "chunked"
      then Fire Trigger_TransferEncodingChunked
      else if String.eqb (ToLowerCase key) "content-length" then
        length <- convert (Convert_size_t 10 value) ;;
        set_contentLength length ;;
        Fire Trigger_ContentLength
      else if String.eqb (ToLowerCase key) "connection"
              && String.eqb (ToLowerCase value) "close"
      then Fire Trigger_ConnectionClose
      else Fire Trigger_Continue.

Definition ContentUntilClosedEntered : M Object unit :=
  buffer <- get_buffer ;;
  if negb (empty buffer) then
    raise (ContentReceived buffer) ;;
    set_buffer EmptyString ;;
    Fire Trigger_Continue
  else ret tt.

(** The body shared by [ContentEntered] and [ChunkEntered] once some
    bytes of content are in the buffer. *)
Definition take_content : M Object unit :=
  buffer <- get_buffer ;;
  contentLength <- get_contentLength ;;
  let count := if contentLength <? size buffer then contentLength else size buffer in
  chunk <- substr buffer 0 count ;;
  set_buffer (erase0 buffer count) ;;
  set_contentLength (size_sub contentLength count) ;;
  raise (ContentReceived chunk) ;;
  Fire Trigger_Continue.

Definition ContentEntered : M Object unit :=
  buffer <- get_buffer ;;
  contentLength <- get_contentLength ;;
  if contentLength =? 0 then Fire Trigger_Break
  else if negb (empty buffer) then take_content
  else ret tt.

Definition ChunkSizeEntered : M Object unit :=
  buffer <- get_buffer ;;
  let endOfSize := find buffer CRLF 0 in
  if endOfSize =? npos then ret tt
  else
    text <- substr buffer 0 endOfSize ;;
    length <- convert (Convert_size_t 16 text) ;;
    set_contentLength length ;;
    set_buffer (erase0 buffer (size_add endOfSize 2)) ;;
    if length =? 0 then
      buffer' <- get_buffer ;;
      set_buffer (erase0 buffer' (size_add endOfSize 2)) ;;
      Fire Trigger_EndOfChunks
    else Fire Trigger_Break.

Definition ChunkEntered : M Object unit :=
  buffer <- get_buffer ;;
  contentLength <- get_contentLength ;;
  if contentLength =? 0 then
    if (2 <=? size buffer) && String.eqb (take 2 buffer) CRLF then
      set_buffer (erase0 buffer 2) ;;
      Fire Trigger_Break
    else ret tt
  else if negb (empty buffer) then take_content
  else ret tt.

Definition EndEntered : M Object unit :=
  raise ResponseEnded.

Definition EndOfResponseContentUntilClosedEntered : M Object unit :=
  EndEntered ;;
  Fire Trigger_Break.

Definition invoke (h : Handler) : M Object unit :=
  match h with
  | OnWaitForConnectionEntered_ => OnWaitForConnectionEntered
  | OnLastHeaderEntered_ => OnLastHeaderEntered
  | ActionLineEntered_ => ActionLineEntered
  | HeaderLineEntered_ => HeaderLineEntered
  | ContentUntilClosedEntered_ => ContentUntilClosedEntered
  | ContentEntered_ => ContentEntered
  | ChunkSizeEntered_ => ChunkSizeEntered
  | ChunkEntered_ => ChunkEntered
  | EndOfResponseContentUntilClosedEntered_ => EndOfResponseContentUntilClosedEntered
  | EndEntered_ => EndEntered
  end.

End Handlers.

Definition holds (g : Guard) (_ : State) (_ : Fields) : bool := match g with end.

(** [_stateMachine.Fire(trigger)]; [fuel] bounds the nesting of fires in
    entry handlers, in this machine and in the one of the base class. *)
Fixpoint Fire (fuel : nat) (trigger : Trigger) : M Object unit :=
  match fuel with
  | O => fun _ => OutOfFuel
  | S fuel' => StateMachine.Fire (invoke fuel' (Fire fuel')) holds fuel trigger
  end.

Definition permit (trigger : Trigger) (destination : State)
    : StateMachine.StateConfiguration State Trigger Handler Guard
      -> StateMachine.StateConfiguration State Trigger Handler Guard :=
  StateMachine.Permit trigger destination (Bound (StateMachine.DefaultPredicate Guard)).

Definition entry (h : Handler)
    : StateMachine.StateConfiguration State Trigger Handler Guard
      -> StateMachine.StateConfiguration State Trigger Handler Guard :=
  StateMachine.OnEntry h.

(** The machine as the constructor configures it, state by state in the
    order of the source. *)
Definition configurations
    : list (State * list (StateMachine.StateConfiguration State Trigger Handler Guard
                          -> StateMachine.StateConfiguration State Trigger Handler Guard)) :=
  [ (State_WaitForConnection,
     [ entry OnWaitForConnectionEntered_;
       permit Trigger_Continue State_WaitForConnection;
       permit Trigger_Break State_WaitForConnection;
       permit Trigger_Connected State_Connected ]);
    (State_Connected,
     [ permit Trigger_Disconnect State_WaitForConnection;
       permit Trigger_RequestBegin State_RequestActionLine ]);
    (State_RequestActionLine,
     [ permit Trigger_Disconnect State_WaitForConnection;
       permit Trigger_RequestHeader State_RequestHeaderLine;
       permit Trigger_RequestChunk State_RequestLastHeader ]);
    (State_RequestHeaderLine,
     [ permit Trigger_Disconnect State_WaitForConnection;
       permit Trigger_RequestHeader State_RequestHeaderLine;
       permit Trigger_RequestChunk State_RequestLastHeader ]);
    (State_RequestLastHeader,
     [ entry OnLastHeaderEntered_;
       permit Trigger_Disconnect State_WaitForConnection;
       permit Trigger_Break State_RequestChunk ]);
    (State_RequestChunk,
     [ permit Trigger_Disconnect State_WaitForConnection;
       permit Trigger_RequestChunk State_RequestChunk;
       permit Trigger_RequestEnd State_ResponseActionLine ]);
    (State_ResponseActionLine,
     [ entry ActionLineEntered_;
       permit Trigger_Disconnect State_WaitForConnection;
       permit Trigger_Continue State_ResponseActionLine;
       permit Trigger_Break State_ResponseHeaderLine ]);
    (State_ResponseHeaderLine,
     [ entry HeaderLineEntered_;
       permit Trigger_Disconnect State_WaitForConnection;
       permit Trigger_Continue State_ResponseHeaderLine;
       permit Trigger_TransferEncodingChunked
         State_ResponseHeaderLineAndTransferEncodingChunked;
       permit Trigger_ContentLength State_ResponseHeaderLineAndContentLength;
       permit Trigger_ConnectionClose State_ResponseHeaderLineConnectionClose;
       permit Trigger_Break State_ResponseContent ]);
    (State_ResponseHeaderLineAndTransferEncodingChunked,
     [ entry HeaderLineEntered_;
       permit Trigger_Disconnect State_WaitForConnection;
       permit Trigger_Continue State_ResponseHeaderLineAndTransferEncodingChunked;
       permit Trigger_ConnectionClose
         State_ResponseHeaderLineAndTransferEncodingChunkedAndConnectionClose;
       permit Trigger_Break State_ResponseChunkSize ]);
    (State_ResponseHeaderLineAndContentLength,
     [ entry HeaderLineEntered_;
       permit Trigger_Disconnect State_WaitForConnection;
       permit Trigger_ConnectionClose
         State_ResponseHeaderLineAndContentLengthAndConnectionClose;
       permit Trigger_Continue State_ResponseHeaderLineAndContentLength;
       permit Trigger_Break State_ResponseContent ]);
    (State_ResponseHeaderLineConnectionClose,
     [ entry HeaderLineEntered_;
       permit Trigger_Disconnect State_WaitForConnection;
       permit Trigger_ContentLength
         State_ResponseHeaderLineAndContentLengthAndConnectionClose;
       permit Trigger_TransferEncodingChunked
         State_ResponseHeaderLineAndTransferEncodingChunkedAndConnectionClose;
       permit Trigger_Continue State_ResponseHeaderLineConnectionClose;
       permit Trigger_Break State_ResponseContentUntilClosed ]);
    (State_ResponseHeaderLineAndContentLengthAndConnectionClose,
     [ entry HeaderLineEntered_;
       permit Trigger_Disconnect State_WaitForConnection;
       permit Trigger_Continue State_ResponseHeaderLineAndContentLengthAndConnectionClose;
       permit Trigger_Break State_ResponseContentUntilClosed ]);
    (State_ResponseHeaderLineAndTransferEncodingChunkedAndConnectionClose,
     [ entry HeaderLineEntered_;
       permit Trigger_Disconnect State_WaitForConnection;
       permit Trigger_Continue
         State_ResponseHeaderLineAndTransferEncodingChunkedAndConnectionClose;
       permit Trigger_Break State_ResponseChunkSizeAndConnectionClose ]);
    (State_ResponseContentUntilClosed,
     [ entry ContentUntilClosedEntered_;
       permit Trigger_Disconnect State_EndOfResponseContentUntilClosed;
       permit Trigger_Continue State_ResponseContentUntilClosed;
       permit Trigger_Break State_EndOfResponseContentUntilClosed ]);
    (State_ResponseContent,
     [ entry ContentEntered_;
       permit Trigger_Disconnect State_WaitForConnection;
       permit Trigger_Continue State_ResponseContent;
       permit Trigger_Break State_EndOfResponse ]);
    (State_ResponseChunkSize,
     [ entry ChunkSizeEntered_;
       permit Trigger_Disconnect State_WaitForConnection;
       permit Trigger_Continue State_ResponseChunkSize;
       permit Trigger_EndOfChunks State_EndOfResponse;
       permit Trigger_Break State_ResponseChunk ]);
    (State_ResponseChunkSizeAndConnectionClose,
     [ entry ChunkSizeEntered_;
       permit Trigger_Disconnect State_WaitForConnection;
       permit Trigger_Continue State_ResponseChunkSizeAndConnectionClose;
       permit Trigger_EndOfChunks State_EndOfResponseContentUntilClosed;
       permit Trigger_Break State_ResponseChunkAndConnectionClose ]);
    (State_ResponseChunk,
     [ entry ChunkEntered_;
       permit Trigger_Disconnect State_WaitForConnection;
       permit Trigger_Continue State_ResponseChunk;
       permit Trigger_Break State_ResponseChunkSize ]);
    (State_ResponseChunkAndConnectionClose,
     [ entry ChunkEntered_;
       permit Trigger_Disconnect State_WaitForConnection;
       permit Trigger_Continue State_ResponseChunkAndConnectionClose;
       permit Trigger_Break State_ResponseChunkSizeAndConnectionClose ]);
    (State_EndOfResponseContentUntilClosed,
     [ entry EndOfResponseContentUntilClosedEntered_;
       permit Trigger_Disconnect State_WaitForConnection;
       permit Trigger_Continue State_EndOfResponseContentUntilClosed;
       permit Trigger_Break State_WaitForDisconnect ]);
    (State_WaitForDisconnect,
     [ permit Trigger_Disconnect State_WaitForConnection ]);
    (State_EndOfResponse,
     [ entry EndEntered_;
       permit Trigger_Disconnect State_WaitForConnection;
       permit Trigger_RequestBegin State_RequestActionLine ]) ].

Definition configured : Machine :=
  fold_left
    (fun m sc => StateMachine.Configuring (fst sc) (StateMachine.chained (snd sc)) m)
    configurations
    {| StateMachine._stateConfigurations := [];
       StateMachine._state := State_WaitForConnection |}.

(** The machine with the configuration of the constructor, in state [s]. *)
Definition machine (s : State) : Machine :=
  {| StateMachine._stateConfigurations := StateMachine._stateConfigurations configured;
     StateMachine._state := s |}.

(** The constructor. *)
Definition construct (bufferSize : N) (sock : Socket.Socket) : Object :=
  (configured,
   {| _buffer := EmptyString; _contentLength := 0;
      tcp := TcpClient.construct bufferSize sock; raised := [] |}).

(** The handlers the constructor subscribes to the events of the base
    class. *)
Definition OnClientConnected (fuel : nat) : M Object unit := Fire fuel Trigger_Connected.

Definition OnClientDisconnected (fuel : nat) : M Object unit := Fire fuel Trigger_Disconnect.

Definition OnDataReceived (fuel : nat) (data : string) : M Object unit :=
  buffer <- get_buffer ;;
  set_buffer (buffer ++ data) ;;
  Fire fuel Trigger_Continue.

(** The request side. *)
Definition Begin (fuel : nat) (method path protocol : string) : M Object unit :=
  Fire fuel Trigger_RequestBegin ;;
  base (TcpClient.Send fuel (method ++ " " ++ path ++ " " ++ protocol ++ CRLF)).

Definition SendHeader (fuel : nat) (key value : string) : M Object unit :=
  Fire fuel Trigger_RequestHeader ;;
  base (TcpClient.Send fuel (key ++ ": " ++ value ++ CRLF)).

Definition Send (fuel : nat) (data : string) : M Object unit :=
  Fire fuel Trigger_RequestChunk ;;
  if negb (empty data) then
    base (TcpClient.Send fuel (Format_x (size data) ++ CRLF ++ data ++ CRLF))
  else ret tt.

Definition End (fuel : nat) : M Object unit :=
  Fire fuel Trigger_RequestEnd ;;
  base (TcpClient.Send fuel ("0" ++ CRLF ++ CRLF)).

(** The bytes the connection has taken so far. *)
Definition wire (o : Object) : string :=
  Socket.wire (TcpClient.socket (snd (tcp (snd o)))).

Definition with_tcp (t : TcpClient.Object) (d : Fields) : Fields :=
  {| _buffer := _buffer d; _contentLength := _contentLength d; tcp := t;
     raised := raised d |}.

(** The bytes of a [POST /] with the header [Host: h] and the body [ABC]
    sent as one chunk. *)
Definition request (protocol : string) : string :=
  ("POST / " ++ protocol ++ CRLF
   ++ "Host: h" ++ CRLF
   ++ "Transfer-Encoding: chunked" ++ CRLF ++ CRLF
   ++ "3" ++ CRLF ++ "ABC" ++ CRLF
   ++ "0" ++ CRLF ++ CRLF)%string.

(** The second half of the claim in the words of the specification: a
    call of [Send] with an empty chunk writes no bytes at all. *)
Definition empty_chunk_writes_nothing : Prop :=
  forall (fuel : nat) (o o' : Object),
    Send fuel "" o = Returns tt o' -> wire o' = wire o.

(** The data of the connection arriving in pieces, one [OnDataReceived]
    each. *)
Fixpoint receive (fuel : nat) (pieces : list string) : M Object unit :=
  match pieces with
  | [] => ret tt
  | piece :: pieces' => OnDataReceived fuel piece ;; receive fuel pieces'
  end.

(** The states in which the constructor permits [Trigger_Continue], the
    trigger [OnDataReceived] fires: the states that read a response. *)
Definition awaits_response (s : State) : bool :=
  match s with
  | State_Connected | State_RequestActionLine | State_RequestHeaderLine
  | State_RequestLastHeader | State_RequestChunk | State_WaitForDisconnect
  | State_EndOfResponse => false
  | _ => true
  end.

End HttpClient.

(** * Xml.hpp: the document object model *)

Module XmlAttribute.

Record XmlAttribute : Type := {
  _namespace : string;
  _name : string;
  _value : string
}.

(** [XmlAttribute()] and [XmlAttribute(ns, name)]. *)
Definition empty : XmlAttribute :=
  {| _namespace := EmptyString; _name := EmptyString; _value := EmptyString |}.

Definition make (ns name : string) : XmlAttribute :=
  {| _namespace := ns; _name := name; _value := EmptyString |}.

Definition Value (value : string) (a : XmlAttribute) : XmlAttribute :=
  {| _namespace := _namespace a; _name := _name a; _value := value |}.

Definition Exists (a : XmlAttribute) : bool := negb (StdString.empty (_name a)).

End XmlAttribute.

Module XmlElement.

Import StdString.
Local Open Scope string_scope.

(** [_elements] is a [std::multimap] and [_attributes] a [std::map], both
    keyed by [std::string]: the lists hold the entries in the order the
    containers iterate them. *)
#[local] Set Warnings "-register-all".
Inductive XmlElement : Type :=
| Build (_namespace _name _value : string)
        (_elements : list (string * XmlElement))
        (_attributes : list (string * XmlAttribute.XmlAttribute)).

Definition Namespace (e : XmlElement) : string :=
  match e with Build ns _ _ _ _ => ns end.
Definition Name (e : XmlElement) : string :=
  match e with Build _ name _ _ _ => name end.
Definition Value (e : XmlElement) : string :=
  match e with Build _ _ value _ _ => value end.
Definition Elements (e : XmlElement) : list (string * XmlElement) :=
  match e with Build _ _ _ elements _ => elements end.
Definition Attributes (e : XmlElement) : list (string * XmlAttribute.XmlAttribute) :=
  match e with Build _ _ _ _ attributes => attributes end.

(** [XmlElement()] and [XmlElement(ns, name)]. *)
Definition empty : XmlElement := Build "" "" "" [] [].
Definition make (ns name : string) : XmlElement := Build ns name "" [] [].

(** The statics returned for what is missing. *)
Definition NullElement : XmlElement := empty.
Definition NullAttribute : XmlAttribute.XmlAttribute := XmlAttribute.empty.

Definition Exists (e : XmlElement) : bool := negb (StdString.empty (Name e)).

Definition Escape (value : string) : string :=
  let escaped := value in
  let escaped := returned (Replace escaped "&" "&amp;") escaped in
  let escaped := returned (Replace escaped "'" "&apos;") escaped in
  let escaped := returned (Replace escaped DoubleQuoteString "&quot;") escaped in
  let escaped := returned (Replace escaped "<" "&lt;") escaped in
  let escaped := returned (Replace escaped ">" "&gt;") escaped in
  escaped.

Definition Unescape (value : string) : string :=
  let unescaped := value in
  let unescaped := returned (Replace unescaped "&apos;" "'") unescaped in
  let unescaped := returned (Replace unescaped "&quot;" DoubleQuoteString) unescaped in
  let unescaped := returned (Replace unescaped "&lt;" "<") unescaped in
  let unescaped := returned (Replace unescaped "&gt;" ">") unescaped in
  let unescaped := returned (Replace unescaped "&amp;" "&") unescaped in
  unescaped.

Definition Key (ns name : string) : string := ToLowerCase (ns ++ ":" ++ name).

(** *** The containers *)

Section Containers.

Variable V : Type.

(** [find]: the position of the first entry with the key. *)
Fixpoint find_from (key : string) (l : list (string * V)) (i : nat) : option nat :=
  match l with
  | [] => None
  | (k, _) :: l' => if String.eqb key k then Some i else find_from key l' (S i)
  end.

Definition find (key : string) (l : list (string * V)) : option nat :=
  find_from key l 0.

(** [std::multimap::insert]: after the entries whose keys are not
    greater; the new position is returned with the container. *)
Fixpoint multimap_insert (key : string) (v : V) (l : list (string * V))
    : list (string * V) * nat :=
  match l with
  | [] => ([(key, v)], O)
  | (k, v') :: l' =>
      if String.ltb key k then ((key, v) :: l, O)
      else let (r, i) := multimap_insert key v l' in ((k, v') :: r, S i)
  end.

(** [std::map::insert] of a key that is not in the map. *)
Fixpoint map_insert (key : string) (v : V) (l : list (string * V))
    : list (string * V) * nat :=
  match l with
  | [] => ([(key, v)], O)
  | (k, v') :: l' =>
      if String.ltb key k then ((key, v) :: l, O)
      else let (r, i) := map_insert key v l' in ((k, v') :: r, S i)
  end.

(** Writing through a reference to the entry at a position. *)
Fixpoint update (i : nat) (f : V -> V) (l : list (string * V)) : list (string * V) :=
  match l, i with
  | [], _ => []
  | (k, v) :: l', O => (k, f v) :: l'
  | kv :: l', S i' => kv :: update i' f l'
  end.

End Containers.

(** The order [std::less<std::string>] puts on the entries of the
    containers. *)
Definition key_le {V} (a b : string * V) : Prop := String.leb (fst a) (fst b) = true.
Definition key_lt {V} (a b : string * V) : Prop := String.ltb (fst a) (fst b) = true.

(** A [XmlElement&] or [XmlAttribute&] handed out by a look-up: the static
    null object, or the entry at a position of the container. *)
Inductive Reference : Type :=
| ToNull
| ToEntry (position : nat).

Definition element_at (e : XmlElement) (r : Reference) : XmlElement :=
  match r with
  | ToNull => NullElement
  | ToEntry i => nth i (map snd (Elements e)) NullElement
  end.

Definition attribute_at (e : XmlElement) (r : Reference) : XmlAttribute.XmlAttribute :=
  match r with
  | ToNull => NullAttribute
  | ToEntry i => nth i (map snd (Attributes e)) NullAttribute
  end.

(** *** Look-up and insertion *)

(** [Add(ns, name)]. *)
Definition Add (ns name : string) (e : XmlElement) : XmlElement * Reference :=
  let (elements, i) := multimap_insert (Key ns name) (make ns name) (Elements e) in
  (Build (Namespace e) (Name e) (Value e) elements (Attributes e), ToEntry i).

(** [Element(ns, name) const]. *)
Definition Element_const (ns name : string) (e : XmlElement) : Reference :=
  match find (Key ns name) (Elements e) with
  | None => ToNull
  | Some i => ToEntry i
  end.

(** [Element(ns, name)]. *)
Definition Element (ns name : string) (e : XmlElement) : XmlElement * Reference :=
  let key := Key ns name in
  match find key (Elements e) with
  | None => Add ns name e
  | Some i => (e, ToEntry i)
  end.

(** [Attribute(ns, name) const]. *)
Definition Attribute_const (ns name : string) (e : XmlElement) : Reference :=
  match find (Key ns name) (Attributes e) with
  | None => ToNull
  | Some i => ToEntry i
  end.

(** [Attribute(ns, name)]. *)
Definition Attribute (ns name : string) (e : XmlElement) : XmlElement * Reference :=
  let key := Key ns name in
  match find key (Attributes e) with
  | None =>
      let (attributes, i) := map_insert key (XmlAttribute.make ns name) (Attributes e) in
      (Build (Namespace e) (Name e) (Value e) (Elements e) attributes, ToEntry i)
  | Some i => (e, ToEntry i)
  end.

(** [Value(value)] on the element itself. *)
Definition set_Value (value : string) (e : XmlElement) : XmlElement :=
  Build (Namespace e) (Name e) value (Elements e) (Attributes e).

(** A member function called on the element or attribute a reference of
    [e] designates (the static null objects are not part of [e]). *)
Definition on_element (r : Reference) (f : XmlElement -> XmlElement) (e : XmlElement)
    : XmlElement :=
  match r with
  | ToNull => e
  | ToEntry i =>
      Build (Namespace e) (Name e) (Value e) (update i f (Elements e)) (Attributes e)
  end.

Definition on_attribute (r : Reference)
    (f : XmlAttribute.XmlAttribute -> XmlAttribute.XmlAttribute) (e : XmlElement)
    : XmlElement :=
  match r with
  | ToNull => e
  | ToEntry i =>
      Build (Namespace e) (Name e) (Value e) (Elements e) (update i f (Attributes e))
  end.

(** *** Serialization *)

Definition qualified (ns name : string) : string :=
  if negb (StdString.empty ns) then ns ++ ":" ++ name else name.

(** What one attribute adds to a start tag. *)
Definition attribute_text (a : XmlAttribute.XmlAttribute) : string :=
  " " ++ qualified (XmlAttribute._namespace a) (XmlAttribute._name a)
      ++ "='" ++ XmlAttribute._value a ++ "'".

Fixpoint attributes_string (l : list (string * XmlAttribute.XmlAttribute)) (buffer : string)
    : string :=
  match l with
  | [] => buffer
  | (_, a) :: l' => attributes_string l' (buffer ++ attribute_text a)
  end.

(** The static [ToStartElementString(element, buffer)] and so on: what the
    buffer holds afterwards. *)
Definition ToStartElementString_to (element : XmlElement) (buffer : string) : string :=
  attributes_string (Attributes element)
    (buffer ++ "<" ++ qualified (Namespace element) (Name element)) ++ ">".

Definition ToEndElementString_to (element : XmlElement) (buffer : string) : string :=
  buffer ++ "</" ++ qualified (Namespace element) (Name element) ++ ">".

Fixpoint ToString_to (element : XmlElement) (buffer : string) : string :=
  match element with
  | Build ns name value elements attributes =>
      let buffer := ToStartElementString_to element buffer in
      let buffer :=
        (fix children (l : list (string * XmlElement)) (buffer : string) : string :=
           match l with
           | [] => buffer
           | (_, child) :: l' => children l' (ToString_to child buffer)
           end) elements buffer in
      ToEndElementString_to element (buffer ++ Escape value)
  end.

(** The loop of [ToString] over the children. *)
Definition children_to (l : list (string * XmlElement)) (buffer : string) : string :=
  (fix children (l : list (string * XmlElement)) (buffer : string) : string :=
     match l with
     | [] => buffer
     | (_, child) :: l' => children l' (ToString_to child buffer)
     end) l buffer.

Definition ToStartElementString (e : XmlElement) : string := ToStartElementString_to e "".
Definition ToEndElementString (e : XmlElement) : string := ToEndElementString_to e "".
Definition ToString (e : XmlElement) : string := ToString_to e "".

(** *** Vocabulary for escaped texts *)

(** The entity [Escape] writes for a character; the character itself where
    it writes none. *)
Definition entity (c : ascii) : string :=
  if Ascii.eqb c "&" then "&amp;"
  else if Ascii.eqb c "'" then "&apos;"
  else if Ascii.eqb c DoubleQuote then "&quot;"
  else if Ascii.eqb c "<" then "&lt;"
  else if Ascii.eqb c ">" then "&gt;"
  else String c EmptyString.

(** A character as it stands in a text in which the characters listed in
    [escaped], and only they, are written as entities. *)
Definition token (escaped : string) (c : ascii) : string :=
  if mem c escaped then entity c else String c EmptyString.

End XmlElement.

(** * Xml.hpp: [Xml::UnitTest] and documents built like it *)

Module Xml.

Import XmlElement.
Local Open Scope string_scope.

(** [e.Attribute(name).Value(value)], [e.Element(name).Value(value)] and
    [e.Add(name).Value(value)]. *)
Definition Attribute_Value (name value : string) (e : XmlElement) : XmlElement :=
  let (e', r) := Attribute "" name e in on_attribute r (XmlAttribute.Value value) e'.

Definition Element_Value (name value : string) (e : XmlElement) : XmlElement :=
  let (e', r) := Element "" name e in on_element r (set_Value value) e'.

Definition Add_Value (name value : string) (e : XmlElement) : XmlElement :=
  let (e', r) := Add "" name e in on_element r (set_Value value) e'.

(** Elements built by naming attributes, or children, one after the
    other, and what they would serialize to if serialization followed the
    order of insertion. *)
Definition with_attributes (names : list string) (e : XmlElement) : XmlElement :=
  fold_left (fun e name => fst (Attribute "" name e)) names e.

Definition with_children (names : list string) (e : XmlElement) : XmlElement :=
  fold_left (fun e name => fst (Add "" name e)) names e.

Definition attributes_in_insertion_order : Prop :=
  forall names,
    NoDup (map (Key "") names) ->
    ToString (with_attributes names (make "" "root"))
      = "<root" ++ StdString.join (map (fun name => " " ++ name ++ "=''") names) ++ "></root>".

Definition children_in_insertion_order : Prop :=
  forall names,
    ToString (with_children names (make "" "root"))
      = "<root>" ++ StdString.join (map (fun name => "<" ++ name ++ "></" ++ name ++ ">") names)
                 ++ "</root>".

(** The document [UnitTest] builds. *)
Definition UnitTest_document : XmlElement :=
  let xml := make "" "root" in
  let xml := Attribute_Value "attr1" "12" xml in
  let xml := Element_Value "test" "abc" xml in
  let xml := Element_Value "test" "def" xml in
  let xml := Add_Value "test" "ghi" xml in
  xml.

End Xml.

(** * Xml.hpp: [Xml::ProgressiveParser] *)

Module ProgressiveParser.

Import StdString.
Local Open Scope N_scope.

Inductive State : Type :=
| State_OpenElement
| State_IgnoreDeclaration
| State_CloseElement
| State_OptionalSlashOrQuestionAfterOpenElement
| State_StartElement
| State_EndElement
| State_OptionalAttribute
| State_AttributeName
| State_OptionalSlashAfterAttributes
| State_ImmediateEndElement
| State_OptionalOpenElement
| State_ElementData
| State_AttributeAssignment
| State_AttributeValueDetermineQuotes
| State_StartAttributeValueSingleQuotes
| State_StartAttributeValueDoubleQuotes
| State_EndAttributeValueSingleQuotes
| State_EndAttributeValueDoubleQuotes
| State_OptionalWhitespaceBeforeAttribute.

Inductive Trigger : Type :=
| Trigger_Append
| Trigger_OpenElementReceived
| Trigger_DeclarationReceived
| Trigger_OptionalSlashPresent
| Trigger_OptionalQuestionPresent
| Trigger_OptionalSlashNotPresent
| Trigger_ElementNameReceived
| Trigger_OptionalAttributePresent
| Trigger_OptionalAttributeNotPresent
| Trigger_OptionalOpenElementPresent
| Trigger_OptionalOpenElementNotPresent
| Trigger_ElementDataReceived
| Trigger_CloseElementReceived
| Trigger_AttributeNameReceived
| Trigger_AttributeAssignmentReceived
| Trigger_SingleQuotesReceived
| Trigger_DoubleQuotesReceived
| Trigger_AttributeValueReceived
| Trigger_WhitespaceReceived
| Trigger_ImmediateEndElementReceived.

Definition State_ord (s : State) : N :=
  match s with
  | State_OpenElement => 0
  | State_IgnoreDeclaration => 1
  | State_CloseElement => 2
  | State_OptionalSlashOrQuestionAfterOpenElement => 3
  | State_StartElement => 4
  | State_EndElement => 5
  | State_OptionalAttribute => 6
  | State_AttributeName => 7
  | State_OptionalSlashAfterAttributes => 8
  | State_ImmediateEndElement => 9
  | State_OptionalOpenElement => 10
  | State_ElementData => 11
  | State_AttributeAssignment => 12
  | State_AttributeValueDetermineQuotes => 13
  | State_StartAttributeValueSingleQuotes => 14
  | State_StartAttributeValueDoubleQuotes => 15
  | State_EndAttributeValueSingleQuotes => 16
  | State_EndAttributeValueDoubleQuotes => 17
  | State_OptionalWhitespaceBeforeAttribute => 18
  end.

Definition Trigger_ord (t : Trigger) : N :=
  match t with
  | Trigger_Append => 0
  | Trigger_OpenElementReceived => 1
  | Trigger_DeclarationReceived => 2
  | Trigger_OptionalSlashPresent => 3
  | Trigger_OptionalQuestionPresent => 4
  | Trigger_OptionalSlashNotPresent => 5
  | Trigger_ElementNameReceived => 6
  | Trigger_OptionalAttributePresent => 7
  | Trigger_OptionalAttributeNotPresent => 8
  | Trigger_OptionalOpenElementPresent => 9
  | Trigger_OptionalOpenElementNotPresent => 10
  | Trigger_ElementDataReceived => 11
  | Trigger_CloseElementReceived => 12
  | Trigger_AttributeNameReceived => 13
  | Trigger_AttributeAssignmentReceived => 14
  | Trigger_SingleQuotesReceived => 15
  | Trigger_DoubleQuotesReceived => 16
  | Trigger_AttributeValueReceived => 17
  | Trigger_WhitespaceReceived => 18
  | Trigger_ImmediateEndElementReceived => 19
  end.

#[global] Instance State_Ordered : Ordered State.
Proof.
  refine {| ord := State_ord |}.
  intros [] []; simpl; intros H; try reflexivity; discriminate H.
Defined.

#[global] Instance Trigger_Ordered : Ordered Trigger.
Proof.
  refine {| ord := Trigger_ord |}.
  intros [] []; simpl; intros H; try reflexivity; discriminate H.
Defined.

(** Every state has its entry handler [State_X_Entered]; the handler is
    named by the state. *)
Definition Handler : Type := State.
Definition Guard : Type := Empty_set.

(** The events of the parser, in the order they were raised. *)
Inductive Event : Type :=
| StartElement (ns name : string)
| EndElement (ns name : string)
| AttributeName (ns name : string)
| AttributeValue (value : string)
| Data (data : string).

Record Fields : Type := {
  _buffer : string;
  _elementNamespaceAndName : list string;
  raised : list Event
}.

Definition Machine : Type := StateMachine.StateMachine State Trigger Handler Guard.
Definition Object : Type := StateMachine.Object State Trigger Handler Guard Fields.

Definition get_buffer : M Object string := fun o => Returns (_buffer (snd o)) o.

Definition set_buffer (b : string) : M Object unit :=
  modify (fun o : Object =>
    (fst o, {| _buffer := b; _elementNamespaceAndName := _elementNamespaceAndName (snd o);
               raised := raised (snd o) |})).

Definition get_elementNamespaceAndName : M Object (list string) :=
  fun o => Returns (_elementNamespaceAndName (snd o)) o.

Definition set_elementNamespaceAndName (l : list string) : M Object unit :=
  modify (fun o : Object =>
    (fst o, {| _buffer := _buffer (snd o); _elementNamespaceAndName := l;
               raised := raised (snd o) |})).

Definition raise (e : Event) : M Object unit :=
  modify (fun o : Object =>
    (fst o, {| _buffer := _buffer (snd o);
               _elementNamespaceAndName := _elementNamespaceAndName (snd o);
               raised := raised (snd o) ++ [e] |})).

Definition substr (s : string) (pos n : N) : M Object string :=
  match StdString.substr s pos n with
  | Some r => ret r
  | None => throw OutOfRangeException
  end.

(** [_buffer.at(0)]. *)
Definition at0 (s : string) : M Object ascii :=
  match StdString.at0 s with
  | Some c => ret c
  | None => throw OutOfRangeException
  end.

(** The event raised for a split name: one part is a bare name, two are a
    namespace and a name, anything else raises nothing. *)
Definition raise_named (event : string -> string -> Event) (namespaceAndName : list string)
    : M Object unit :=
  match namespaceAndName with
  | [name] => raise (event EmptyString name)
  | [ns; name] => raise (event ns name)
  | _ => ret tt
  end.

Definition whitespace : string :=
  String " " (String "009" (String "013" (String "010" EmptyString))).

Section Handlers.

Variable Fire : Trigger -> M Object unit.

(** The shape shared by the states that wait for one given character and
    drop it. *)
Definition expect (c : ascii) (trigger : Trigger) : M Object unit :=
  buffer <- get_buffer ;;
  if negb (empty buffer) then
    first <- at0 buffer ;;
    if Ascii.eqb first c then
      set_buffer (erase0 buffer 1) ;;
      Fire trigger
    else ret tt
  else ret tt.

Definition State_OpenElement_Entered : M Object unit :=
  expect "<" Trigger_OpenElementReceived.

Definition State_OptionalSlashOrQuestionAfterOpenElement_Entered : M Object unit :=
  buffer <- get_buffer ;;
  if negb (empty buffer) then
    first <- at0 buffer ;;
    if Ascii.eqb first "/" then Fire Trigger_OptionalSlashPresent
    else if Ascii.eqb first "?" then Fire Trigger_OptionalQuestionPresent
    else Fire Trigger_OptionalSlashNotPresent
  else ret tt.

Definition State_IgnoreDeclaration_Entered : M Object unit :=
  buffer <- get_buffer ;;
  let end_ := find buffer "?>" 0 in
  if negb (end_ =? npos) then
    set_buffer (erase0 buffer (size_add end_ 2)) ;;
    Fire Trigger_DeclarationReceived
  else ret tt.

Definition State_EndElement_Entered : M Object unit :=
  buffer <- get_buffer ;;
  let end_ := find_char buffer ">" 0 in
  if negb (end_ =? npos) then
    text <- substr buffer 1 (size_sub end_ 1) ;;
    let namespaceAndName := Split text ":" in
    set_buffer (erase0 buffer (size_add end_ 1)) ;;
    raise_named EndElement namespaceAndName ;;
    Fire Trigger_ElementNameReceived
  else ret tt.

Definition State_StartElement_Entered : M Object unit :=
  buffer <- get_buffer ;;
  let end_ := find_first_of buffer (String "/" (String ">" whitespace)) in
  if negb (end_ =? npos) then
    text <- substr buffer 0 end_ ;;
    set_elementNamespaceAndName (Split text ":") ;;
    set_buffer (erase0 buffer end_) ;;
    raise_named StartElement (Split text ":") ;;
    Fire Trigger_ElementNameReceived
  else ret tt.

Definition State_OptionalWhitespaceBeforeAttribute_Entered : M Object unit :=
  buffer <- get_buffer ;;
  let end_ := find_first_not_of buffer (String "?" whitespace) in
  if negb (end_ =? npos) then
    set_buffer (erase0 buffer end_) ;;
    Fire Trigger_WhitespaceReceived
  else ret tt.

Definition State_OptionalAttribute_Entered : M Object unit :=
  buffer <- get_buffer ;;
  if negb (empty buffer) then
    first <- at0 buffer ;;
    if Ascii.eqb first "/" || Ascii.eqb first ">"
    then Fire Trigger_OptionalAttributeNotPresent
    else Fire Trigger_OptionalAttributePresent
  else ret tt.

Definition State_AttributeName_Entered : M Object unit :=
  buffer <- get_buffer ;;
  let end_ := find_char buffer "=" 0 in
  if negb (end_ =? npos) then
    text <- substr buffer 0 end_ ;;
    let namespaceAndName := Split text ":" in
    set_buffer (erase0 buffer end_) ;;
    raise_named AttributeName namespaceAndName ;;
    Fire Trigger_AttributeNameReceived
  else ret tt.

Definition State_AttributeAssignment_Entered : M Object unit :=
  expect "=" Trigger_AttributeAssignmentReceived.

Definition State_AttributeValueDetermineQuotes_Entered : M Object unit :=
  buffer <- get_buffer ;;
  if negb (empty buffer) then
    first <- at0 buffer ;;
    if Ascii.eqb first DoubleQuote then
      set_buffer (erase0 buffer 1) ;;
      Fire Trigger_DoubleQuotesReceived
    else if Ascii.eqb first "'" then
      set_buffer (erase0 buffer 1) ;;
      Fire Trigger_SingleQuotesReceived
    else ret tt
  else ret tt.

(** The shape shared by the two states that read an attribute value up to
    its closing quote. *)
Definition value_until (quote : ascii) : M Object unit :=
  buffer <- get_buffer ;;
  let end_ := find_char buffer quote 0 in
  if negb (end_ =? npos) then
    value <- substr buffer 0 end_ ;;
    set_buffer (erase0 buffer end_) ;;
    raise (AttributeValue value) ;;
    Fire Trigger_AttributeValueReceived
  else ret tt.

Definition State_StartAttributeValueSingleQuotes_Entered : M Object unit :=
  value_until "'".

Definition State_StartAttributeValueDoubleQuotes_Entered : M Object unit :=
  value_until DoubleQuote.

Definition State_EndAttributeValueSingleQuotes_Entered : M Object unit :=
  expect "'" Trigger_SingleQuotesReceived.

Definition State_EndAttributeValueDoubleQuotes_Entered : M Object unit :=
  expect DoubleQuote Trigger_DoubleQuotesReceived.

Definition State_OptionalSlashAfterAttributes_Entered : M Object unit :=
  buffer <- get_buffer ;;
  if negb (empty buffer) then
    first <- at0 buffer ;;
    if Ascii.eqb first "/" then Fire Trigger_OptionalSlashPresent
    else Fire Trigger_OptionalSlashNotPresent
  else ret tt.

Definition State_ImmediateEndElement_Entered : M Object unit :=
  buffer <- get_buffer ;;
  if 2 <=? size buffer then
    if String.eqb (take 2 buffer) "/>" then
      set_buffer (erase0 buffer 2) ;;
      elementNamespaceAndName <- get_elementNamespaceAndName ;;
      raise_named EndElement elementNamespaceAndName ;;
      Fire Trigger_ImmediateEndElementReceived
    else ret tt
  else ret tt.

Definition State_CloseElement_Entered : M Object unit :=
  expect ">" Trigger_CloseElementReceived.

Definition State_OptionalOpenElement_Entered : M Object unit :=
  buffer <- get_buffer ;;
  if negb (empty buffer) then
    first <- at0 buffer ;;
    if Ascii.eqb first "<" then Fire Trigger_OptionalOpenElementPresent
    else Fire Trigger_OptionalOpenElementNotPresent
  else ret tt.

Definition State_ElementData_Entered : M Object unit :=
  buffer <- get_buffer ;;
  let end_ := find_char buffer "<" 0 in
  data <- substr buffer 0 end_ ;;
  set_buffer (erase0 buffer end_) ;;
  raise (Data (XmlElement.Unescape data)) ;;
  if negb (end_ =? npos) then Fire Trigger_ElementDataReceived
  else ret tt.

Definition invoke (h : Handler) : M Object unit :=
  match h with
  | State_OpenElement => State_OpenElement_Entered
  | State_IgnoreDeclaration => State_IgnoreDeclaration_Entered
  | State_CloseElement => State_CloseElement_Entered
  | State_OptionalSlashOrQuestionAfterOpenElement =>
      State_OptionalSlashOrQuestionAfterOpenElement_Entered
  | State_StartElement => State_StartElement_Entered
  | State_EndElement => State_EndElement_Entered
  | State_OptionalAttribute => State_OptionalAttribute_Entered
  | State_AttributeName => State_AttributeName_Entered
  | State_OptionalSlashAfterAttributes => State_OptionalSlashAfterAttributes_Entered
  | State_ImmediateEndElement => State_ImmediateEndElement_Entered
  | State_OptionalOpenElement => State_OptionalOpenElement_Entered
  | State_ElementData => State_ElementData_Entered
  | State_AttributeAssignment => State_AttributeAssignment_Entered
  | State_AttributeValueDetermineQuotes => State_AttributeValueDetermineQuotes_Entered
  | State_StartAttributeValueSingleQuotes =>
      State_StartAttributeValueSingleQuotes_Entered
  | State_StartAttributeValueDoubleQuotes =>
      State_StartAttributeValueDoubleQuotes_Entered
  | State_EndAttributeValueSingleQuotes => State_EndAttributeValueSingleQuotes_Entered
  | State_EndAttributeValueDoubleQuotes => State_EndAttributeValueDoubleQuotes_Entered
  | State_OptionalWhitespaceBeforeAttribute =>
      State_OptionalWhitespaceBeforeAttribute_Entered
  end.

End Handlers.

Definition holds (g : Guard) (_ : State) (_ : Fields) : bool := match g with end.

Fixpoint Fire (fuel : nat) (trigger : Trigger) : M Object unit :=
  match fuel with
  | O => fun _ => OutOfFuel
  | S fuel' => StateMachine.Fire (invoke (Fire fuel')) holds fuel trigger
  end.

Definition permit (trigger : Trigger) (destination : State)
    : StateMachine.StateConfiguration State Trigger Handler Guard
      -> StateMachine.StateConfiguration State Trigger Handler Guard :=
  StateMachine.Permit trigger destination (Bound (StateMachine.DefaultPredicate Guard)).

(** The transitions the constructor permits besides [Trigger_Append], state
    by state in the order of the source. Every state has its entry handler
    and permits [Trigger_Append] to itself. *)
Definition transitions : list (State * list (Trigger * State)) :=
  [ (State_OpenElement,
     [ (Trigger_OpenElementReceived, State_OptionalSlashOrQuestionAfterOpenElement) ]);
    (State_OptionalSlashOrQuestionAfterOpenElement,
     [ (Trigger_OptionalQuestionPresent, State_IgnoreDeclaration);
       (Trigger_OptionalSlashPresent, State_EndElement);
       (Trigger_OptionalSlashNotPresent, State_StartElement) ]);
    (State_IgnoreDeclaration,
     [ (Trigger_DeclarationReceived, State_OpenElement) ]);
    (State_EndElement,
     [ (Trigger_ElementNameReceived, State_OpenElement) ]);
    (State_StartElement,
     [ (Trigger_ElementNameReceived, State_OptionalWhitespaceBeforeAttribute) ]);
    (State_OptionalWhitespaceBeforeAttribute,
     [ (Trigger_WhitespaceReceived, State_OptionalAttribute) ]);
    (State_OptionalAttribute,
     [ (Trigger_OptionalAttributePresent, State_AttributeName);
       (Trigger_OptionalAttributeNotPresent, State_OptionalSlashAfterAttributes) ]);
    (State_AttributeName,
     [ (Trigger_AttributeNameReceived, State_AttributeAssignment) ]);
    (State_AttributeAssignment,
     [ (Trigger_AttributeAssignmentReceived, State_AttributeValueDetermineQuotes) ]);
    (State_AttributeValueDetermineQuotes,
     [ (Trigger_SingleQuotesReceived, State_StartAttributeValueSingleQuotes);
       (Trigger_DoubleQuotesReceived, State_StartAttributeValueDoubleQuotes) ]);
    (State_StartAttributeValueSingleQuotes,
     [ (Trigger_AttributeValueReceived, State_EndAttributeValueSingleQuotes) ]);
    (State_StartAttributeValueDoubleQuotes,
     [ (Trigger_AttributeValueReceived, State_EndAttributeValueDoubleQuotes) ]);
    (State_EndAttributeValueSingleQuotes,
     [ (Trigger_SingleQuotesReceived, State_OptionalWhitespaceBeforeAttribute) ]);
    (State_EndAttributeValueDoubleQuotes,
     [ (Trigger_DoubleQuotesReceived, State_OptionalWhitespaceBeforeAttribute) ]);
    (State_OptionalSlashAfterAttributes,
     [ (Trigger_OptionalSlashPresent, State_ImmediateEndElement);
       (Trigger_OptionalSlashNotPresent, State_CloseElement) ]);
    (State_ImmediateEndElement,
     [ (Trigger_ImmediateEndElementReceived, State_OpenElement) ]);
    (State_CloseElement,
     [ (Trigger_CloseElementReceived, State_OptionalOpenElement) ]);
    (State_OptionalOpenElement,
     [ (Trigger_OptionalOpenElementPresent, State_OpenElement);
       (Trigger_OptionalOpenElementNotPresent, State_ElementData) ]);
    (State_ElementData,
     [ (Trigger_ElementDataReceived, State_OpenElement) ]) ].

(** [Configure(state).OnEntry(..).Permit(Trigger_Append, state).Permit(..)...]. *)
Definition configure (st : State * list (Trigger * State)) (m : Machine) : Machine :=
  StateMachine.Configuring (fst st)
    (StateMachine.chained
       (StateMachine.OnEntry (fst st)
        :: permit Trigger_Append (fst st)
        :: map (fun td => permit (fst td) (snd td)) (snd st))) m.

Definition configured : Machine :=
  fold_left (fun m st => configure st m) transitions
    {| StateMachine._stateConfigurations := [];
       StateMachine._state := State_OpenElement |}.

(** The constructor. *)
Definition construct : Object :=
  (configured,
   {| _buffer := EmptyString; _elementNamespaceAndName := []; raised := [] |}).

(** [Append(value)]. *)
Definition Append (fuel : nat) (value : string) : M Object unit :=
  buffer <- get_buffer ;;
  set_buffer (buffer ++ value) ;;
  Fire fuel Trigger_Append.

(** Feeding the parser a sequence of chunks, one [Append] each. *)
Fixpoint feed (fuel : nat) (chunks : list string) : M Object unit :=
  match chunks with
  | [] => ret tt
  | chunk :: chunks' => Append fuel chunk ;; feed fuel chunks'
  end.

(** The machine with the configuration of the constructor, in state [s]. *)
Definition machine (s : State) : Machine :=
  {| StateMachine._stateConfigurations := StateMachine._stateConfigurations configured;
     StateMachine._state := s |}.

(** The document of the specification's example, the events it is said to
    raise, and where the parser is once it has been fed the document. *)
Definition document : string := "<a:b x='1'><c/>text</a:b>".

Definition documented_events : list Event :=
  [ StartElement "a" "b"; AttributeName "" "x"; AttributeValue "1";
    StartElement "" "c"; EndElement "" "c"; Data "text"; EndElement "a" "b" ].

Definition stalled : Object :=
  (machine State_OpenElement,
   {| _buffer := "text</a:b>";
      _elementNamespaceAndName := ["c"%string];
      raised := [ StartElement "a" "b"; AttributeName "" "x"; AttributeValue "1";
                  StartElement "" "c"; EndElement "" "c" ] |}).

(** The same document without the self-closed child. *)
Definition text_first : string := "<a:b x='1'>text</a:b>".

Definition text_first_parsed : Object :=
  (machine State_OpenElement,
   {| _buffer := EmptyString;
      _elementNamespaceAndName := ["a"%string; "b"%string];
      raised := [ StartElement "a" "b"; AttributeName "" "x"; AttributeValue "1";
                  Data "text"; EndElement "a" "b" ] |}).

(** The parser after the first [k] bytes of the document, fed in one
    piece. *)
Definition after (k : nat) : Object :=
  match Append 64 (take k document) construct with
  | Returns _ o => o
  | _ => construct
  end.

End ProgressiveParser.

(** * TimeSpan.hpp

    [_milliseconds] is an [int64_t]; [/] and [%] on it truncate toward zero
    ([Z.quot] and [Z.rem]); the conversions to [int16_t] and [int8_t] keep
    the value modulo [2^16] and [2^8]. The [From...] and [Total...]
    functions work in [double], an IEEE 754 binary64 number: a
    [spec_float] of 53 bits of precision, whose products and quotients are
    rounded to the nearest number, ties to even. *)

Module TimeSpan.

Local Open Scope Z_scope.

Record TimeSpan : Type := { _milliseconds : Z }.

(** The values an [int64_t] holds. *)
Definition int64 (z : Z) : Prop := - 2 ^ 63 <= z < 2 ^ 63.

(** [(intN_t) z]. *)
Definition to_signed (bits : Z) (z : Z) : Z :=
  (z + 2 ^ (bits - 1)) mod 2 ^ bits - 2 ^ (bits - 1).

Definition Milliseconds (t : TimeSpan) : Z :=
  to_signed 16 (Z.rem (_milliseconds t) 1000).

Definition Seconds (t : TimeSpan) : Z :=
  to_signed 8 (Z.rem (Z.quot (_milliseconds t) 1000) 60).

Definition Minutes (t : TimeSpan) : Z :=
  to_signed 8 (Z.rem (Z.quot (Z.quot (_milliseconds t) 1000) 60) 60).

Definition Hours (t : TimeSpan) : Z :=
  to_signed 8 (Z.rem (Z.quot (Z.quot (Z.quot (_milliseconds t) 1000) 60) 60) 24).

Definition Days (t : TimeSpan) : Z :=
  to_signed 8
    (Z.rem (Z.quot (Z.quot (Z.quot (Z.quot (_milliseconds t) 1000) 60) 60) 24) 7).

Definition Weeks (t : TimeSpan) : Z :=
  Z.quot (Z.quot (Z.quot (Z.quot (Z.quot (_milliseconds t) 1000) 60) 60) 24) 7.

(** [operator ==], [operator <] and [operator <=]. *)
Definition eqb (a b : TimeSpan) : bool := _milliseconds a =? _milliseconds b.
Definition ltb (a b : TimeSpan) : bool := _milliseconds a <? _milliseconds b.
Definition leb (a b : TimeSpan) : bool := _milliseconds a <=? _milliseconds b.

Definition Zero : TimeSpan := {| _milliseconds := 0 |}.
Definition Infinite : TimeSpan := {| _milliseconds := 9223372036854775807 |}.

(** *** The [double] side *)

Definition double : Type := spec_float.

(** [x * y] and [x / y]. *)
Definition mul (x y : double) : double := SFmul 53 1024 x y.
Definition div (x y : double) : double := SFdiv 53 1024 x y.

(** [x == y]. *)
Definition equal (x y : double) : bool := SFeqb x y.

(** [(double) z]: the integer, rounded to the nearest [double]. *)
Definition of_int (z : Z) : double := binary_normalize 53 1024 z 0 false.

(** [(int64_t) x]: the fraction is dropped. The conversion is undefined for
    what is not a number and for a whole part that no [int64_t] holds:
    [None]. *)
Definition to_int64 (x : double) : option Z :=
  match x with
  | S754_zero _ => Some 0
  | S754_finite s m e =>
      let magnitude := if 0 <=? e then Z.pos m * 2 ^ e else Z.pos m / 2 ^ (- e) in
      let z := if s then - magnitude else magnitude in
      if (- 2 ^ 63 <=? z) && (z <? 2 ^ 63) then Some z else None
  | S754_infinity _ => None
  | S754_nan => None
  end.

Definition FromMilliseconds (milliseconds : double) : option TimeSpan :=
  match to_int64 milliseconds with
  | Some z => Some {| _milliseconds := z |}
  | None => None
  end.

Definition FromSeconds (seconds : double) : option TimeSpan :=
  FromMilliseconds (mul seconds (of_int 1000)).

Definition FromMinutes (minutes : double) : option TimeSpan :=
  FromSeconds (mul minutes (of_int 60)).

Definition FromHours (hours : double) : option TimeSpan :=
  FromMinutes (mul hours (of_int 60)).

Definition FromDays (days : double) : option TimeSpan :=
  FromHours (mul days (of_int 24)).

Definition FromWeeks (weeks : double) : option TimeSpan :=
  FromDays (mul weeks (of_int 7)).

Definition TotalMilliseconds (t : TimeSpan) : double := of_int (_milliseconds t).
Definition TotalSeconds (t : TimeSpan) : double := div (TotalMilliseconds t) (of_int 1000).
Definition TotalMinutes (t : TimeSpan) : double := div (TotalSeconds t) (of_int 60).
Definition TotalHours (t : TimeSpan) : double := div (TotalMinutes t) (of_int 60).
Definition TotalDays (t : TimeSpan) : double := div (TotalHours t) (of_int 24).
Definition TotalWeeks (t : TimeSpan) : double := div (TotalDays t) (of_int 7).

(** The round trip of the specification for one unit and one value:
    [FromU(x).TotalU() == x]. *)
Definition round_trips (From : double -> option TimeSpan) (Total : TimeSpan -> double)
    (x : double) : Prop :=
  exists t, From x = Some t /\ equal (Total t) x = true.

(** The exact part of the claim in the words of the specification: for
    every unit the round trip holds of every value that is a whole number
    of milliseconds, that is of what [TotalU] gives for a time span. *)
Definition exact_round_trip : Prop :=
  forall t : TimeSpan, int64 (_milliseconds t) ->
    round_trips FromMilliseconds TotalMilliseconds (TotalMilliseconds t)
    /\ round_trips FromSeconds TotalSeconds (TotalSeconds t)
    /\ round_trips FromMinutes TotalMinutes (TotalMinutes t)
    /\ round_trips FromHours TotalHours (TotalHours t)
    /\ round_trips FromDays TotalDays (TotalDays t)
    /\ round_trips FromWeeks TotalWeeks (TotalWeeks t).

End TimeSpan.

(** * Event.hpp

    An event keeps its handlers in a [std::list]. Handlers are delegates;
    two bound delegates are equal when their targets are ([Equals]), and two
    empty ones are equal. *)

Module Event.

Section Event.

(** The targets of the handlers and their [Equals]. *)
Variable Target : Type.
Variable Equals : Target -> Target -> bool.

Definition EventHandler : Type := Delegate Target.

(** [Delegate::operator ==]. *)
Definition equal (a b : EventHandler) : bool :=
  match a, b with
  | Bound x, Bound y => Equals x y
  | Unbound, Unbound => true
  | _, _ => false
  end.

Definition Event : Type := list EventHandler.

Definition Empty : Event := [].

(** [std::list::unique]: of each run of consecutive handlers equal to the
    first of the run, the first is kept. *)
Fixpoint unique_after (first : EventHandler) (l : Event) : Event :=
  match l with
  | [] => []
  | next :: l' =>
      if equal first next then unique_after first l'
      else next :: unique_after next l'
  end.

Definition unique (l : Event) : Event :=
  match l with
  | [] => []
  | first :: l' => first :: unique_after first l'
  end.

(** [std::list::remove]. *)
Definition remove (that : EventHandler) (l : Event) : Event :=
  filter (fun h => negb (equal h that)) l.

(** [operator +=] and [operator -=]. *)
Definition add (that : EventHandler) (e : Event) : Event := unique (e ++ [that]).
Definition sub (that : EventHandler) (e : Event) : Event := remove that e.

(** [operator ()]: the handlers of a copy of the list are invoked in
    order; an empty handler does nothing. The object [S] the handlers act
    on may hold the event itself. *)
Variable S : Type.
Variable invoke : Target -> M S unit.

Definition call (h : EventHandler) : M S unit :=
  match h with
  | Unbound => ret tt
  | Bound target => invoke target
  end.

Fixpoint raise (handlers : Event) : M S unit :=
  match handlers with
  | [] => ret tt
  | h :: handlers' => call h ;; raise handlers'
  end.

End Event.

End Event.

(** * Theory

    From here on: what the definitions above satisfy. *)

(** ** Keys *)

Lemma key_eqb_eq {T} `{Ordered T} (a b : T) : key_eqb a b = true <-> a = b.
Proof.
  unfold key_eqb. rewrite N.eqb_eq. split.
  - apply ord_inj.
  - intros ->. reflexivity.
Qed.

Lemma key_eqb_refl {T} `{Ordered T} (a : T) : key_eqb a a = true.
Proof. apply key_eqb_eq. reflexivity. Qed.

Lemma key_eqb_neq {T} `{Ordered T} (a b : T) : key_eqb a b = false <-> a <> b.
Proof.
  rewrite <- key_eqb_eq. destruct (key_eqb a b); split; congruence.
Qed.

(** ** StateMachine.hpp *)

Module StateMachineTheory.
Import StateMachine.

Section Theory.

Context {StateType TriggerType : Type}.
Context {StateOrd : Ordered StateType} {TriggerOrd : Ordered TriggerType}.
Variables Handler Guard World : Type.
Variable invoke : Handler -> M (Object StateType TriggerType Handler Guard World) unit.
Variable holds : Guard -> StateType -> World -> bool.

Local Abbreviation Machine := (StateMachine StateType TriggerType Handler Guard).
Local Abbreviation Config := (StateConfiguration StateType TriggerType Handler Guard).

(** **** The configuration table *)

Lemma find_assign_same (s : StateType) (c : Config) l :
  find s (assign s c l) = Some c.
Proof.
  induction l as [|[k c'] l IH]; simpl.
  - now rewrite key_eqb_refl.
  - destruct (key_eqb s k) eqn:E; simpl.
    + now rewrite E.
    + destruct (key_ltb s k); simpl.
      * now rewrite key_eqb_refl.
      * now rewrite E.
Qed.

Lemma find_assign_other (s s' : StateType) (c : Config) l :
  s' <> s -> find s' (assign s c l) = find s' l.
Proof.
  intros Hne. induction l as [|[k c'] l IH]; simpl.
  - apply key_eqb_neq in Hne. now rewrite Hne.
  - destruct (key_eqb s k) eqn:E; simpl.
    + apply key_eqb_eq in E. subst k.
      apply key_eqb_neq in Hne. now rewrite Hne.
    + destruct (key_ltb s k); simpl.
      * apply key_eqb_neq in Hne. now rewrite Hne.
      * destruct (key_eqb s' k); [reflexivity | exact IH].
Qed.

Lemma extends_refl (m : Machine) : extends m m.
Proof. split; reflexivity. Qed.

Lemma extends_trans (m1 m2 m3 : Machine) :
  extends m1 m2 -> extends m2 m3 -> extends m1 m3.
Proof.
  intros [H1 H2] [H3 H4]. split.
  - congruence.
  - intros s. rewrite H4. apply H2.
Qed.

Lemma Configure_spec (s : StateType) (m : Machine) :
  snd (Configure s m) = configuration m s /\ extends m (fst (Configure s m)).
Proof.
  unfold Configure, configuration.
  destruct (find s (_stateConfigurations m)) eqn:E; simpl.
  - split; [reflexivity | apply extends_refl].
  - split; [reflexivity|]. split; [reflexivity|].
    intros s'. unfold configuration. simpl.
    destruct (key_eqb s' s) eqn:E'.
    + apply key_eqb_eq in E'. subst s'. now rewrite find_assign_same, E.
    + apply key_eqb_neq in E'. now rewrite find_assign_other.
Qed.

Lemma lookup_spec (s : StateType) (m : Machine) (w : World) :
  exists m', extends m m' /\
    lookup s (m, w) = Returns (configuration m s) (m', w).
Proof.
  unfold lookup. simpl.
  destruct (Configure_spec s m) as [H1 H2].
  destruct (Configure s m) as [m' c]. simpl in *. subst c.
  exists m'. split; [assumption | reflexivity].
Qed.

Lemma lookup_configured (s : StateType) (m : Machine) (w : World) c :
  find s (_stateConfigurations m) = Some c ->
  lookup s (m, w) = Returns c (m, w).
Proof.
  intros H. unfold lookup, Configure. simpl. now rewrite H.
Qed.

(** **** The loop over the transitions of the state itself *)

Section Resolve.

Variable m : Machine.
Variable w : World.
Variable trigger : TriggerType.

Lemma CanTransition_bound (m' : Machine) t :
  extends m m' -> is_bound t = true ->
  CanTransition holds t (m', w) = Returns (guard_holds holds m w t) (m', w).
Proof.
  intros [Hs _]. unfold is_bound, CanTransition, guard_holds, State. simpl.
  destruct (_predicate t) as [|[|g]]; try discriminate; intros _.
  - reflexivity.
  - now rewrite Hs.
Qed.

Lemma own_loop_spec (m' : Machine) range result :
  extends m m' ->
  Forall (fun t => is_bound t = true) range ->
  own_loop holds range result (m', w) =
    match result, filter (guard_holds holds m w) range with
    | _, [] => Returns result (m', w)
    | None, [t] => Returns (Some t) (m', w)
    | _, _ => Throws MultipleTriggerException (m', w)
    end.
Proof.
  intros Hext. revert result.
  induction range as [|i range IH]; intros result Hb; simpl.
  - destruct result; reflexivity.
  - inversion Hb as [|? ? Hi Hrest]; subst.
    unfold bind at 1. rewrite (CanTransition_bound i Hext Hi).
    destruct (guard_holds holds m w i).
    + destruct result as [r|].
      * reflexivity.
      * rewrite (IH _ Hrest).
        destruct (filter (guard_holds holds m w) range); reflexivity.
    + apply IH. assumption.
Qed.

(** **** The loop over the super-states *)

Local Abbreviation answers := (answers holds m w trigger).
Local Abbreviation refuses_as_ambiguous := (refuses_as_ambiguous holds m w trigger).

Lemma super_loop_step depth i l result (m' : Machine) r :
  extends m m' -> answers depth i r ->
  exists m1, extends m m1 /\
    super_loop (Transition holds depth trigger) (i :: l) result (m', w) =
      match r with
      | Some destination =>
          match result with
          | Some _ => Throws MultipleTriggerException (m1, w)
          | None => super_loop (Transition holds depth trigger) l (Some destination) (m1, w)
          end
      | None => super_loop (Transition holds depth trigger) l result (m1, w)
      end.
Proof.
  intros Hext Hi.
  destruct (lookup_spec i m' w) as [m1 [H1 E1]].
  assert (Hm1 : extends m m1) by (eapply extends_trans; eassumption).
  destruct (Hi m1 Hm1) as [m2 [H2 E2]].
  exists m2. split; [assumption|].
  simpl. unfold bind at 1. rewrite E1.
  destruct Hext as [_ Hc]. rewrite Hc.
  unfold bind at 1. rewrite E2.
  destruct r as [d|]; [destruct result|]; reflexivity.
Qed.

Lemma super_loop_none depth l result :
  Forall (fun p => answers depth p None) l ->
  forall m', extends m m' ->
    exists m'', extends m m'' /\
      super_loop (Transition holds depth trigger) l result (m', w)
        = Returns result (m'', w).
Proof.
  induction 1 as [|i l Hi Hl IH]; intros m' Hext.
  - exists m'. split; [assumption | reflexivity].
  - destruct (super_loop_step l result Hext Hi) as [m1 [H1 E1]].
    rewrite E1. apply IH. assumption.
Qed.

Lemma super_loop_one depth before p after destination :
  Forall (fun p => answers depth p None) before ->
  answers depth p (Some destination) ->
  Forall (fun p => answers depth p None) after ->
  forall m', extends m m' ->
    exists m'', extends m m'' /\
      super_loop (Transition holds depth trigger) (before ++ p :: after) None (m', w)
        = Returns (Some destination) (m'', w).
Proof.
  intros Hb Hp Ha. induction Hb as [|i l Hi Hl IH]; intros m' Hext; simpl app.
  - destruct (super_loop_step after None Hext Hp) as [m1 [H1 E1]].
    rewrite E1. apply super_loop_none; assumption.
  - destruct (super_loop_step (l ++ p :: after) None Hext Hi) as [m1 [H1 E1]].
    rewrite E1. apply IH. assumption.
Qed.

Lemma super_loop_second depth before p rest found destination :
  Forall (fun p => exists r, answers depth p r) before ->
  answers depth p (Some destination) ->
  refuses_as_ambiguous depth (before ++ p :: rest) (Some found).
Proof.
  intros Hb Hp. induction Hb as [|i l [r Hi] Hl IH]; intros m' Hext; simpl app.
  - destruct (super_loop_step rest (Some found) Hext Hp) as [m1 [H1 E1]].
    rewrite E1. exists m1. split; [assumption | reflexivity].
  - destruct (super_loop_step (l ++ p :: rest) (Some found) Hext Hi) as [m1 [H1 E1]].
    rewrite E1. destruct r as [d|].
    + exists m1. split; [assumption | reflexivity].
    + apply IH. assumption.
Qed.

Lemma super_loop_two depth before p between q rest d1 d2 :
  Forall (fun p => exists r, answers depth p r) before ->
  answers depth p (Some d1) ->
  Forall (fun p => exists r, answers depth p r) between ->
  answers depth q (Some d2) ->
  refuses_as_ambiguous depth (before ++ p :: between ++ q :: rest) None.
Proof.
  intros Hb Hp Hm Hq. induction Hb as [|i l [r Hi] Hl IH]; intros m' Hext; simpl app.
  - destruct (super_loop_step (between ++ q :: rest) None Hext Hp) as [m1 [H1 E1]].
    rewrite E1. eapply super_loop_second; eassumption.
  - destruct (super_loop_step (l ++ p :: between ++ q :: rest) None Hext Hi)
      as [m1 [H1 E1]].
    rewrite E1. destruct r as [d|].
    + apply (@super_loop_second depth l p (between ++ q :: rest) d d1); assumption.
    + apply IH. assumption.
Qed.

(** **** [Transition] against the documented resolution *)

Lemma uniform_depth (P : StateType -> nat -> Prop) (l : list StateType) :
  (forall p, In p l -> exists n, forall depth, n <= depth -> P p depth) ->
  exists n, forall depth, n <= depth -> Forall (fun p => P p depth) l.
Proof.
  induction l as [|p l IH]; intros H.
  - exists 0. intros. constructor.
  - destruct (H p (or_introl eq_refl)) as [n1 H1].
    destruct IH as [n2 H2]. { intros q Hq. apply H. now right. }
    exists (Nat.max n1 n2). intros depth Hd. constructor.
    + apply H1. lia.
    + apply H2. lia.
Qed.

Lemma Transition_own depth s t :
  guards_bound m trigger s -> satisfied holds m w trigger s = [t] ->
  answers (S depth) s (Some (_destination t)).
Proof.
  intros Hb Hs m' Hext. exists m'. split; [assumption|].
  simpl. unfold bind at 1.
  rewrite (own_loop_spec None Hext Hb).
  unfold satisfied in Hs. rewrite Hs. reflexivity.
Qed.

Lemma Transition_super depth s (m' : Machine) :
  extends m m' ->
  guards_bound m trigger s -> satisfied holds m w trigger s = [] ->
  Transition holds (S depth) trigger (configuration m s) (m', w) =
    super_loop (Transition holds depth trigger)
      (_superStates (configuration m s)) None (m', w).
Proof.
  intros Hext Hb Hs. simpl. unfold bind at 1.
  rewrite (own_loop_spec None Hext Hb).
  unfold satisfied in Hs. rewrite Hs. reflexivity.
Qed.

Lemma Transition_none s :
  ProvidesNone holds m w trigger s ->
  exists n, forall depth, n <= depth -> answers depth s None.
Proof.
  induction 1 as [s Hb Hs Hsup IH].
  destruct (uniform_depth _ _ IH) as [n Hn].
  exists (S n). intros depth Hd m' Hext.
  destruct depth as [|depth]; [lia|].
  rewrite (Transition_super depth Hext Hb Hs).
  apply super_loop_none; [|assumption].
  apply Hn. lia.
Qed.

Lemma Forall_none l :
  Forall (ProvidesNone holds m w trigger) l ->
  exists n, forall depth, n <= depth -> Forall (fun p => answers depth p None) l.
Proof.
  intros H. apply uniform_depth. intros p Hp.
  apply Transition_none. rewrite Forall_forall in H. now apply H.
Qed.

Lemma Transition_provides s destination :
  Provides holds m w trigger s destination ->
  exists n, forall depth, n <= depth -> answers depth s (Some destination).
Proof.
  induction 1 as [s t Hb Hs | s before p after d Hb Hs Hsup Hp [n IH] Hbefore Hafter].
  - exists 1. intros depth Hd. destruct depth as [|depth]; [lia|].
    now apply Transition_own.
  - destruct (Forall_none Hbefore) as [n1 H1].
    destruct (Forall_none Hafter) as [n2 H2].
    exists (S (Nat.max n (Nat.max n1 n2))). intros depth Hd m' Hext.
    destruct depth as [|depth]; [lia|].
    rewrite (Transition_super depth Hext Hb Hs), Hsup.
    apply super_loop_one; try assumption.
    + apply H1. lia.
    + apply IH. lia.
    + apply H2. lia.
Qed.

Lemma Transition_resolves s :
  Resolves holds m w trigger s ->
  exists n, forall depth, n <= depth -> exists r, answers depth s r.
Proof.
  intros [H | [d H]].
  - destruct (Transition_none H) as [n Hn]. exists n. intros depth Hd.
    exists None. now apply Hn.
  - destruct (Transition_provides H) as [n Hn]. exists n. intros depth Hd.
    exists (Some d). now apply Hn.
Qed.

Lemma Forall_resolves l :
  Forall (Resolves holds m w trigger) l ->
  exists n, forall depth, n <= depth ->
    Forall (fun p => exists r, answers depth p r) l.
Proof.
  intros H.
  apply (uniform_depth (fun p depth => exists r, answers depth p r)).
  intros p Hp. apply Transition_resolves. rewrite Forall_forall in H. now apply H.
Qed.

(** **** [CanFire] and [Fire] *)

Lemma Provides_configured s destination :
  Provides holds m w trigger s destination ->
  exists c, find s (_stateConfigurations m) = Some c.
Proof.
  destruct 1 as [s t Hb Hs | s before p after d Hb Hs Hsup _ _ _];
    unfold satisfied, configuration in *;
    destruct (find s (_stateConfigurations m)) as [c|] eqn:E;
    try (now exists c); simpl in *.
  - discriminate.
  - destruct before; discriminate.
Qed.

Lemma find_configuration s c :
  find s (_stateConfigurations m) = Some c -> configuration m s = c.
Proof. unfold configuration. now intros ->. Qed.

Lemma CanFire_answers depth r :
  answers depth (_state m) r ->
  (r = None \/ exists c, find (_state m) (_stateConfigurations m) = Some c) ->
  (exists m', extends m m' /\
    CanFire holds depth trigger (m, w) = Returns (_state m, r) (m', w)).
Proof.
  intros Ha Hc. unfold CanFire, State. simpl.
  destruct (find (_state m) (_stateConfigurations m)) as [c|] eqn:E.
  - destruct (Ha m (extends_refl m)) as [m' [H1 E1]].
    exists m'. split; [assumption|].
    unfold bind. rewrite <- (find_configuration _ E), E1. reflexivity.
  - destruct Hc as [-> | [c Hc]]; [|discriminate].
    exists m. split; [apply extends_refl | reflexivity].
Qed.

Lemma Fire_of_CanFire depth (m' : Machine) r :
  extends m m' ->
  CanFire holds depth trigger (m, w) = Returns (_state m, r) (m', w) ->
  exists m'', extends m m'' /\
    Fire invoke holds depth trigger (m, w) = fired invoke (_state m) m r (m'', w).
Proof.
  intros Hext E. unfold Fire. unfold bind at 1. rewrite E.
  destruct r as [d|].
  - destruct (lookup_spec (_state m) m' w) as [m'' [H1 E1]].
    exists m''. split; [eapply extends_trans; eassumption|].
    unfold bind at 1. rewrite E1.
    destruct Hext as [_ Hc]. rewrite Hc. reflexivity.
  - exists m'. split; [assumption | reflexivity].
Qed.

Lemma Fire_answers depth r :
  answers depth (_state m) r ->
  (r = None \/ exists c, find (_state m) (_stateConfigurations m) = Some c) ->
  exists m', extends m m' /\
    Fire invoke holds depth trigger (m, w) = fired invoke (_state m) m r (m', w).
Proof.
  intros Ha Hc. destruct (CanFire_answers Ha Hc) as [m' [H1 E1]].
  eapply Fire_of_CanFire; eassumption.
Qed.

Lemma Ambiguous_configured s :
  Ambiguous holds m w trigger s ->
  exists c, find s (_stateConfigurations m) = Some c.
Proof.
  destruct 1 as [Hb Hs | before p between q rest d1 d2 Hb Hs Hsup _ _ _ _];
    unfold satisfied, configuration in *;
    destruct (find s (_stateConfigurations m)) as [c|] eqn:E;
    try (now exists c); simpl in *.
  - lia.
  - destruct before; discriminate.
Qed.

Lemma Transition_ambiguous s :
  Ambiguous holds m w trigger s ->
  exists n, forall depth, n <= depth ->
    forall m', extends m m' ->
      exists m'', extends m m'' /\
        Transition holds depth trigger (configuration m s) (m', w)
          = Throws MultipleTriggerException (m'', w).
Proof.
  destruct 1 as [Hb Hs | before p between q rest d1 d2 Hb Hs Hsup Hbefore Hp Hbetween Hq].
  - exists 1. intros depth Hd m' Hext. destruct depth as [|depth]; [lia|].
    exists m'. split; [assumption|].
    simpl. unfold bind at 1. rewrite (own_loop_spec None Hext Hb).
    unfold satisfied in Hs.
    destruct (filter (guard_holds holds m w) (equal_range trigger (configuration m s)))
      as [|t1 [|t2 l]]; simpl in Hs; try lia. reflexivity.
  - destruct (Forall_resolves Hbefore) as [n1 H1].
    destruct (Forall_resolves Hbetween) as [n2 H2].
    destruct (Transition_provides Hp) as [n3 H3].
    destruct (Transition_provides Hq) as [n4 H4].
    exists (S (Nat.max (Nat.max n1 n2) (Nat.max n3 n4))).
    intros depth Hd m' Hext. destruct depth as [|depth]; [lia|].
    rewrite (Transition_super depth Hext Hb Hs), Hsup.
    apply (@super_loop_two depth before p between q rest d1 d2); try assumption.
    + apply H1. lia.
    + apply H3. lia.
    + apply H2. lia.
    + apply H4. lia.
Qed.

End Resolve.

Lemma Fire_selects (m : Machine) (w : World) (trigger : TriggerType)
    (r : option StateType) :
  Selects holds m w trigger (_state m) r ->
  exists n, forall depth, n <= depth ->
    exists m', extends m m' /\
      Fire invoke holds depth trigger (m, w) = fired invoke (_state m) m r (m', w).
Proof.
  destruct r as [d|]; intros H; simpl in H.
  - destruct (Transition_provides H) as [n Hn].
    exists n. intros depth Hd. apply Fire_answers.
    + now apply Hn.
    + right. eapply Provides_configured. eassumption.
  - destruct (Transition_none H) as [n Hn].
    exists n. intros depth Hd. apply Fire_answers.
    + now apply Hn.
    + now left.
Qed.

(** **** What a transition that is taken does *)

Lemma invoked_call (d : Delegate Handler)
    (o : Object StateType TriggerType Handler Guard World) :
  invoked invoke d o (call invoke d o).
Proof.
  destruct d as [|h]; simpl.
  - apply invoked_empty. reflexivity.
  - eapply invoked_bound. reflexivity.
Qed.

(** The sequence of [Fire] after the selection, run on [m'], is a
    transition taken as documented. *)
Lemma fired_taken (m m' : Machine) (w : World) (destination : StateType) :
  extends m m' ->
  taken invoke m' w destination
    (fired invoke (_state m) m (Some destination) (m', w)).
Proof.
  intros [Hs Hc]. unfold fired, OnStateExited.
  assert (Hx : configuration m (_state m) = configuration m' (_state m'))
    by (now rewrite Hs, Hc).
  rewrite Hx.
  pose proof (invoked_call (_stateExited (configuration m' (_state m'))) (m', w)) as Hleft.
  unfold bind at 1.
  destruct (call invoke (_stateExited (configuration m' (_state m'))) (m', w))
    as [[] [m1 w1] | e o1 |] eqn:E.
  - unfold bind at 1. unfold modify, DefaultStateMutator. simpl fst. simpl snd.
    set (m1' := {| _stateConfigurations := _stateConfigurations m1;
                   _state := destination |}).
    destruct (lookup_spec destination m1' w1) as [m2 [[H1 H2] E2]].
    unfold bind at 1. rewrite E2.
    apply taken_entered with m1 w1 m2.
    + exact Hleft.
    + exact H1.
    + intros s. rewrite H2. reflexivity.
    + change (configuration m1' destination) with (configuration m1 destination).
      unfold OnStateEntered. apply invoked_call.
  - apply taken_not_left; [exact Hleft | discriminate].
  - apply taken_not_left; [exact Hleft | discriminate].
Qed.

(** C1: when exactly one transition with a true guard is found for the
    trigger (on the current state, or, none of its own guards holding, on
    exactly one super-state), [Fire] calls the exit handler of the current
    state on the object in its source state, then sets the current state
    to the destination, then calls the entry handler of the destination on
    the object in the destination state, and gives what that call gives;
    when no transition on the state or on its super-states has a true
    guard (an unconfigured state included), [Fire] throws
    [UndefinedTriggerException] and the current state is unchanged. The
    super-states are those a finite derivation reaches: where sub-states
    are configured in a circle, no derivation of [Selects] exists. *)
Theorem Fire_selected (m : Machine) (w : World) (trigger : TriggerType)
    (r : option StateType) :
  Selects holds m w trigger (_state m) r ->
  exists n, forall depth, n <= depth ->
    exists m', extends m m' /\
      match r with
      | Some destination =>
          taken invoke m' w destination (Fire invoke holds depth trigger (m, w))
      | None =>
          Fire invoke holds depth trigger (m, w)
            = Throws UndefinedTriggerException (m', w)
      end.
Proof.
  intros H. destruct (@Fire_selects m w trigger _ H) as [n Hn].
  exists n. intros depth Hd. destruct (Hn depth Hd) as [m' [Hext E]].
  exists m'. split; [exact Hext|]. rewrite E.
  destruct r as [destination|]; [now apply fired_taken | reflexivity].
Qed.



End Theory.
End StateMachineTheory.

(** ** [std::string] *)

Module StdStringTheory.
Import StdString.

Lemma take_drop n s : (take n s ++ drop n s)%string = s.
Proof.
  revert s. induction n as [|n IH]; intros [|c s]; simpl; try reflexivity.
  now rewrite IH.
Qed.

Lemma take_all s : take (String.length s) s = s.
Proof. induction s as [|c s IH]; simpl; [reflexivity | now rewrite IH]. Qed.

Lemma drop_all s : drop (String.length s) s = EmptyString.
Proof. induction s as [|c s IH]; simpl; [reflexivity | exact IH]. Qed.

Lemma length_drop n s : String.length (drop n s) = String.length s - n.
Proof.
  revert s. induction n as [|n IH]; intros [|c s]; simpl; try reflexivity.
  apply IH.
Qed.

Lemma empty_true s : empty s = true <-> s = EmptyString.
Proof. destruct s; simpl; split; congruence. Qed.

Lemma empty_length s : empty s = true <-> String.length s = 0.
Proof. destruct s; simpl; split; congruence. Qed.

Lemma app_assoc (a b c : string) : ((a ++ b) ++ c = a ++ (b ++ c))%string.
Proof. induction a as [|x a IH]; simpl; [reflexivity | now rewrite IH]. Qed.

Lemma app_empty_r (a : string) : (a ++ "")%string = a.
Proof. induction a as [|x a IH]; simpl; [reflexivity | now rewrite IH]. Qed.

Lemma erase0_small s n :
  (n <= size s)%N -> erase0 s n = drop (N.to_nat n) s.
Proof. intros H. unfold erase0. now rewrite N.min_l. Qed.

Lemma length_app (a b : string) :
  String.length (a ++ b) = String.length a + String.length b.
Proof. induction a as [|x a IH]; simpl; [reflexivity | now rewrite IH]. Qed.

Lemma size_app_l (a b : string) : (size a <= size (a ++ b))%N.
Proof. unfold size. rewrite length_app. lia. Qed.

Lemma drop_app (a b : string) : drop (String.length a) (a ++ b) = b.
Proof. induction a; simpl; auto. Qed.

Lemma take_app (a b : string) : take (String.length a) (a ++ b) = a.
Proof. induction a; simpl; congruence. Qed.

Lemma erase0_app (a b : string) n : n = size a -> erase0 (a ++ b) n = b.
Proof.
  intros ->. rewrite erase0_small by apply size_app_l.
  unfold size. rewrite Nat2N.id. apply drop_app.
Qed.

Lemma substr0_app (a b : string) n :
  n = size a -> StdString.substr (a ++ b) 0 n = Some a.
Proof.
  intros ->. unfold StdString.substr.
  destruct (size (a ++ b) <? 0)%N eqn:E; [apply N.ltb_lt in E; lia|].
  rewrite N.sub_0_r, N.min_l by apply size_app_l.
  unfold size. rewrite Nat2N.id. simpl drop. now rewrite take_app.
Qed.

Lemma erase0_cons (c : ascii) (s : string) (n : N) :
  (0 < n)%N -> erase0 (String c s) n = erase0 s (n - 1).
Proof.
  intros Hn. unfold erase0, size. simpl String.length.
  replace (N.min n (N.of_nat (S (String.length s))))
    with (N.succ (N.min (n - 1) (N.of_nat (String.length s)))) by lia.
  rewrite N2Nat.inj_succ. reflexivity.
Qed.

Lemma drop_drop (n i : nat) (s : string) : drop n (drop i s) = drop (i + n) s.
Proof.
  revert s. induction i as [|i IH]; intros s; simpl; [reflexivity|].
  destruct s as [|c s]; [destruct n; reflexivity | apply IH].
Qed.

Lemma app_inv (c r s : string) :
  (c ++ r)%string = s -> c = take (String.length c) s /\ r = drop (String.length c) s.
Proof. intros <-. now rewrite take_app, drop_app. Qed.

End StdStringTheory.

(** ** TcpClient.hpp *)

Module TcpClientTheory.
Import StdString StdStringTheory TcpClient.

Lemma Fire_Send_Connected fuel d :
  Fire (S fuel) Trigger_Send (machine State_Connected, d)
    = Sending_OnEntry (Fire fuel) (machine State_Sending, d).
Proof. reflexivity. Qed.

Lemma Fire_Send_Sending fuel d :
  Fire (S (S fuel)) Trigger_Send (machine State_Sending, d)
    = Sending_OnEntry (Fire (S fuel)) (machine State_Sending, d).
Proof. reflexivity. Qed.

(** One round of [Sending_OnEntry] on a connection in good health. *)
Lemma Sending_OnEntry_round (fire : Trigger -> M Object unit) d :
  Socket.accepting (Socket.os (socket d)) ->
  _sendBuffer d <> EmptyString ->
  exists c, 1 <= c <= String.length (_sendBuffer d) /\
    Sending_OnEntry fire (machine State_Sending, d) =
      let d' :=
        {| _bufferSize := _bufferSize d;
           _sendBuffer := drop c (_sendBuffer d);
           socket := {| Socket.os := Socket.os (socket d);
                        Socket.calls := S (Socket.calls (socket d));
                        Socket.wire := (Socket.wire (socket d) ++ take c (_sendBuffer d))%string |};
           raised := raised d; scheduled := scheduled d |} in
      if negb (empty (drop c (_sendBuffer d)))
      then fire Trigger_Send (machine State_Sending, d')
      else Returns tt (machine State_Sending, d').
Proof.
  intros Hos Hne.
  destruct (Hos (Socket.calls (socket d))) as [window [Hw Hpos]].
  set (b := _sendBuffer d) in *.
  set (count := N.min window (size b)).
  assert (Hsize : (0 < size b)%N).
  { unfold size. destruct b; [congruence | simpl; lia]. }
  assert (Hc : (1 <= count <= size b)%N) by (unfold count; lia).
  exists (N.to_nat count). split.
  - unfold size in Hc. lia.
  - unfold Sending_OnEntry, get_sendBuffer, set_sendBuffer, base, bind, modify,
      Socket.Send, with_socket, with_sendBuffer. simpl.
    fold b. rewrite Hw. fold count. simpl.
    rewrite (erase0_small b (proj2 Hc)).
    destruct (empty (drop (N.to_nat count) b)); reflexivity.
Qed.

(** [Fire(Trigger_Send)] drains the send queue onto the wire. *)
Lemma Fire_Send_drains k :
  forall d fuel s,
    Socket.accepting (Socket.os (socket d)) ->
    _sendBuffer d <> EmptyString ->
    String.length (_sendBuffer d) <= k ->
    k < fuel ->
    s = State_Connected \/ s = State_Sending ->
    exists sends,
      Fire fuel Trigger_Send (machine s, d)
        = Returns tt (machine State_Sending, sent (_sendBuffer d) sends d).
Proof.
  induction k as [|k IH]; intros d fuel s Hos Hne Hlen Hfuel Hs.
  - destruct (_sendBuffer d); [congruence | simpl in Hlen; lia].
  - assert (Hstep : exists f, fuel = S f /\ k < f /\
              Fire fuel Trigger_Send (machine s, d)
                = Sending_OnEntry (Fire f) (machine State_Sending, d)).
    { destruct fuel as [|[|f]]; try lia.
      exists (S f). split; [reflexivity|]. split; [lia|].
      destruct Hs as [-> | ->]; reflexivity. }
    destruct Hstep as [f [-> [Hf ->]]].
    destruct (Sending_OnEntry_round (Fire f) d Hos Hne) as [c [Hc ->]].
    cbv zeta.
    destruct (empty (drop c (_sendBuffer d))) eqn:E; simpl negb; cbv iota.
    + exists 1. unfold sent.
      assert (Hall : c = String.length (_sendBuffer d)).
      { apply empty_length in E. rewrite length_drop in E. lia. }
      rewrite Hall, drop_all, take_all, Nat.add_1_r. reflexivity.
    + match goal with |- context [Fire f Trigger_Send (_, ?d0)] => set (d' := d0) end.
      assert (Hne' : _sendBuffer d' <> EmptyString).
      { simpl. intros H. apply empty_true in H. congruence. }
      assert (Hlen' : String.length (_sendBuffer d') <= k).
      { simpl. rewrite length_drop. lia. }
      destruct (IH d' f State_Sending Hos Hne' Hlen' Hf) as [sends Hsends].
      * now right.
      * exists (S sends). rewrite Hsends. unfold sent, d'. simpl.
        rewrite app_assoc, take_drop, Nat.add_succ_r. reflexivity.
Qed.

(** [Send(value)] on a connected client whose send queue is empty puts
    exactly the bytes of [value] on the wire. *)
Lemma Send_drains (value : string) (d : Fields) (fuel : nat) (s : State) :
  Socket.accepting (Socket.os (socket d)) ->
  _sendBuffer d = EmptyString ->
  value <> EmptyString ->
  String.length value < fuel ->
  s = State_Connected \/ s = State_Sending ->
  exists sends,
    Send fuel value (machine s, d) = Returns tt (machine State_Sending, sent value sends d).
Proof.
  intros Hos Hempty Hne Hfuel Hs.
  unfold Send, get_sendBuffer, set_sendBuffer, bind, modify. simpl.
  rewrite Hempty. simpl.
  destruct (@Fire_Send_drains (String.length value) (with_sendBuffer value d) fuel s)
    as [sends Hsends]; try assumption.
  - apply le_n.
  - exists sends. exact Hsends.
Qed.

(** C10: destroying a client that is connected or connecting fires
    [Trigger_Disconnected], which raises [ClientDisconnected] once; nothing
    is raised when the client is idle or already disconnected. *)
Theorem destroy_raises_ClientDisconnected (fuel : nat) (d : Fields) :
  destroy (S fuel) (machine State_Connected, d)
    = Returns tt (machine State_Disconnected, raising ClientDisconnected d)
  /\ destroy (S fuel) (machine State_Connecting, d)
    = Returns tt (machine State_Disconnected, raising ClientDisconnected d)
  /\ destroy fuel (machine State_Idle, d) = Returns tt (machine State_Idle, d)
  /\ destroy fuel (machine State_Disconnected, d)
    = Returns tt (machine State_Disconnected, d).
Proof. repeat split; reflexivity. Qed.

End TcpClientTheory.

(** ** The state machine of [TcpClient] as an instance *)

Module StateMachineExamples.
Import StateMachine StateMachineTheory.

Lemma Fire_selected_witness :
  let m := TcpClient.machine TcpClient.State_Sending in
  let w := Examples.fields in
  let invoke := TcpClient.invoke (TcpClient.Fire 3) in
  Selects TcpClient.holds m w TcpClient.Trigger_Disconnected (_state m)
    (Some TcpClient.State_Disconnected)
  /\ exists n, forall depth, n <= depth ->
       exists m', extends m m' /\
         taken invoke m' w TcpClient.State_Disconnected
           (Fire invoke TcpClient.holds depth TcpClient.Trigger_Disconnected (m, w)).
Proof.
  intros m w invoke.
  assert (H : Selects TcpClient.holds m w TcpClient.Trigger_Disconnected (_state m)
                (Some TcpClient.State_Disconnected)).
  { simpl.
    apply (@Provides_super _ _ _ _ _ _ _ TcpClient.holds m w TcpClient.Trigger_Disconnected
             TcpClient.State_Sending [] TcpClient.State_Connected [] TcpClient.State_Disconnected).
    - constructor.
    - reflexivity.
    - reflexivity.
    - apply (@Provides_own _ _ _ _ _ _ _ TcpClient.holds m w TcpClient.Trigger_Disconnected
               TcpClient.State_Connected
               {| _destination := TcpClient.State_Disconnected;
                  _predicate := Bound (DefaultPredicate TcpClient.Guard) |}).
      + repeat constructor.
      + reflexivity.
    - constructor.
    - constructor. }
  split; [exact H|].
  exact (@Fire_selected _ _ _ _ _ _ _ invoke TcpClient.holds m w
           TcpClient.Trigger_Disconnected (Some TcpClient.State_Disconnected) H).
Defined.

(** In the machine with two states that are sub-states of each other,
    [Transition] on either configuration is still running at every depth. *)
Lemma Transition_cyclic (trigger : TcpClient.Trigger) (w : TcpClient.Fields)
    (depth : nat) :
  Transition TcpClient.holds depth trigger
      (configuration Examples.cyclic TcpClient.State_Idle) (Examples.cyclic, w)
    = OutOfFuel
  /\ Transition TcpClient.holds depth trigger
      (configuration Examples.cyclic TcpClient.State_Connecting) (Examples.cyclic, w)
    = OutOfFuel.
Proof.
  induction depth as [|depth [IH1 IH2]]; [split; reflexivity|].
  split.
  - change (Transition TcpClient.holds (S depth) trigger
              (configuration Examples.cyclic TcpClient.State_Idle) (Examples.cyclic, w))
      with (bind (Transition TcpClient.holds depth trigger
                    (configuration Examples.cyclic TcpClient.State_Connecting))
              (fun r => match r with
                        | Some destination =>
                            super_loop (Transition TcpClient.holds depth trigger) []
                              (Some destination)
                        | None =>
                            super_loop (Transition TcpClient.holds depth trigger) [] None
                        end) (Examples.cyclic, w)).
    unfold bind. now rewrite IH2.
  - change (Transition TcpClient.holds (S depth) trigger
              (configuration Examples.cyclic TcpClient.State_Connecting) (Examples.cyclic, w))
      with (bind (Transition TcpClient.holds depth trigger
                    (configuration Examples.cyclic TcpClient.State_Idle))
              (fun r => match r with
                        | Some destination =>
                            super_loop (Transition TcpClient.holds depth trigger) []
                              (Some destination)
                        | None =>
                            super_loop (Transition TcpClient.holds depth trigger) [] None
                        end) (Examples.cyclic, w)).
    unfold bind. now rewrite IH1.
Qed.

(** The claim as the specification states it fails where sub-states are
    configured in a circle: no transition has a true guard, and [Fire]
    does not throw, it asks the super-states without end. *)
Lemma cyclic_superstates_are_asked_without_end :
  ~ refused_when_unanswered (TcpClient.invoke (TcpClient.Fire 3)) TcpClient.holds.
Proof.
  intros H.
  destruct (H Examples.cyclic Examples.fields TcpClient.Trigger_Connect)
    as [depth [m' [E _]]].
  - intros p _. destruct p; reflexivity.
  - assert (F : Fire (TcpClient.invoke (TcpClient.Fire 3)) TcpClient.holds depth
                  TcpClient.Trigger_Connect (Examples.cyclic, Examples.fields)
                = OutOfFuel).
    { unfold Fire, CanFire. unfold bind at 1.
      change (State (Examples.cyclic, Examples.fields)) with TcpClient.State_Idle.
      change (find TcpClient.State_Idle
                (_stateConfigurations (fst (Examples.cyclic, Examples.fields))))
        with (Some (configuration Examples.cyclic TcpClient.State_Idle)).
      unfold bind at 1.
      now rewrite (proj1 (Transition_cyclic TcpClient.Trigger_Connect Examples.fields depth)). }
    pose proof (eq_trans (eq_sym F) E) as X. discriminate X.
Qed.



End StateMachineExamples.

(** ** HttpClient.hpp *)

Module HttpClientTheory.
Import StdString StdStringTheory HttpClient.

Lemma base_Send (value : string) (m : Machine) (d : Fields) (t : TcpClient.Fields)
    (fuel : nat) (s : TcpClient.State) :
  tcp d = (TcpClient.machine s, t) ->
  Socket.accepting (Socket.os (TcpClient.socket t)) ->
  TcpClient._sendBuffer t = EmptyString ->
  value <> EmptyString ->
  String.length value < fuel ->
  s = TcpClient.State_Connected \/ s = TcpClient.State_Sending ->
  exists sends,
    base (TcpClient.Send fuel value) (m, d)
      = Returns tt (m, with_tcp (TcpClient.machine TcpClient.State_Sending,
                                 TcpClient.sent value sends t) d).
Proof.
  intros Ht Hos Hempty Hne Hfuel Hs.
  destruct (@TcpClientTheory.Send_drains value t fuel s Hos Hempty Hne Hfuel Hs)
    as [sends Hsends].
  exists sends. unfold base. simpl. rewrite Ht, Hsends. reflexivity.
Qed.

(** The fires of the request side, on any fields. *)
Lemma Fire_RequestBegin fuel d :
  Fire (S fuel) Trigger_RequestBegin (machine State_Connected, d)
    = Returns tt (machine State_RequestActionLine, d).
Proof. reflexivity. Qed.

Lemma Fire_RequestHeader fuel d :
  Fire (S fuel) Trigger_RequestHeader (machine State_RequestActionLine, d)
    = Returns tt (machine State_RequestHeaderLine, d).
Proof. reflexivity. Qed.

Lemma Fire_RequestChunk_first fuel d :
  Fire (S fuel) Trigger_RequestChunk (machine State_RequestHeaderLine, d)
    = (base (TcpClient.Send fuel ("Transfer-Encoding: chunked" ++ CRLF ++ CRLF)) ;;
       Fire fuel Trigger_Break) (machine State_RequestLastHeader, d).
Proof. reflexivity. Qed.

Lemma Fire_Break_LastHeader fuel d :
  Fire (S fuel) Trigger_Break (machine State_RequestLastHeader, d)
    = Returns tt (machine State_RequestChunk, d).
Proof. reflexivity. Qed.

Lemma Fire_RequestChunk_next fuel d :
  Fire (S fuel) Trigger_RequestChunk (machine State_RequestChunk, d)
    = Returns tt (machine State_RequestChunk, d).
Proof. reflexivity. Qed.

Lemma Fire_RequestEnd fuel cl t ev :
  Fire (S fuel) Trigger_RequestEnd
      (machine State_RequestChunk,
       {| _buffer := EmptyString; _contentLength := cl; tcp := t; raised := ev |})
    = Returns tt
        (machine State_ResponseActionLine,
         {| _buffer := EmptyString; _contentLength := cl; tcp := t; raised := ev |}).
Proof. reflexivity. Qed.

Lemma bind_unit {S} (c : M S unit) (o : S) : (c ;; ret tt) o = c o.
Proof.
  unfold bind, ret. destruct (c o) as [[] s | e s |]; reflexivity.
Qed.

(** One [TcpClient::Send] of the request side: the base class is in state
    [st] with fields [T], and takes the bytes in some number [s] of sends. *)
Ltac send_step T st s :=
  match goal with
  | Hos : Socket.accepting _ |- context [base (TcpClient.Send ?f ?v) (?m, ?d)] =>
      let Y := fresh "Y" in
      let E := fresh "E" in
      pose proof (@base_Send v m d T f st) as Y;
      destruct Y as [s E];
      [ reflexivity | exact Hos | first [assumption | reflexivity] | discriminate
      | first [assumption | simpl; lia] | first [now left | now right] | ];
      rewrite E; clear E; unfold with_tcp;
      simpl _buffer; simpl _contentLength; simpl raised
  end.

(** C6: from a connected client whose socket takes bytes,
    [Begin("POST", "/", protocol)], [SendHeader("Host", "h")], [Send("ABC")]
    and [End()] return, and write to the connection exactly the action
    line, the header, the [Transfer-Encoding: chunked] header with the
    blank line (sent when the first chunk is), the chunk [3 CRLF ABC CRLF]
    and the last chunk [0 CRLF CRLF], leaving nothing queued. [Send] of an
    empty chunk writes no chunk: once chunks are being sent it writes
    nothing and changes nothing; as the first [Send] of the request, after
    the action line or after a header, it writes the
    [Transfer-Encoding: chunked] header with the blank line, those bytes
    and no others, and leaves the client in [State_RequestChunk]. *)
Theorem chunked_request_bytes (protocol : string) (cl : N) (ev : list Event)
    (t : TcpClient.Fields) :
  Socket.accepting (Socket.os (TcpClient.socket t)) ->
  TcpClient._sendBuffer t = EmptyString ->
  let o : Object :=
    (machine State_Connected,
     {| _buffer := EmptyString; _contentLength := cl;
        tcp := (TcpClient.machine TcpClient.State_Connected, t); raised := ev |}) in
  (exists n, forall fuel, n <= fuel ->
     exists o',
       (Begin fuel "POST" "/" protocol ;;
        SendHeader fuel "Host" "h" ;;
        Send fuel "ABC" ;;
        End fuel) o = Returns tt o'
       /\ wire o' = (wire o ++ request protocol)%string
       /\ TcpClient._sendBuffer (snd (tcp (snd o'))) = EmptyString)
  /\ (forall fuel d,
        Send (S fuel) "" (machine State_RequestChunk, d)
          = Returns tt (machine State_RequestChunk, d))
  /\ (forall (s : State) (st : TcpClient.State) (buffer : string),
        s = State_RequestActionLine \/ s = State_RequestHeaderLine ->
        st = TcpClient.State_Connected \/ st = TcpClient.State_Sending ->
        exists n, forall fuel, n <= fuel ->
          exists sends,
            Send fuel ""
                (machine s,
                 {| _buffer := buffer; _contentLength := cl;
                    tcp := (TcpClient.machine st, t); raised := ev |})
              = Returns tt
                  (machine State_RequestChunk,
                   {| _buffer := buffer; _contentLength := cl;
                      tcp := (TcpClient.machine TcpClient.State_Sending,
                              TcpClient.sent
                                ("Transfer-Encoding: chunked" ++ CRLF ++ CRLF)
                                sends t);
                      raised := ev |})).
Proof.
  intros Hos Hempty o. split; [|split].
  - exists (String.length protocol + 40). intros fuel Hfuel.
    destruct fuel as [|fuel]; [lia|].
    destruct fuel as [|fuel]; [lia|].
    unfold o.
    (* Begin *)
    unfold Begin at 1. unfold bind at 1. unfold bind at 1.
    rewrite Fire_RequestBegin.
    assert (L1 : String.length ("POST" ++ " " ++ "/" ++ " " ++ protocol ++ CRLF)
                 < S (S fuel)).
    { simpl. rewrite length_app. simpl. lia. }
    send_step t TcpClient.State_Connected s1.
    (* SendHeader *)
    unfold SendHeader at 1. unfold bind at 1. unfold bind at 1.
    rewrite Fire_RequestHeader.
    send_step (TcpClient.sent ("POST" ++ " " ++ "/" ++ " " ++ protocol ++ CRLF) s1 t)
      TcpClient.State_Sending s2.
    (* Send: the automatic header, then the chunk *)
    unfold Send at 1. unfold bind at 1. unfold bind at 1.
    rewrite Fire_RequestChunk_first.
    unfold bind at 1.
    send_step (TcpClient.sent ("Host" ++ ": " ++ "h" ++ CRLF) s2
                 (TcpClient.sent ("POST" ++ " " ++ "/" ++ " " ++ protocol ++ CRLF) s1 t))
      TcpClient.State_Sending s3.
    destruct fuel as [|fuel]; [lia|].
    rewrite Fire_Break_LastHeader.
    change (negb (empty "ABC")) with true. cbv iota.
    send_step (TcpClient.sent ("Transfer-Encoding: chunked" ++ CRLF ++ CRLF) s3
              (TcpClient.sent ("Host" ++ ": " ++ "h" ++ CRLF) s2
                 (TcpClient.sent ("POST" ++ " " ++ "/" ++ " " ++ protocol ++ CRLF) s1 t)))
      TcpClient.State_Sending s4.
    (* End *)
    unfold End. unfold bind at 1.
    rewrite Fire_RequestEnd.
    send_step (TcpClient.sent (Format_x (size "ABC") ++ CRLF ++ "ABC" ++ CRLF) s4
              (TcpClient.sent ("Transfer-Encoding: chunked" ++ CRLF ++ CRLF) s3
              (TcpClient.sent ("Host" ++ ": " ++ "h" ++ CRLF) s2
                 (TcpClient.sent ("POST" ++ " " ++ "/" ++ " " ++ protocol ++ CRLF) s1 t))))
      TcpClient.State_Sending s5.
    eexists. split; [reflexivity|]. split; [|reflexivity].
    unfold wire, request.
    cbn [snd fst tcp TcpClient.socket TcpClient.sent Socket.wire].
    rewrite !app_assoc. f_equal.
  - intros fuel d. unfold Send. unfold bind.
    rewrite Fire_RequestChunk_next. reflexivity.
  - intros s st buffer Hs Hst. exists 40. intros fuel Hfuel.
    do 3 (destruct fuel as [|fuel]; [lia|]).
    unfold Send. unfold bind at 1.
    assert (E : Fire (S (S (S fuel))) Trigger_RequestChunk
                  (machine s,
                   {| _buffer := buffer; _contentLength := cl;
                      tcp := (TcpClient.machine st, t); raised := ev |})
                = (base (TcpClient.Send (S (S fuel))
                           ("Transfer-Encoding: chunked" ++ CRLF ++ CRLF)) ;;
                   Fire (S (S fuel)) Trigger_Break)
                    (machine State_RequestLastHeader,
                     {| _buffer := buffer; _contentLength := cl;
                        tcp := (TcpClient.machine st, t); raised := ev |}))
      by (destruct Hs as [-> | ->]; reflexivity).
    rewrite E. clear E. unfold bind at 1.
    destruct Hst as [-> | ->].
    + send_step t TcpClient.State_Connected sends.
      rewrite Fire_Break_LastHeader. exists sends. reflexivity.
    + send_step t TcpClient.State_Sending sends.
      rewrite Fire_Break_LastHeader. exists sends. reflexivity.
Qed.

Lemma chunked_request_bytes_witness :
  let t := Examples.fields in
  let o : Object :=
    (machine State_Connected,
     {| _buffer := EmptyString; _contentLength := 0;
        tcp := (TcpClient.machine TcpClient.State_Connected, t); raised := [] |}) in
  (Socket.accepting (Socket.os (TcpClient.socket t))
   /\ TcpClient._sendBuffer t = EmptyString)
  /\ (exists n, forall fuel, n <= fuel ->
       exists o',
         (Begin fuel "POST" "/" "HTTP/1.1" ;;
          SendHeader fuel "Host" "h" ;;
          Send fuel "ABC" ;;
          End fuel) o = Returns tt o'
         /\ wire o' = (wire o ++ request "HTTP/1.1")%string
         /\ TcpClient._sendBuffer (snd (tcp (snd o'))) = EmptyString)
  /\ (exists n, forall fuel, n <= fuel ->
       exists sends,
         Send fuel ""
             (machine State_RequestHeaderLine,
              {| _buffer := EmptyString; _contentLength := 0;
                 tcp := (TcpClient.machine TcpClient.State_Sending, t);
                 raised := [] |})
           = Returns tt
               (machine State_RequestChunk,
                {| _buffer := EmptyString; _contentLength := 0;
                   tcp := (TcpClient.machine TcpClient.State_Sending,
                           TcpClient.sent
                             ("Transfer-Encoding: chunked" ++ CRLF ++ CRLF)%string
                             sends t);
                   raised := [] |})).
Proof.
  intros t o.
  assert (H1 : Socket.accepting (Socket.os (TcpClient.socket t))).
  { intros i. exists 1460%N. split; reflexivity. }
  assert (H2 : TcpClient._sendBuffer t = EmptyString) by reflexivity.
  split; [split; assumption|].
  split.
  - exact (proj1 (@chunked_request_bytes "HTTP/1.1" 0%N [] t H1 H2)).
  - exact (proj2 (proj2 (@chunked_request_bytes "HTTP/1.1" 0%N [] t H1 H2))
             State_RequestHeaderLine TcpClient.State_Sending EmptyString
             (or_intror eq_refl) (or_intror eq_refl)).
Defined.

(** The claim as the specification states it fails: the empty chunk that
    is the first [Send] of a request writes the [Transfer-Encoding: chunked]
    header with the blank line, thirty bytes. *)
Lemma first_empty_chunk_writes_the_header :
  ~ empty_chunk_writes_nothing.
Proof.
  intros H.
  set (o := (machine State_RequestHeaderLine,
             {| _buffer := EmptyString; _contentLength := 0%N;
                tcp := (TcpClient.machine TcpClient.State_Sending, Examples.fields);
                raised := [] |}) : Object).
  destruct (Send 40 "" o) as [[] o' | e o' |] eqn:E;
    vm_compute in E; try discriminate E.
  injection E as E. specialize (H 40%nat o o').
  assert (X : Send 40 "" o = Returns tt o') by (rewrite <- E; vm_compute; reflexivity).
  specialize (H X). rewrite <- E in H. vm_compute in H. discriminate H.
Qed.

Local Open Scope string_scope.

Lemma Fire_EndOfChunks fuel d :
  Fire (S fuel) Trigger_EndOfChunks (machine State_ResponseChunkSize, d)
    = EndEntered (machine State_EndOfResponse, d).
Proof. reflexivity. Qed.

(** C4: in [State_ResponseChunkSize], a chunk-size line of [0] followed by
    the blank line that ends the chunks takes, with them, the first byte of
    whatever follows the response: the second [erase] removes
    [endOfSize + 2] bytes where the blank line has two. *)
Theorem zero_chunk_size_drops_following_byte (fuel : nat) (cl : N)
    (t : TcpClient.Object) (ev : list Event) (tail : string) :
  OnDataReceived (3 + fuel) ("0" ++ CRLF ++ CRLF ++ tail)
    (machine State_ResponseChunkSize,
     {| _buffer := ""; _contentLength := cl; tcp := t; raised := ev |})
  = Returns tt
      (machine State_EndOfResponse,
       {| _buffer := erase0 tail 1; _contentLength := 0; tcp := t;
          raised := ev ++ [ResponseEnded] |}).
Proof.
  unfold OnDataReceived, get_buffer, set_buffer, bind at 1, bind at 1, modify.
  cbn [snd fst _buffer _contentLength tcp raised append].
  change (3 + fuel) with (S (S (S fuel))).
  change (Fire (S (S (S fuel))) Trigger_Continue
            (machine State_ResponseChunkSize, ?d))
    with (ChunkSizeEntered (Fire (S (S fuel))) (machine State_ResponseChunkSize, d)).
  unfold ChunkSizeEntered, get_buffer. unfold bind at 1.
  cbn [snd fst _buffer].
  change (find (String "0" (CRLF ++ CRLF ++ tail)) CRLF 0) with 1%N.
  change (1 =? npos)%N with false. cbv iota.
  unfold bind at 1. unfold substr.
  rewrite (@substr0_app "0" (CRLF ++ CRLF ++ tail) 1 eq_refl : 
             StdString.substr (String "0" (CRLF ++ CRLF ++ tail)) 0 1 = Some "0").
  unfold ret at 1.
  unfold bind at 1. change (convert (Convert_size_t 16 "0")) with (@ret Object N 0%N).
  unfold ret at 1.
  unfold bind at 1, set_contentLength, modify.
  cbn [snd fst _buffer _contentLength tcp raised].
  unfold bind at 1, set_buffer, modify.
  cbn [snd fst _buffer _contentLength tcp raised].
  change (0 =? 0)%N with true. cbv iota.
  unfold bind at 1. unfold bind at 1.
  cbn [snd fst _buffer _contentLength tcp raised].
  change (size_add 1 2) with 3%N.
  rewrite (@erase0_app ("0" ++ CRLF) (CRLF ++ tail) 3 eq_refl :
             erase0 (String "0" (CRLF ++ CRLF ++ tail)) 3 = CRLF ++ tail).
  change (CRLF ++ tail) with (String CR (String LF tail)).
  rewrite erase0_cons by lia. rewrite erase0_cons by lia.
  change (3 - 1 - 1)%N with 1%N.
  rewrite Fire_EndOfChunks. reflexivity.
Qed.

End HttpClientTheory.

(** ** Xml.hpp *)

Module XmlElementTheory.
Import StdString StdStringTheory XmlElement.
Local Open Scope string_scope.

(** **** The order of the keys *)

Lemma ltb_leb (a b : string) : String.ltb a b = true -> String.leb a b = true.
Proof.
  unfold String.ltb, String.leb. destruct (String.compare a b); congruence.
Qed.

Lemma not_ltb_leb (a b : string) : String.ltb a b = false -> String.leb b a = true.
Proof.
  unfold String.ltb, String.leb. rewrite (String.compare_antisym a b).
  destruct (String.compare b a); simpl; congruence.
Qed.

Lemma not_ltb_neq_ltb (a b : string) :
  String.ltb a b = false -> a <> b -> String.ltb b a = true.
Proof.
  unfold String.ltb. rewrite (String.compare_antisym a b). intros H Hne.
  destruct (String.compare b a) eqn:E; simpl in *; try congruence.
  apply String.compare_eq_iff in E. congruence.
Qed.

Section Containers.

Local Open Scope list_scope.

Variable V : Type.
Implicit Types l : list (string * V).

(** Where [multimap_insert] puts the entry: after every entry whose key
    is not greater, in front of an entry whose key is greater. *)
Lemma multimap_insert_spec key (v : V) l :
  exists before after,
    l = before ++ after /\
    fst (multimap_insert key v l) = before ++ (key, v) :: after /\
    snd (multimap_insert key v l) = List.length before /\
    Forall (fun e => String.ltb key (fst e) = false) before /\
    match after with
    | [] => True
    | e :: _ => String.ltb key (fst e) = true
    end.
Proof.
  induction l as [|[k v'] l IH]; simpl.
  - exists [], []. repeat split; constructor.
  - destruct (String.ltb key k) eqn:E.
    + exists [], ((k, v') :: l). repeat split; try constructor. exact E.
    + destruct IH as [before [after [H1 [H2 [H3 [H4 H5]]]]]].
      destruct (multimap_insert key v l) as [r i]. simpl in *.
      exists ((k, v') :: before), after. subst. repeat split; try assumption.
      constructor; assumption.
Qed.

Lemma map_insert_multimap_insert key (v : V) l :
  map_insert key v l = multimap_insert key v l.
Proof.
  induction l as [|[k v'] l IH]; simpl; [reflexivity|].
  now rewrite IH.
Qed.

Lemma nth_insert before (x : string * V) after d :
  nth (List.length before) (map snd (before ++ x :: after)) d = snd x.
Proof. induction before; simpl; auto. Qed.

Lemma find_from_none key l i :
  find_from key l i = None -> Forall (fun e => fst e <> key) l.
Proof.
  revert i. induction l as [|[k v] l IH]; intros i; simpl.
  - constructor.
  - destruct (String.eqb key k) eqn:E; [discriminate|].
    intros H. constructor.
    + simpl. apply String.eqb_neq in E. congruence.
    + eapply IH. exact H.
Qed.

(** Inserting keeps the keys in order. *)
Lemma multimap_insert_sorted key (v : V) l :
  Sorted (@key_le V) l -> Sorted (@key_le V) (fst (multimap_insert key v l)).
Proof.
  induction l as [|[k v'] l IH]; simpl; intros Hs.
  - repeat constructor.
  - destruct (String.ltb key k) eqn:E; simpl.
    + constructor; [assumption|]. constructor. now apply ltb_leb.
    + inversion Hs as [|? ? Hs' Hhd]; subst. specialize (IH Hs').
      destruct (multimap_insert key v l) as [r i] eqn:Er. simpl in *.
      constructor; [assumption|].
      destruct l as [|[k2 v2] l2]; simpl in Er.
      * inversion Er; subst. constructor. now apply not_ltb_leb.
      * destruct (String.ltb key k2).
        -- inversion Er; subst. constructor. now apply not_ltb_leb.
        -- destruct (multimap_insert key v l2). inversion Er; subst.
           constructor. inversion Hhd; subst. assumption.
Qed.

Lemma map_insert_sorted key (v : V) l :
  Forall (fun e => fst e <> key) l ->
  Sorted (@key_lt V) l -> Sorted (@key_lt V) (fst (map_insert key v l)).
Proof.
  induction l as [|[k v'] l IH]; simpl; intros Hne Hs.
  - repeat constructor.
  - inversion Hne as [|? ? Hk Hne']; subst. simpl in Hk.
    destruct (String.ltb key k) eqn:E; simpl.
    + constructor; [assumption|]. constructor. exact E.
    + inversion Hs as [|? ? Hs' Hhd]; subst. specialize (IH Hne' Hs').
      destruct (map_insert key v l) as [r i] eqn:Er. simpl in *.
      constructor; [assumption|].
      destruct l as [|[k2 v2] l2]; simpl in Er.
      * inversion Er; subst. constructor. now apply not_ltb_neq_ltb.
      * destruct (String.ltb key k2).
        -- inversion Er; subst. constructor. now apply not_ltb_neq_ltb.
        -- destruct (map_insert key v l2). inversion Er; subst.
           constructor. inversion Hhd; subst. assumption.
Qed.

End Containers.

(** **** Serialization follows the order of the containers *)

Lemma XmlElement_induction (P : XmlElement -> Prop) :
  (forall ns name value elements attributes,
      Forall (fun kv => P (snd kv)) elements ->
      P (Build ns name value elements attributes)) ->
  forall e, P e.
Proof.
  intros H. fix IH 1. intros [ns name value elements attributes].
  apply H. induction elements as [|[k c] l IHl]; constructor.
  - apply IH.
  - exact IHl.
Qed.

Lemma attributes_string_spec l buffer :
  attributes_string l buffer
    = buffer ++ join (map (fun kv => attribute_text (snd kv)) l).
Proof.
  revert buffer. induction l as [|[k a] l IH]; intros buffer; simpl.
  - now rewrite app_empty_r.
  - rewrite IH. now rewrite app_assoc.
Qed.

Lemma ToStartElementString_to_spec e buffer :
  ToStartElementString_to e buffer = buffer ++ ToStartElementString e.
Proof.
  unfold ToStartElementString, ToStartElementString_to.
  rewrite !attributes_string_spec. simpl. now rewrite !app_assoc.
Qed.

Lemma ToEndElementString_to_spec e buffer :
  ToEndElementString_to e buffer = buffer ++ ToEndElementString e.
Proof. reflexivity. Qed.

Lemma ToString_to_unfold e buffer :
  ToString_to e buffer
    = ToEndElementString_to e
        (children_to (Elements e) (ToStartElementString_to e buffer) ++ Escape (Value e)).
Proof. destruct e. reflexivity. Qed.

Lemma children_to_spec l :
  Forall (fun kv => forall buffer,
            ToString_to (snd kv) buffer = buffer ++ ToString (snd kv)) l ->
  forall buffer,
    children_to l buffer = buffer ++ join (map (fun kv => ToString (snd kv)) l).
Proof.
  induction 1 as [|[k c] l Hc Hl IH]; intros buffer; simpl.
  - now rewrite app_empty_r.
  - change (children_to l (ToString_to c buffer)
            = buffer ++ ToString c ++ join (map (fun kv => ToString (snd kv)) l)).
    rewrite IH. simpl in Hc. rewrite Hc. now rewrite app_assoc.
Qed.

Lemma ToString_to_spec e :
  forall buffer, ToString_to e buffer = buffer ++ ToString e.
Proof.
  induction e as [ns name value elements attributes IH] using XmlElement_induction.
  intros buffer. unfold ToString. rewrite !ToString_to_unfold.
  rewrite !ToEndElementString_to_spec. simpl Elements. simpl Value.
  rewrite !(children_to_spec IH).
  rewrite (ToStartElementString_to_spec _ buffer).
  rewrite (ToStartElementString_to_spec _ "").
  simpl append at 1. now rewrite !app_assoc.
Qed.

(** The text of an element: its start tag with the attributes in the order
    of [_attributes], its children in the order of [_elements], its escaped
    value, its end tag. *)
Lemma ToString_order e :
  ToStartElementString e
    = "<" ++ qualified (Namespace e) (Name e)
          ++ join (map (fun kv => attribute_text (snd kv)) (Attributes e)) ++ ">"
  /\ ToString e
    = ToStartElementString e
        ++ join (map (fun kv => ToString (snd kv)) (Elements e))
        ++ Escape (Value e) ++ ToEndElementString e.
Proof.
  split.
  - unfold ToStartElementString, ToStartElementString_to.
    rewrite attributes_string_spec. simpl. now rewrite !app_assoc.
  - unfold ToString at 1. rewrite ToString_to_unfold, ToEndElementString_to_spec.
    rewrite children_to_spec.
    + rewrite ToStartElementString_to_spec. simpl append at 1. now rewrite !app_assoc.
    + rewrite Forall_forall. intros kv _. apply ToString_to_spec.
Qed.

End XmlElementTheory.

Module XmlTheory.
Import StdString StdStringTheory XmlElement XmlElementTheory Xml.
Local Open Scope string_scope.
Local Open Scope list_scope.

(** C7: the document of [UnitTest] serializes to the expected text.
    Serialization follows the containers: attributes come in the order of
    [_attributes] and children in the order of [_elements]; [Attribute]
    keeps the attribute keys strictly ascending, and [Add] keeps the child
    keys ascending, putting the new child after the children whose keys
    are not greater and in front of one whose key is greater. *)
Theorem UnitTest_and_key_order :
  ToString UnitTest_document
    = "<root attr1='12'><test>def</test><test>ghi</test></root>"%string
  /\ (forall e,
        ToStartElementString e
          = ("<" ++ qualified (Namespace e) (Name e)
                 ++ join (map (fun kv => attribute_text (snd kv)) (Attributes e))
                 ++ ">")%string
        /\ ToString e
          = (ToStartElementString e
               ++ join (map (fun kv => ToString (snd kv)) (Elements e))
               ++ Escape (Value e) ++ ToEndElementString e)%string)
  /\ (forall e ns name,
        Sorted key_lt (Attributes e) ->
        Sorted key_lt (Attributes (fst (Attribute ns name e))))
  /\ (forall e ns name,
        Sorted key_le (Elements e) ->
        Sorted key_le (Elements (fst (Add ns name e)))
        /\ exists before after,
             Elements e = before ++ after
             /\ Elements (fst (Add ns name e))
                = before ++ (Key ns name, make ns name) :: after
             /\ Forall (fun kv => String.ltb (Key ns name) (fst kv) = false) before
             /\ match after with
                | [] => True
                | kv :: _ => String.ltb (Key ns name) (fst kv) = true
                end).
Proof.
  split; [reflexivity|]. split; [exact ToString_order|]. split.
  - intros e ns name Hs. unfold Attribute, find.
    destruct (find_from (Key ns name) (Attributes e) 0) eqn:E; [exact Hs|].
    pose proof (@map_insert_sorted _ (Key ns name) (XmlAttribute.make ns name)
                  (Attributes e) (@find_from_none _ _ _ _ E) Hs) as H.
    destruct (map_insert (Key ns name) (XmlAttribute.make ns name) (Attributes e)).
    exact H.
  - intros e ns name Hs. unfold Add.
    pose proof (@multimap_insert_sorted _ (Key ns name) (make ns name) _ Hs) as H.
    destruct (multimap_insert_spec (Key ns name) (make ns name) (Elements e))
      as [before [after [H1 [H2 [_ [H4 H5]]]]]].
    destruct (multimap_insert (Key ns name) (make ns name) (Elements e)).
    simpl in *. split; [exact H|].
    exists before, after. repeat split; assumption.
Qed.

Lemma UnitTest_and_key_order_witness :
  (Sorted key_lt (Attributes UnitTest_document)
   /\ Sorted key_le (Elements UnitTest_document))
  /\ Sorted key_lt (Attributes (fst (Attribute "" "alpha" UnitTest_document)))
  /\ Sorted key_le (Elements (fst (Add "" "alpha" UnitTest_document))).
Proof.
  assert (H1 : Sorted key_lt (Attributes UnitTest_document)).
  { repeat constructor. }
  assert (H2 : Sorted key_le (Elements UnitTest_document)).
  { repeat constructor. }
  split; [split; assumption|]. split.
  - exact (proj1 (proj2 (proj2 UnitTest_and_key_order)) UnitTest_document ""%string
             "alpha"%string H1).
  - exact (proj1 (proj2 (proj2 (proj2 UnitTest_and_key_order)) UnitTest_document
                    ""%string "alpha"%string H2)).
Defined.

(** The claim as the specification states it fails: attributes named [b]
    then [a], and children added as [b] then [a], are serialized with [a]
    first. *)
Lemma not_in_insertion_order :
  ~ attributes_in_insertion_order /\ ~ children_in_insertion_order.
Proof.
  split.
  - intros H. specialize (H ["b"; "a"]%string).
    assert (Hn : NoDup (map (Key "") ["b"; "a"]%string)).
    { constructor.
      - simpl. intros [E | []]. discriminate E.
      - constructor; [intros [] | constructor]. }
    specialize (H Hn). vm_compute in H. discriminate H.
  - intros H. specialize (H ["b"; "a"]%string). vm_compute in H. discriminate H.
Qed.

(** C9: when no child (no attribute) has the key of [ns] and [name], the
    const overload answers with the static null object, for which [Exists]
    is false; the other overload puts a new empty element (attribute) of
    that namespace and name into the element and answers with a reference
    to it, the rest of the element staying as it was. *)
Theorem lookup_of_missing_name (e : XmlElement) (ns name : string) :
  (find (Key ns name) (Elements e) = None ->
     Element_const ns name e = ToNull
     /\ Exists (element_at e ToNull) = false
     /\ element_at (fst (Element ns name e)) (snd (Element ns name e)) = make ns name
     /\ exists before after,
          Elements e = before ++ after
          /\ fst (Element ns name e)
             = Build (Namespace e) (Name e) (Value e)
                 (before ++ (Key ns name, make ns name) :: after) (Attributes e)
          /\ snd (Element ns name e) = ToEntry (List.length before))
  /\
  (find (Key ns name) (Attributes e) = None ->
     Attribute_const ns name e = ToNull
     /\ XmlAttribute.Exists (attribute_at e ToNull) = false
     /\ attribute_at (fst (Attribute ns name e)) (snd (Attribute ns name e))
        = XmlAttribute.make ns name
     /\ exists before after,
          Attributes e = before ++ after
          /\ fst (Attribute ns name e)
             = Build (Namespace e) (Name e) (Value e) (Elements e)
                 (before ++ (Key ns name, XmlAttribute.make ns name) :: after)
          /\ snd (Attribute ns name e) = ToEntry (List.length before)).
Proof.
  split; intros Hnone.
  - unfold Element_const, Element, Add. rewrite Hnone.
    destruct (multimap_insert_spec (Key ns name) (make ns name) (Elements e))
      as [before [after [H1 [H2 [H3 _]]]]].
    destruct (multimap_insert (Key ns name) (make ns name) (Elements e)) as [l i].
    simpl in H2, H3. subst l i. simpl fst. simpl snd.
    split; [reflexivity|]. split; [reflexivity|]. split.
    + unfold element_at. simpl Elements.
      exact (@nth_insert _ before (Key ns name, make ns name) after NullElement).
    + exists before, after. repeat split. exact H1.
  - unfold Attribute_const, Attribute. rewrite Hnone.
    rewrite map_insert_multimap_insert.
    destruct (multimap_insert_spec (Key ns name) (XmlAttribute.make ns name)
                (Attributes e)) as [before [after [H1 [H2 [H3 _]]]]].
    destruct (multimap_insert (Key ns name) (XmlAttribute.make ns name) (Attributes e))
      as [l i].
    simpl in H2, H3. subst l i. simpl fst. simpl snd.
    split; [reflexivity|]. split; [reflexivity|]. split.
    + unfold attribute_at. simpl Attributes.
      exact (@nth_insert _ before (Key ns name, XmlAttribute.make ns name) after
               NullAttribute).
    + exists before, after. repeat split. exact H1.
Qed.

Lemma lookup_of_missing_name_witness :
  let e := UnitTest_document in
  (find (Key "" "other") (Elements e) = None
   /\ find (Key "" "other") (Attributes e) = None)
  /\ Element_const "" "other" e = ToNull
  /\ Elements (fst (Element "" "other" e))
     = (Key "" "other", make "" "other") :: Elements e
  /\ Attribute_const "" "other" e = ToNull
  /\ List.length (Attributes (fst (Attribute "" "other" e))) = 2.
Proof.
  intros e.
  assert (H1 : find (Key "" "other") (Elements e) = None) by reflexivity.
  assert (H2 : find (Key "" "other") (Attributes e) = None) by reflexivity.
  split; [split; assumption|].
  destruct (lookup_of_missing_name e ""%string "other"%string) as [HE HA].
  destruct (HE H1) as [E1 _]. destruct (HA H2) as [A1 _].
  split; [exact E1|]. split; [reflexivity|]. split; [exact A1 | reflexivity].
Defined.

End XmlTheory.

Module ProgressiveParserTheory.
Import StdString StdStringTheory ProgressiveParser.

Lemma document_parse : Append 64 document construct = Returns tt stalled.
Proof. vm_compute. reflexivity. Qed.
Lemma after_end : after 25 = stalled.
Proof. vm_compute. reflexivity. Qed.
Lemma after_start : after 0 = construct.
Proof. vm_compute. reflexivity. Qed.
Lemma text_first_parse fuel : Append (30 + fuel) text_first construct = Returns tt text_first_parsed.
Proof. vm_compute. reflexivity. Qed.

Lemma Append_table (fuel i n : nat) :
  i + n <= 25 ->
  Append (30 + fuel) (take n (drop i document)) (after i) = Returns tt (after (i + n)).
Proof.
  intros H.
  do 26 (destruct i as [|i];
         [ do 26 (destruct n as [|n];
                  [ first [ exfalso; simpl in H; lia | vm_compute; reflexivity ] | ]);
           exfalso; simpl in H; lia
         | ]).
  exfalso; simpl in H; lia.
Qed.

Lemma feed_from (fuel : nat) (chunks : list string) :
  forall i, i <= 25 ->
    join chunks = drop i document ->
    feed (30 + fuel) chunks (after i) = Returns tt (after 25).
Proof.
  induction chunks as [|c chunks IH]; intros i Hi Hjoin.
  - assert (Hl : String.length (drop i document) = 0).
    { rewrite <- Hjoin. reflexivity. }
    rewrite length_drop in Hl. change (String.length document) with 25 in Hl.
    assert (i = 25) by lia. subst i. reflexivity.
  - simpl in Hjoin. apply app_inv in Hjoin. destruct Hjoin as [Hc Hr].
    assert (Hn : i + String.length c <= 25).
    { assert (Hl := f_equal String.length Hr).
      pose proof (f_equal String.length Hc) as Hl2.
      assert (Hle : String.length c <= String.length (drop i document)).
      { rewrite Hc at 1. clear. generalize (String.length c) (drop i document).
        induction n as [|n IHn]; intros [|x s]; simpl; try lia.
        specialize (IHn s). lia. }
      rewrite length_drop in Hle. change (String.length document) with 25 in Hle. lia. }
    rewrite drop_drop in Hr.
    change (feed (30 + fuel) (c :: chunks) (after i))
      with ((Append (30 + fuel) c ;; feed (30 + fuel) chunks) (after i)).
    unfold bind. rewrite Hc at 1. rewrite (Append_table fuel _ _ Hn).
    apply IH; [lia | exact Hr].
Qed.

(** C5: however the bytes of the document are cut into chunks, the parser
    raises [StartElement(a,b)], [AttributeName(,x)], [AttributeValue(1)],
    [StartElement(,c)], [EndElement(,c)] and then stays in
    [State_OpenElement] with [text</a:b>] unread: a self-closed element
    raises its start and its end, and the text after it is not read. Text
    is read where it follows the [>] of a start tag: without the
    self-closed child the document, fed in one piece, raises [Data(text)]
    and [EndElement(a,b)]. *)
Theorem self_closed_element_then_text (fuel : nat) (chunks : list string) :
  join chunks = document ->
  feed (30 + fuel) chunks construct = Returns tt stalled
  /\ Append (30 + fuel) text_first construct = Returns tt text_first_parsed.
Proof.
  intros Hjoin. split.
  - change construct with (after 0). change stalled with (after 25).
    apply feed_from; [lia | exact Hjoin].
  - vm_compute. reflexivity.
Qed.

Lemma self_closed_element_then_text_witness :
  join ["<a:b x"; "='1'><c"; "/>te"; "xt</a:b>"]%string = document
  /\ feed 30 ["<a:b x"; "='1'><c"; "/>te"; "xt</a:b>"]%string construct
     = Returns tt stalled.
Proof.
  split; [reflexivity|].
  exact (proj1 (@self_closed_element_then_text 0
                  ["<a:b x"; "='1'><c"; "/>te"; "xt</a:b>"]%string eq_refl)).
Defined.

(** The events the specification lists are not the events raised. *)
Lemma document_events_differ :
  Append 64 document construct = Returns tt stalled
  /\ raised (snd stalled) <> documented_events.
Proof.
  split; [vm_compute; reflexivity | discriminate].
Qed.

End ProgressiveParserTheory.

(** ** TimeSpan.hpp: the round trip through [double] *)

Module TimeSpanDoubleTheory.
Import TimeSpan.
Local Open Scope Z_scope.

(** *** Whole numbers as [double] *)

Lemma digits2_pos_bounds (p : positive) :
  2 ^ (Z.pos (digits2_pos p) - 1) <= Z.pos p < 2 ^ Z.pos (digits2_pos p).
Proof.
  induction p as [p IH | p IH |]; simpl digits2_pos.
  - rewrite Pos2Z.inj_succ.
    replace (Z.succ (Z.pos (digits2_pos p)) - 1) with (Z.succ (Z.pos (digits2_pos p) - 1))
      by lia.
    rewrite !Z.pow_succ_r by lia. lia.
  - rewrite Pos2Z.inj_succ.
    replace (Z.succ (Z.pos (digits2_pos p)) - 1) with (Z.succ (Z.pos (digits2_pos p) - 1))
      by lia.
    rewrite !Z.pow_succ_r by lia. lia.
  - simpl. lia.
Qed.

Lemma digits2_pos_unique (p : positive) (d : Z) :
  2 ^ (d - 1) <= Z.pos p < 2 ^ d -> 0 < d -> Z.pos (digits2_pos p) = d.
Proof.
  intros [H1 H2] Hd. destruct (digits2_pos_bounds p) as [B1 B2].
  destruct (Z.lt_trichotomy (Z.pos (digits2_pos p)) d) as [L | [E | L]]; [|exact E|].
  - assert (2 ^ Z.pos (digits2_pos p) <= 2 ^ (d - 1)) by (apply Z.pow_le_mono_r; lia).
    lia.
  - assert (2 ^ d <= 2 ^ (Z.pos (digits2_pos p) - 1)) by (apply Z.pow_le_mono_r; lia).
    lia.
Qed.

Lemma shifted (k p : positive) : Z.pos (Pos.iter xO p k) = Z.pos p * 2 ^ Z.pos k.
Proof.
  change (Pos.iter xO p k) with (shift_pos k p).
  rewrite shift_pos_correct, Z.pow_pos_fold. lia.
Qed.

(** A mantissa of exactly 53 bits with an exponent in range is kept as it
    is. *)
Lemma binary_round_aux_canonical (s : bool) (m : positive) (e : Z) :
  Z.pos (digits2_pos m) = 53 -> - 1074 <= e <= 971 ->
  binary_round_aux 53 1024 s (Z.pos m) e loc_Exact = S754_finite s m e.
Proof.
  intros Hd He. unfold binary_round_aux, shr_fexp.
  assert (F : fexp 53 1024 (Zdigits2 (Z.pos m) + e) - e = 0).
  { unfold fexp, emin. simpl Zdigits2. rewrite Hd. lia. }
  rewrite F. cbn [shr shr_record_of_loc]. cbv beta iota zeta.
  cbn [shr_m shr_r shr_s loc_of_shr_record round_nearest_even Zdigits2].
  rewrite Hd.
  replace (fexp 53 1024 (53 + e) - e) with 0 by (unfold fexp, emin; lia).
  cbn [shr shr_m]. cbv beta iota zeta. cbn [shr_m].
  change (1024 - 53) with 971.
  replace (e <=? 971) with true by (symmetry; apply Z.leb_le; lia).
  reflexivity.
Qed.

Lemma of_int_small (s : bool) (p : positive) :
  Z.pos p < 2 ^ 53 ->
  exists (m : positive) (k : Z),
    0 <= k <= 52
    /\ Z.pos m = Z.pos p * 2 ^ k
    /\ binary_round 53 1024 s p 0 = S754_finite s m (- k).
Proof.
  intros Hp. destruct (digits2_pos_bounds p) as [B1 B2].
  assert (Hd : 1 <= Z.pos (digits2_pos p) <= 53).
  { split; [lia|].
    destruct (Z.le_gt_cases (Z.pos (digits2_pos p)) 53) as [L | L]; [exact L|].
    assert (2 ^ 53 <= 2 ^ (Z.pos (digits2_pos p) - 1)) by (apply Z.pow_le_mono_r; lia).
    lia. }
  unfold binary_round, shl_align.
  assert (F : fexp 53 1024 (Z.pos (digits2_pos p) + 0) = Z.pos (digits2_pos p) - 53).
  { unfold fexp, emin. lia. }
  rewrite F.
  destruct (Z.pos (digits2_pos p) - 53 - 0) as [|q|q] eqn:E; try lia.
  - exists p, 0. split; [lia|]. split; [lia|].
    apply binary_round_aux_canonical; lia.
  - exists (Pos.iter xO p q), (Z.pos q). split; [lia|]. split; [apply shifted|].
    replace (Z.pos (digits2_pos p) - 53) with (- Z.pos q) by lia.
    apply binary_round_aux_canonical; [|lia].
    apply digits2_pos_unique; [|lia]. rewrite shifted.
    replace 53 with (Z.pos (digits2_pos p) + Z.pos q) by lia.
    replace (Z.pos (digits2_pos p) + Z.pos q - 1)
      with ((Z.pos (digits2_pos p) - 1) + Z.pos q) by lia.
    rewrite !Z.pow_add_r by lia.
    assert (0 < 2 ^ Z.pos q) by (apply Z.pow_pos_nonneg; lia).
    nia.
Qed.

(** A whole number of magnitude below [2^53] is a [double], and the
    conversion back gives the number. *)
Lemma to_int64_of_int (z : Z) :
  Z.abs z < 2 ^ 53 -> to_int64 (of_int z) = Some z.
Proof.
  intros Hz. unfold of_int, binary_normalize.
  destruct z as [|p|p]; [reflexivity | |].
  - destruct (@of_int_small false p) as [m [k [Hk [Hm E]]]]; [lia|].
    rewrite E. unfold to_int64.
    assert (M : (if 0 <=? - k then Z.pos m * 2 ^ (- k) else Z.pos m / 2 ^ (- - k))
                = Z.pos p).
    { destruct (Z.eq_dec k 0) as [-> | Hne].
      - simpl. lia.
      - replace (0 <=? - k) with false by (symmetry; apply Z.leb_gt; lia).
        rewrite Z.opp_involutive, Hm. apply Z.div_mul.
        apply Z.pow_nonzero; lia. }
    cbv zeta. rewrite M.
    replace ((- 2 ^ 63 <=? Z.pos p) && (Z.pos p <? 2 ^ 63)) with true; [reflexivity|].
    symmetry. apply andb_true_iff. split; [apply Z.leb_le | apply Z.ltb_lt]; lia.
  - destruct (@of_int_small true p) as [m [k [Hk [Hm E]]]]; [lia|].
    rewrite E. unfold to_int64.
    assert (M : (if 0 <=? - k then Z.pos m * 2 ^ (- k) else Z.pos m / 2 ^ (- - k))
                = Z.pos p).
    { destruct (Z.eq_dec k 0) as [-> | Hne].
      - simpl. lia.
      - replace (0 <=? - k) with false by (symmetry; apply Z.leb_gt; lia).
        rewrite Z.opp_involutive, Hm. apply Z.div_mul.
        apply Z.pow_nonzero; lia. }
    cbv zeta. rewrite M.
    replace ((- 2 ^ 63 <=? - Z.pos p) && (- Z.pos p <? 2 ^ 63)) with true; [reflexivity|].
    symmetry. apply andb_true_iff. split; [apply Z.leb_le | apply Z.ltb_lt]; lia.
Qed.

Lemma equal_of_int (z : Z) : Z.abs z < 2 ^ 53 -> equal (of_int z) (of_int z) = true.
Proof.
  intros Hz. unfold of_int, binary_normalize.
  destruct z as [|p|p]; [reflexivity | |].
  - destruct (@of_int_small false p) as [m [k [Hk [Hm E]]]]; [lia|].
    rewrite E. unfold equal, SFeqb, SFcompare.
    rewrite Z.compare_refl, Pos.compare_cont_refl. reflexivity.
  - destruct (@of_int_small true p) as [m [k [Hk [Hm E]]]]; [lia|].
    rewrite E. unfold equal, SFeqb, SFcompare.
    rewrite Z.compare_refl, Pos.compare_cont_refl. reflexivity.
Qed.




End TimeSpanDoubleTheory.

(** * Further behaviour of the code

    Properties of the functions around the ones above: what [Send],
    [Connect] and [Update] of a TcpClient do in each state, how the
    HttpClient reads back what it frames, how the state machine treats
    unbound guards and throwing handlers, the string helpers, the XML
    containers and escapes, TimeSpan and Event. *)

Module StringBehaviour.
Import StdString StdStringTheory.
Local Open Scope N_scope.

(** *** Hexadecimal text: [Format("%x")] read back by [Convert] *)

Lemma lt_16_cases (d : N) :
  d < 16 ->
  d = 0 \/ d = 1 \/ d = 2 \/ d = 3 \/ d = 4 \/ d = 5 \/ d = 6 \/ d = 7 \/
  d = 8 \/ d = 9 \/ d = 10 \/ d = 11 \/ d = 12 \/ d = 13 \/ d = 14 \/ d = 15.
Proof. lia. Qed.

Ltac hex_cases H :=
  apply lt_16_cases in H;
  repeat (destruct H as [H | H]; [subst | ]); [ .. | subst ].

Lemma digit_value_hex_digit (d : N) :
  d < 16 -> digit_value 16 (hex_digit d) = Some d.
Proof. intros H. hex_cases H; reflexivity. Qed.

Lemma to_hex_digits (rounds : nat) :
  forall n acc count a,
    n < 16 ^ N.of_nat (S rounds) ->
    exists len,
      0 < len /\
      digits 16 (to_hex (S rounds) n acc) count a
        = digits 16 acc (count + len) (a * 16 ^ len + n).
Proof.
  induction rounds as [|rounds IH]; intros n acc count a Hn;
    change (to_hex (S ?r) n acc)
      with (let acc' := String (hex_digit (n mod 16)) acc in
            if n / 16 =? 0 then acc' else to_hex r (n / 16) acc');
    cbv zeta;
    assert (Hd : n mod 16 < 16) by (apply N.mod_lt; lia);
    destruct (n / 16 =? 0) eqn:E.
  - apply N.eqb_eq in E.
    exists 1. split; [lia|].
    simpl digits. rewrite (digit_value_hex_digit Hd).
    assert (n = n mod 16).
    { rewrite (N.div_mod n 16) at 1 by lia. rewrite E. lia. }
    f_equal; lia.
  - apply N.eqb_neq in E. exfalso. apply E.
    apply N.div_small. simpl in Hn. lia.
  - apply N.eqb_eq in E.
    exists 1. split; [lia|].
    simpl digits. rewrite (digit_value_hex_digit Hd).
    assert (n = n mod 16).
    { rewrite (N.div_mod n 16) at 1 by lia. rewrite E. lia. }
    f_equal; lia.
  - assert (Hq : n / 16 < 16 ^ N.of_nat (S rounds)).
    { apply N.Div0.div_lt_upper_bound.
      rewrite (Nat2N.inj_succ (S rounds)), N.pow_succ_r' in Hn. lia. }
    destruct (IH (n / 16) (String (hex_digit (n mod 16)) acc) count a Hq)
      as [len [Hlen El]].
    exists (len + 1). split; [lia|].
    rewrite El. simpl digits. rewrite (digit_value_hex_digit Hd).
    f_equal.
    + lia.
    + rewrite N.pow_add_r, N.pow_1_r.
      rewrite (N.div_mod n 16) at 3 by lia. lia.
Qed.

Lemma to_hex_headed (rounds : nat) :
  forall n acc,
    acc = EmptyString
    \/ (exists d' rest', d' < 16 /\ acc = String (hex_digit d') rest') ->
    hex_headed (to_hex (S rounds) n acc).
Proof.
  induction rounds as [|rounds IH]; intros n acc Hacc.
  - simpl. assert (Hd : n mod 16 < 16) by (apply N.mod_lt; lia).
    destruct (n / 16 =? 0); exists (n mod 16), acc; auto.
  - change (to_hex (S (S rounds)) n acc)
      with (let acc' := String (hex_digit (n mod 16)) acc in
            if n / 16 =? 0 then acc' else to_hex (S rounds) (n / 16) acc').
    cbv zeta.
    assert (Hd : n mod 16 < 16) by (apply N.mod_lt; lia).
    destruct (n / 16 =? 0).
    + exists (n mod 16), acc; auto.
    + apply IH. right. exists (n mod 16), acc. auto.
Qed.

Lemma Convert_size_t_hex_headed (s : string) :
  hex_headed s ->
  Convert_size_t 16 s
    = let '(count, v) := digits 16 s 0 0 in
      if count =? 0 then None
      else if npos <? v then None
      else Some v.
Proof.
  intros [d [rest [Hd [-> Hrest]]]].
  destruct Hrest as [-> | [d' [rest' [Hd' ->]]]].
  - hex_cases Hd; reflexivity.
  - hex_cases Hd; try reflexivity.
    hex_cases Hd'; destruct rest'; reflexivity.
Qed.

(** Hexadecimal text read back. *)
Lemma Convert_hexadecimal (n : N) :
  Convert_size_t 16 (Format_x n) = Some (n mod 4294967296).
Proof.
  unfold Format_x.
  assert (Hm : n mod 4294967296 < 16 ^ N.of_nat 8).
  { change (16 ^ N.of_nat 8) with 4294967296. apply N.mod_lt. lia. }
  set (m := n mod 4294967296) in *.
  rewrite Convert_size_t_hex_headed by (apply to_hex_headed; now left).
  destruct (@to_hex_digits 7%nat m EmptyString 0 0 Hm) as [len [Hlen E]].
  rewrite E. simpl digits. cbv beta iota.
  replace (len =? 0) with false by (symmetry; apply N.eqb_neq; lia).
  replace (npos <? m) with false.
  - reflexivity.
  - symmetry. apply N.ltb_ge.
    change (16 ^ N.of_nat 8) with 4294967296 in Hm. unfold npos. lia.
Qed.

(** X1: the text that [Format] writes for a size with [%x], read back by
    [Convert<size_t>] with [std::hex], is the size cut to its low 32 bits
    ([%x] takes an [unsigned int]): sizes below 4294967296 come back as
    they are, larger ones do not. *)
Theorem Convert_Format_x (n : N) :
  Convert_size_t 16 (Format_x n) = Some (n mod 4294967296).
Proof. apply Convert_hexadecimal. Qed.

Lemma mem_to_hex (c : ascii) (rounds : nat) :
  (forall d, d < 16 -> Ascii.eqb c (hex_digit d) = false) ->
  forall n acc, mem c acc = false -> mem c (to_hex rounds n acc) = false.
Proof.
  intros Hc. induction rounds as [|rounds IH]; intros n acc Hacc; [exact Hacc|].
  assert (Hd : n mod 16 < 16) by (apply N.mod_lt; lia).
  simpl to_hex. destruct (n / 16 =? 0).
  - simpl. now rewrite Hc, Hacc.
  - apply IH. simpl. now rewrite Hc, Hacc.
Qed.

(** *** Searching: [find] up to the first occurrence *)

Lemma size_app (a b : string) : size (a ++ b) = size a + size b.
Proof. unfold size. rewrite length_app. lia. Qed.

Lemma prefix_app (pat rest : string) : String.prefix pat (pat ++ rest) = true.
Proof.
  induction pat as [|c pat IH]; simpl; [now destruct rest|].
  destruct (ascii_dec c c); [exact IH | congruence].
Qed.

Lemma search_absent (c : ascii) (p text rest : string) (i : N) :
  mem c text = false ->
  search (String c p) (text ++ String c p ++ rest) i = i + size text.
Proof.
  revert i. induction text as [|x text IH]; intros i Hm.
  - change (search (String c p) (String c p ++ rest) i = i + 0).
    destruct (String c p ++ rest)%string eqn:E; [discriminate E|].
    unfold search. rewrite <- E, prefix_app. lia.
  - simpl in Hm. apply orb_false_iff in Hm. destruct Hm as [Hx Hm].
    apply Ascii.eqb_neq in Hx.
    simpl. destruct (ascii_dec c x); [congruence|].
    rewrite IH by assumption. unfold size. simpl String.length. lia.
Qed.

Lemma find_first (c : ascii) (p text rest : string) :
  mem c text = false ->
  find (text ++ String c p ++ rest) (String c p) 0 = size text.
Proof.
  intros Hm. unfold find.
  replace (size (text ++ String c p ++ rest) <? 0) with false
    by (symmetry; apply N.ltb_ge; lia).
  change (N.to_nat 0) with 0%nat. unfold drop.
  rewrite search_absent by assumption. lia.
Qed.

Lemma search_none (pat s : string) (i : N) (c : ascii) (p : string) :
  pat = String c p -> mem c s = false -> search pat s i = npos.
Proof.
  intros -> . revert i. induction s as [|x s IH]; intros i Hm; [reflexivity|].
  simpl in Hm. apply orb_false_iff in Hm. destruct Hm as [Hx Hm].
  apply Ascii.eqb_neq in Hx.
  simpl. destruct (ascii_dec c x); [congruence|]. now apply IH.
Qed.

Lemma substr_app (a b c : string) :
  StdString.substr (a ++ b ++ c) (size a) (size b) = Some b.
Proof.
  unfold StdString.substr.
  assert (Hs : size (a ++ b ++ c) = size a + size b + size c).
  { unfold size. rewrite !length_app. lia. }
  replace (size (a ++ b ++ c) <? size a) with false
    by (symmetry; apply N.ltb_ge; lia).
  rewrite N.min_l by lia.
  unfold size. rewrite !Nat2N.id.
  now rewrite drop_app, take_app.
Qed.

(** *** [Split] *)

Local Open Scope string_scope.

Lemma getlines_field (d : ascii) (a : string) :
  mem d a = false ->
  forall item b,
    getlines d (a ++ String d b) item = (item ++ a) :: getlines d b EmptyString.
Proof.
  induction a as [|x a IH]; intros Hm item b.
  - simpl. rewrite Ascii.eqb_refl. now rewrite app_empty_r.
  - simpl in Hm. apply orb_false_iff in Hm. destruct Hm as [Hx Hm].
    simpl. rewrite Ascii.eqb_sym, Hx. rewrite (IH Hm). f_equal.
    now rewrite app_assoc.
Qed.

Lemma getlines_last (d : ascii) (a : string) :
  mem d a = false ->
  forall item,
    getlines d a item = if empty (item ++ a) then [] else [item ++ a].
Proof.
  induction a as [|x a IH]; intros Hm item.
  - simpl. now rewrite app_empty_r.
  - simpl in Hm. apply orb_false_iff in Hm. destruct Hm as [Hx Hm].
    simpl. rewrite Ascii.eqb_sym, Hx. rewrite (IH Hm).
    now rewrite app_assoc.
Qed.

(** X2: [Split] cuts at every delimiter. A field without the delimiter
    that is followed by a delimiter comes first, before the fields of the
    rest; a text without delimiter is one field, and no field when it is
    empty; a delimiter at the end of the text adds no empty last field. *)
Theorem Split_fields (d : ascii) (a b : string) :
  mem d a = false ->
  Split (a ++ String d b) d = a :: Split b d
  /\ Split a d = (if empty a then [] else [a])
  /\ Split (a ++ String d EmptyString) d = [a].
Proof.
  intros Hm. unfold Split. split; [|split].
  - now rewrite getlines_field.
  - now rewrite getlines_last.
  - now rewrite getlines_field.
Qed.

Lemma Split_fields_witness :
  Split "a:b" ":" = ["a"; "b"] /\ Split "b" ":" = ["b"] /\ Split "a:" ":" = ["a"].
Proof.
  destruct (@Split_fields ":" "a" "b" eq_refl) as [H1 [_ H3]].
  destruct (@Split_fields ":" "b" "" eq_refl) as [_ [H2 _]].
  split; [|split].
  - exact (eq_trans H1 (f_equal (cons "a") H2)).
  - exact H2.
  - exact H3.
Defined.

End StringBehaviour.

Module TcpClientBehaviour.
Import StdString StdStringTheory TcpClient TcpClientTheory.

(** An empty [Send] makes one call of [send] that takes nothing. *)
Lemma Send_empty (d : Fields) (fuel : nat) (s : State) :
  Socket.accepting (Socket.os (socket d)) ->
  _sendBuffer d = EmptyString ->
  s = State_Connected \/ s = State_Sending ->
  Send (S (S fuel)) EmptyString (machine s, d)
    = Returns tt (machine State_Sending, sent EmptyString 1 d).
Proof.
  intros Hos Hempty Hs.
  destruct (Hos (Socket.calls (socket d))) as [window [Hw _]].
  destruct d as [bs sb [os calls wire] ev sch]. simpl in *. subst sb.
  assert (E : forall fire,
             Sending_OnEntry fire
               (machine State_Sending,
                {| _bufferSize := bs; _sendBuffer := EmptyString;
                   socket := {| Socket.os := os; Socket.calls := calls; Socket.wire := wire |};
                   raised := ev; scheduled := sch |})
             = Returns tt
                 (machine State_Sending,
                  sent EmptyString 1
                    {| _bufferSize := bs; _sendBuffer := EmptyString;
                       socket := {| Socket.os := os; Socket.calls := calls;
                                    Socket.wire := wire |};
                       raised := ev; scheduled := sch |})).
  { intros fire.
    unfold Sending_OnEntry, get_sendBuffer, set_sendBuffer, bind, modify, base,
      Socket.Send; simpl. rewrite Hw.
    change (size EmptyString) with 0%N. rewrite N.min_0_r. simpl.
    unfold sent; simpl. rewrite app_empty_r, Nat.add_1_r. reflexivity. }
  unfold Send, get_sendBuffer, set_sendBuffer, bind, modify. cbn -[Fire machine].
  destruct Hs as [-> | ->].
  - rewrite Fire_Send_Connected. apply E.
  - rewrite Fire_Send_Sending. apply E.
Qed.

(** [Send] with nothing queued before. *)
Lemma Send_all (value : string) (d : Fields) (s : State) :
  Socket.accepting (Socket.os (socket d)) ->
  _sendBuffer d = EmptyString ->
  s = State_Connected \/ s = State_Sending ->
  forall fuel, String.length value + 2 <= fuel ->
    exists sends,
      Send fuel value (machine s, d)
        = Returns tt (machine State_Sending, sent value sends d).
Proof.
  intros Hos Hempty Hs fuel Hfuel.
  destruct value as [|c value].
  - destruct fuel as [|[|fuel]]; simpl in Hfuel; try lia.
    exists 1. now apply Send_empty.
  - apply Send_drains; try assumption.
    + discriminate.
    + lia.
Qed.

(** X3: on a client that is connected or sending, with nothing queued and
    a socket that takes at least one byte at every [send], [Send(value)]
    returns with the whole value written to the connection, in as many
    calls of [send] as the socket needs, the send buffer empty again, the
    client in [State_Sending] and no event raised. *)
Theorem Send_writes_value (value : string) (d : Fields) (s : State) :
  Socket.accepting (Socket.os (socket d)) ->
  _sendBuffer d = EmptyString ->
  s = State_Connected \/ s = State_Sending ->
  forall fuel, String.length value + 2 <= fuel ->
    exists sends,
      Send fuel value (machine s, d)
        = Returns tt (machine State_Sending, sent value sends d).
Proof. apply Send_all. Qed.

Lemma Send_writes_value_witness :
  exists sends,
    Send 10 "GET /" (machine State_Connected, Examples.fields)
      = Returns tt (machine State_Sending, sent "GET /" sends Examples.fields).
Proof.
  apply (@Send_writes_value "GET /" Examples.fields State_Connected).
  - intros i. exists 1460%N. split; reflexivity.
  - reflexivity.
  - now left.
  - simpl. lia.
Defined.


(** X4: a disconnected client stays disconnected. Whatever trigger is
    fired in [State_Disconnected] ([Connect], [Send], [Disconnect] and the
    internal ones), [Fire] throws [UndefinedTriggerException] and the
    client is left as it was. *)
Theorem Disconnected_is_final (fuel : nat) (trigger : Trigger) (d : Fields) :
  Fire (S fuel) trigger (machine State_Disconnected, d)
    = Throws UndefinedTriggerException (machine State_Disconnected, d).
Proof. destruct trigger; reflexivity. Qed.

(** X5: [Send] on a client that is idle, connecting or disconnected
    throws [UndefinedTriggerException] after the value has been appended to
    the send buffer, so the value stays queued; and the entry into
    [State_Connected] (here through [AssumeConnected]) clears the send
    buffer, raises [ClientConnected] and schedules the first update: what
    was queued before the connection is dropped. *)
Theorem Send_before_connection (fuel : nat) (value : string) (d : Fields) :
  (forall s, s = State_Idle \/ s = State_Connecting \/ s = State_Disconnected ->
     Send (S fuel) value (machine s, d)
       = Throws UndefinedTriggerException
           (machine s, with_sendBuffer (_sendBuffer d ++ value) d))
  /\ AssumeConnected (S (S fuel)) (machine State_Idle, d)
     = Returns tt
         (machine State_Connected,
          {| _bufferSize := _bufferSize d; _sendBuffer := EmptyString;
             socket := socket d; raised := raised d ++ [ClientConnected];
             scheduled := scheduled d ++ [Connected_Update_] |}).
Proof.
  split.
  - intros s [-> | [-> | ->]]; reflexivity.
  - reflexivity.
Qed.

Lemma Send_before_connection_witness :
  Send 1 "abc" (machine State_Idle, Examples.fields)
    = Throws UndefinedTriggerException
        (machine State_Idle, with_sendBuffer "abc" Examples.fields).
Proof.
  exact (proj1 (@Send_before_connection 0 "abc" Examples.fields) State_Idle
           (or_introl eq_refl)).
Defined.

Lemma Fire_Send_would_block (fuel : nat) :
  forall (d : Fields) (s : State),
    (forall i, Socket.send_window (Socket.os (socket d)) i = Some 0%N) ->
    _sendBuffer d <> EmptyString ->
    s = State_Connected \/ s = State_Sending ->
    Fire fuel Trigger_Send (machine s, d) = OutOfFuel.
Proof.
  induction fuel as [|fuel IH]; intros d s Hos Hne Hs; [reflexivity|].
  assert (E : Sending_OnEntry (Fire fuel) (machine State_Sending, d) = OutOfFuel).
  { unfold Sending_OnEntry, get_sendBuffer, set_sendBuffer, bind, modify, base,
      Socket.Send. cbn -[Fire machine].
    rewrite Hos. rewrite N.min_0_l. cbn -[Fire machine].
    unfold erase0. rewrite N.min_0_l. cbn -[Fire machine].
    destruct (_sendBuffer d) as [|c b] eqn:Eb; [congruence|]. cbn -[Fire machine].
    apply IH.
    - exact Hos.
    - simpl. discriminate.
    - now right. }
  destruct Hs as [-> | ->].
  - rewrite Fire_Send_Connected. exact E.
  - destruct fuel as [|fuel]; [reflexivity|].
    rewrite Fire_Send_Sending. exact E.
Qed.

(** X6: when the socket takes no byte ([send] would block each time) and
    there is something to send, [Send] does not return: [Sending_OnEntry]
    fires [Trigger_Send] again from inside the transition, without end and
    without a return to the caller in between. *)
Theorem Send_would_block (value : string) (d : Fields) (s : State) :
  (forall i, Socket.send_window (Socket.os (socket d)) i = Some 0%N) ->
  (_sendBuffer d ++ value)%string <> EmptyString ->
  s = State_Connected \/ s = State_Sending ->
  forall fuel, Send fuel value (machine s, d) = OutOfFuel.
Proof.
  intros Hos Hne Hs fuel.
  unfold Send, get_sendBuffer, set_sendBuffer, bind, modify. cbn -[Fire machine].
  apply Fire_Send_would_block; assumption.
Qed.

Lemma Send_would_block_witness :
  Send 1000 "abc" (machine State_Connected, Examples.congested) = OutOfFuel.
Proof.
  apply (@Send_would_block "abc" Examples.congested State_Connected).
  - intros i. reflexivity.
  - discriminate.
  - now left.
Defined.

(** X7: after a [Send] the client is in [State_Sending], which the
    destructor does not look for: destroying the client then raises no
    [ClientDisconnected], while [Disconnect] raises it and moves to
    [State_Disconnected]. *)
Theorem Sending_is_kept (value : string) (d : Fields) :
  Socket.accepting (Socket.os (socket d)) ->
  _sendBuffer d = EmptyString ->
  forall fuel, String.length value + 2 <= fuel ->
    exists sends,
      (Send fuel value ;; destroy fuel) (machine State_Connected, d)
        = Returns tt (machine State_Sending, sent value sends d)
      /\ (Send fuel value ;; Disconnect fuel) (machine State_Connected, d)
        = Returns tt
            (machine State_Disconnected,
             raising ClientDisconnected (sent value sends d)).
Proof.
  intros Hos Hempty fuel Hfuel.
  destruct (@Send_all value d State_Connected Hos Hempty (or_introl eq_refl)
              fuel Hfuel) as [sends E].
  exists sends. unfold bind. rewrite E.
  destruct fuel as [|[|fuel]]; try lia.
  split; reflexivity.
Qed.

Lemma Sending_is_kept_witness :
  exists sends,
    (Send 10 "GET /" ;; destroy 10) (machine State_Connected, Examples.fields)
      = Returns tt (machine State_Sending, sent "GET /" sends Examples.fields)
    /\ (Send 10 "GET /" ;; Disconnect 10) (machine State_Connected, Examples.fields)
      = Returns tt
          (machine State_Disconnected,
           raising ClientDisconnected (sent "GET /" sends Examples.fields)).
Proof.
  apply (@Sending_is_kept "GET /" Examples.fields).
  - intros i. exists 1460%N. split; reflexivity.
  - reflexivity.
  - simpl. lia.
Defined.

(** X8: one round of [Connected_Update] on a client that is connected or
    sending. With nothing to read, nothing changes and the update is
    scheduled again; with data to read, [DataReceived] is raised with what
    [Receive] returned, at most [_bufferSize] bytes, and the update is
    scheduled again; when the socket is readable and [Receive] returns
    nothing, the client moves to [State_Disconnected], raises
    [ClientDisconnected] and schedules no further update. *)
Theorem Connected_Update_outcomes (fuel : nat) (d : Fields) (s : State) :
  s = State_Connected \/ s = State_Sending ->
  let os := Socket.os (socket d) in
  let calls := Socket.calls (socket d) in
  let data := take (N.to_nat (_bufferSize d)) (Socket.received os (S calls)) in
  let update := Connected_Update (Fire (S (S fuel))) (machine s, d) in
  (Socket.poll_answer os Socket.SelectMode_Read calls = false ->
     update = Returns tt (machine s,
                {| _bufferSize := _bufferSize d; _sendBuffer := _sendBuffer d;
                   socket := socket (polled 1 d); raised := raised d;
                   scheduled := scheduled d ++ [Connected_Update_] |}))
  /\ (Socket.poll_answer os Socket.SelectMode_Read calls = true ->
      data <> EmptyString ->
      (size data <= _bufferSize d)%N
      /\ update = Returns tt (machine s,
                {| _bufferSize := _bufferSize d; _sendBuffer := _sendBuffer d;
                   socket := socket (polled 2 d);
                   raised := raised d ++ [DataReceived data];
                   scheduled := scheduled d ++ [Connected_Update_] |}))
  /\ (Socket.poll_answer os Socket.SelectMode_Read calls = true ->
      data = EmptyString ->
      update = Returns tt (machine State_Disconnected,
                {| _bufferSize := _bufferSize d; _sendBuffer := _sendBuffer d;
                   socket := socket (polled 2 d);
                   raised := raised d ++ [ClientDisconnected];
                   scheduled := scheduled d |})).
Proof.
  intros Hs os calls data update.
  assert (Hlen : forall n t, String.length (take n t) <= n).
  { induction n as [|n IH]; intros [|c t]; simpl; try lia. specialize (IH t). lia. }
  assert (Hd : (size data <= _bufferSize d)%N).
  { unfold size, data.
    specialize (Hlen (N.to_nat (_bufferSize d)) (Socket.received os (S calls))). lia. }
  assert (E2 : calls + 2 = S (S calls)) by lia.
  assert (E1 : calls + 1 = S calls) by lia.
  unfold update, Connected_Update, base, bind, Socket.Poll, Socket.Receive, polled,
    with_socket.
  split; [|split]; intros Hp; cbn -[Fire machine take];
    fold os; fold calls; rewrite Hp; cbn -[Fire machine take];
    fold os; fold calls; fold data.
  - rewrite E1. reflexivity.
  - intros Hne. split; [exact Hd|]. rewrite E2.
    destruct data; [congruence | reflexivity].
  - intros He. rewrite He, E2. cbn -[Fire machine].
    destruct Hs as [-> | ->]; reflexivity.
Qed.

Lemma Connected_Update_outcomes_witness :
  Connected_Update (Fire 2) (machine State_Connected, Examples.answering)
    = Returns tt
        (machine State_Connected,
         {| _bufferSize := 4096; _sendBuffer := EmptyString;
            socket := socket (polled 2 Examples.answering);
            raised := [DataReceived "pong"];
            scheduled := [Connected_Update_] |}).
Proof.
  refine (proj2 (proj1 (proj2 (@Connected_Update_outcomes 0 Examples.answering
                                 State_Connected (or_introl eq_refl))) eq_refl _)).
  discriminate.
Defined.

(** X9: what [Trigger_Connect] does to an idle client, by the answers of
    the two polls of [Connecting_OnEntry]: a writable socket gives
    [State_Connected] with [ClientConnected] raised and the update
    scheduled; a socket in error gives [State_Disconnected] with
    [ClientDisconnected] raised; otherwise the client stays in
    [State_Connecting] and [Connecting_OnEntry] is scheduled again. *)
Theorem Connect_outcomes (fuel : nat) (d : Fields) :
  let os := Socket.os (socket d) in
  let calls := Socket.calls (socket d) in
  let connect := Fire (S (S fuel)) Trigger_Connect (machine State_Idle, d) in
  (Socket.poll_answer os Socket.SelectMode_Write calls = true ->
     connect = Returns tt (machine State_Connected,
                {| _bufferSize := _bufferSize d; _sendBuffer := EmptyString;
                   socket := socket (polled 1 d);
                   raised := raised d ++ [ClientConnected];
                   scheduled := scheduled d ++ [Connected_Update_] |}))
  /\ (Socket.poll_answer os Socket.SelectMode_Write calls = false ->
      Socket.poll_answer os Socket.SelectMode_Error (S calls) = true ->
      connect = Returns tt (machine State_Disconnected,
                {| _bufferSize := _bufferSize d; _sendBuffer := _sendBuffer d;
                   socket := socket (polled 2 d);
                   raised := raised d ++ [ClientDisconnected];
                   scheduled := scheduled d |}))
  /\ (Socket.poll_answer os Socket.SelectMode_Write calls = false ->
      Socket.poll_answer os Socket.SelectMode_Error (S calls) = false ->
      connect = Returns tt (machine State_Connecting,
                {| _bufferSize := _bufferSize d; _sendBuffer := _sendBuffer d;
                   socket := socket (polled 2 d);
                   raised := raised d;
                   scheduled := scheduled d ++ [Connecting_OnEntry_] |})).
Proof.
  intros os calls connect.
  assert (E2 : calls + 2 = S (S calls)) by lia.
  assert (E1 : calls + 1 = S calls) by lia.
  assert (E : connect = Connecting_OnEntry (Fire (S fuel)) (machine State_Connecting, d))
    by reflexivity.
  rewrite E.
  unfold Connecting_OnEntry, base, bind, Socket.Poll, polled, with_socket.
  split; [|split]; intros Hw; cbn -[Fire machine];
    fold os; fold calls; rewrite Hw; cbn -[Fire machine]; fold os; fold calls.
  - rewrite E1. reflexivity.
  - intros He. rewrite He, E2. reflexivity.
  - intros He. rewrite He, E2. reflexivity.
Qed.

Lemma Connect_outcomes_witness :
  Fire 2 Trigger_Connect (machine State_Idle, Examples.answering)
    = Returns tt
        (machine State_Connected,
         {| _bufferSize := 4096; _sendBuffer := EmptyString;
            socket := socket (polled 1 Examples.answering);
            raised := [ClientConnected];
            scheduled := [Connected_Update_] |}).
Proof.
  exact (proj1 (@Connect_outcomes 0 Examples.answering) eq_refl).
Defined.

End TcpClientBehaviour.

Module HttpClientBehaviour.
Import StdString StdStringTheory StringBehaviour HttpClient HttpClientTheory.
Local Open Scope string_scope.
Local Open Scope N_scope.

Lemma size_add_small (a b : N) : a + b < two64 -> size_add a b = a + b.
Proof. intros H. unfold size_add. now apply N.mod_small. Qed.

Lemma size_sub_small (a b : N) : b <= a -> a < two64 -> size_sub a b = a - b.
Proof.
  intros H1 H2. unfold size_sub.
  replace (a + two64 - b) with (a - b + 1 * two64) by lia.
  rewrite N.Div0.mod_add. apply N.mod_small. lia.
Qed.

(** *** The states of a chunked body *)

Lemma Fire_Continue_ChunkSize fuel d :
  Fire (S fuel) Trigger_Continue (machine State_ResponseChunkSize, d)
    = ChunkSizeEntered (Fire fuel) (machine State_ResponseChunkSize, d).
Proof. reflexivity. Qed.

Lemma Fire_Break_ChunkSize fuel d :
  Fire (S fuel) Trigger_Break (machine State_ResponseChunkSize, d)
    = ChunkEntered (Fire fuel) (machine State_ResponseChunk, d).
Proof. reflexivity. Qed.

Lemma Fire_Continue_Chunk fuel d :
  Fire (S fuel) Trigger_Continue (machine State_ResponseChunk, d)
    = ChunkEntered (Fire fuel) (machine State_ResponseChunk, d).
Proof. reflexivity. Qed.

Lemma Fire_Break_Chunk fuel d :
  Fire (S fuel) Trigger_Break (machine State_ResponseChunk, d)
    = ChunkSizeEntered (Fire fuel) (machine State_ResponseChunkSize, d).
Proof. reflexivity. Qed.

(** A size line with a size other than zero. *)
Lemma ChunkSizeEntered_line fire (m : Machine) (text rest : string) (n cl : N) t ev :
  mem CR text = false ->
  Convert_size_t 16 text = Some n ->
  n <> 0 ->
  size text + 2 < two64 ->
  ChunkSizeEntered fire
    (m, {| _buffer := text ++ CRLF ++ rest; _contentLength := cl; tcp := t; raised := ev |})
  = fire Trigger_Break
      (m, {| _buffer := rest; _contentLength := n; tcp := t; raised := ev |}).
Proof.
  intros Hcr Hconv Hn Hsize.
  unfold ChunkSizeEntered, get_buffer. unfold bind at 1.
  cbn [snd fst _buffer].
  rewrite (@find_first CR (String LF EmptyString) text rest Hcr : 
             find (text ++ CRLF ++ rest) CRLF 0 = size text).
  replace (size text =? npos) with false
    by (symmetry; apply N.eqb_neq; unfold npos, two64 in *; lia).
  unfold bind at 1. unfold substr.
  rewrite (@substr0_app text (CRLF ++ rest) (size text) eq_refl).
  unfold ret at 1. unfold bind at 1. rewrite Hconv. unfold convert, ret at 1.
  unfold bind at 1, set_contentLength, modify.
  cbn [snd fst _buffer _contentLength tcp raised].
  unfold bind at 1, set_buffer, modify.
  cbn [snd fst _buffer _contentLength tcp raised].
  replace (n =? 0) with false by (symmetry; now apply N.eqb_neq).
  rewrite size_add_small by assumption.
  rewrite <- app_assoc.
  rewrite (@erase0_app (text ++ CRLF) rest (size text + 2)).
  - reflexivity.
  - rewrite size_app. reflexivity.
Qed.

(** Content in the buffer while some is still expected: as much of it as
    is expected is handed over. *)
Lemma take_content_spec fire (m : Machine) (buffer : string) (cl : N) t ev :
  cl < two64 ->
  let count := if cl <? size buffer then cl else size buffer in
  take_content fire
    (m, {| _buffer := buffer; _contentLength := cl; tcp := t; raised := ev |})
  = fire Trigger_Continue
      (m, {| _buffer := drop (N.to_nat count) buffer;
             _contentLength := cl - count; tcp := t;
             raised := (ev ++ [ContentReceived (take (N.to_nat count) buffer)])%list |}).
Proof.
  intros Hcl count.
  assert (Hc : count <= size buffer /\ count <= cl).
  { unfold count. destruct (cl <? size buffer) eqn:E.
    - apply N.ltb_lt in E. lia.
    - apply N.ltb_ge in E. lia. }
  unfold take_content, get_buffer, get_contentLength.
  unfold bind at 1. cbn [snd fst _buffer _contentLength].
  unfold bind at 1. cbn [snd fst _buffer _contentLength].
  fold count.
  unfold bind at 1. unfold substr, StdString.substr.
  replace (size buffer <? 0) with false by (symmetry; apply N.ltb_ge; lia).
  rewrite N.sub_0_r, N.min_l by lia.
  change (N.to_nat 0) with 0%nat. unfold drop at 1.
  unfold ret at 1.
  unfold bind at 1, set_buffer, modify.
  cbn [snd fst _buffer _contentLength tcp raised].
  unfold bind at 1, set_contentLength, modify.
  cbn [snd fst _buffer _contentLength tcp raised].
  unfold bind at 1, raise, modify.
  cbn [snd fst _buffer _contentLength tcp raised].
  rewrite erase0_small by lia.
  rewrite size_sub_small by lia.
  reflexivity.
Qed.

Lemma ChunkEntered_content fire (m : Machine) (c : ascii) (buffer : string) (cl : N) t ev :
  cl <> 0 -> cl < two64 ->
  let b := String c buffer in
  let count := if cl <? size b then cl else size b in
  ChunkEntered fire
    (m, {| _buffer := b; _contentLength := cl; tcp := t; raised := ev |})
  = fire Trigger_Continue
      (m, {| _buffer := drop (N.to_nat count) b;
             _contentLength := cl - count; tcp := t;
             raised := (ev ++ [ContentReceived (take (N.to_nat count) b)])%list |}).
Proof.
  intros Hcl Hlt b count.
  unfold ChunkEntered, get_buffer, get_contentLength.
  unfold bind at 1. cbn [snd fst _buffer _contentLength].
  unfold bind at 1. cbn [snd fst _buffer _contentLength].
  replace (cl =? 0) with false by (symmetry; now apply N.eqb_neq).
  change (negb (empty b)) with true. cbv iota.
  now apply take_content_spec.
Qed.

Lemma ChunkEntered_end fire (m : Machine) (rest : string) t ev :
  ChunkEntered fire
    (m, {| _buffer := CRLF ++ rest; _contentLength := 0; tcp := t; raised := ev |})
  = fire Trigger_Break
      (m, {| _buffer := rest; _contentLength := 0; tcp := t; raised := ev |}).
Proof.
  unfold ChunkEntered, get_buffer, get_contentLength.
  unfold bind at 1. cbn [snd fst _buffer _contentLength].
  unfold bind at 1. cbn [snd fst _buffer _contentLength].
  change (0 =? 0) with true. cbv iota.
  replace (2 <=? size (CRLF ++ rest)) with true
    by (symmetry; apply N.leb_le; rewrite size_app; change (size CRLF) with 2; lia).
  change (take 2 (CRLF ++ rest)) with CRLF.
  change (String.eqb CRLF CRLF) with true. cbn [andb].
  unfold bind at 1, set_buffer, modify.
  cbn [snd fst _buffer _contentLength tcp raised].
  rewrite (@erase0_app CRLF rest 2 eq_refl). reflexivity.
Qed.

Lemma mem_CR_Format_x (n : N) : mem CR (Format_x n) = false.
Proof.
  unfold Format_x. apply mem_to_hex; [|reflexivity].
  intros d Hd. hex_cases Hd; reflexivity.
Qed.

Lemma size_Format_x (n : N) : size (Format_x n) <= 8.
Proof.
  unfold Format_x. generalize (n mod 4294967296). intros m.
  assert (H : forall rounds k acc,
             (String.length (to_hex rounds k acc) <= rounds + String.length acc)%nat).
  { induction rounds as [|rounds IH]; intros k acc; simpl; [lia|].
    destruct (k / 16 =? 0); simpl; [lia|].
    specialize (IH (k / 16) (String (hex_digit (k mod 16)) acc)). simpl in IH. lia. }
  specialize (H 8%nat m EmptyString).
  change (String.length EmptyString) with 0%nat in H. unfold size. lia.
Qed.

(** X10: what [Send(data)] writes for a chunk is read back as that chunk.
    The size of a non-empty [data] of less than 4294967296 bytes in
    hexadecimal, the line end, [data] and the line end, received in
    [State_ResponseChunkSize], raise one [ContentReceived] with exactly
    [data] and leave the client in [State_ResponseChunkSize] with an empty
    buffer, ready for the next chunk. *)
Theorem chunk_written_is_chunk_read (fuel : nat) (data : string) (cl : N)
    (t : TcpClient.Object) (ev : list Event) :
  data <> EmptyString ->
  size data < 4294967296 ->
  OnDataReceived (4 + fuel) (Format_x (size data) ++ CRLF ++ data ++ CRLF)
    (machine State_ResponseChunkSize,
     {| _buffer := ""; _contentLength := cl; tcp := t; raised := ev |})
  = Returns tt
      (machine State_ResponseChunkSize,
       {| _buffer := ""; _contentLength := 0; tcp := t;
          raised := (ev ++ [ContentReceived data])%list |}).
Proof.
  intros Hne Hsize.
  unfold OnDataReceived, get_buffer, set_buffer, bind at 1, bind at 1, modify.
  cbn [snd fst _buffer _contentLength tcp raised append].
  change (4 + fuel)%nat with (S (S (S (S fuel)))).
  rewrite Fire_Continue_ChunkSize.
  rewrite (@ChunkSizeEntered_line _ _ (Format_x (size data)) (data ++ CRLF)
             (size data) cl t ev).
  - rewrite Fire_Break_ChunkSize.
    destruct data as [|c data]; [congruence|].
    change (String c data ++ CRLF) with (String c (data ++ CRLF)).
    rewrite ChunkEntered_content.
    + change (String c (data ++ CRLF)) with (String c data ++ CRLF).
      set (d := String c data) in *.
      replace (size d <? size (d ++ CRLF)) with true
        by (symmetry; apply N.ltb_lt; rewrite size_app; change (size CRLF) with 2; lia).
      assert (Hnat : N.to_nat (size d) = String.length d)
        by (unfold size; apply Nat2N.id).
      rewrite Hnat, drop_app, take_app, N.sub_diag.
      rewrite Fire_Continue_Chunk.
      refine (eq_trans (@ChunkEntered_end _ _ EmptyString _ _) _).
      rewrite Fire_Break_Chunk. reflexivity.
    + intros H. unfold size in H. simpl in H. lia.
    + unfold two64. lia.
  - apply mem_CR_Format_x.
  - rewrite Convert_hexadecimal. f_equal. apply N.mod_small. assumption.
  - intros H. unfold size in H. destruct data; [congruence | simpl in H; lia].
  - pose proof (size_Format_x (size data)). unfold two64. lia.
Qed.

Lemma chunk_written_is_chunk_read_witness :
  OnDataReceived 4 ("3" ++ CRLF ++ "ABC" ++ CRLF)
    (machine State_ResponseChunkSize,
     {| _buffer := ""; _contentLength := 0;
        tcp := (TcpClient.machine TcpClient.State_Connected, Examples.fields);
        raised := [] |})
  = Returns tt
      (machine State_ResponseChunkSize,
       {| _buffer := ""; _contentLength := 0;
          tcp := (TcpClient.machine TcpClient.State_Connected, Examples.fields);
          raised := [ContentReceived "ABC"] |}).
Proof.
  apply (@chunk_written_is_chunk_read 0 "ABC" 0
           (TcpClient.machine TcpClient.State_Connected, Examples.fields) []).
  - discriminate.
  - reflexivity.
Defined.

(** *** A body of known length *)

Lemma Fire_Continue_Content fuel d :
  Fire (S fuel) Trigger_Continue (machine State_ResponseContent, d)
    = ContentEntered (Fire fuel) (machine State_ResponseContent, d).
Proof. reflexivity. Qed.

Lemma Fire_Break_Content fuel d :
  Fire (S fuel) Trigger_Break (machine State_ResponseContent, d)
    = EndEntered (machine State_EndOfResponse, d).
Proof. reflexivity. Qed.

Lemma ContentEntered_content fire (m : Machine) (b : string) (cl : N) t ev :
  cl <> 0 -> cl < two64 -> b <> EmptyString ->
  let count := if cl <? size b then cl else size b in
  ContentEntered fire
    (m, {| _buffer := b; _contentLength := cl; tcp := t; raised := ev |})
  = fire Trigger_Continue
      (m, {| _buffer := drop (N.to_nat count) b;
             _contentLength := cl - count; tcp := t;
             raised := (ev ++ [ContentReceived (take (N.to_nat count) b)])%list |}).
Proof.
  intros Hcl Hlt Hb count.
  unfold ContentEntered, get_buffer, get_contentLength.
  unfold bind at 1. cbn [snd fst _buffer _contentLength].
  unfold bind at 1. cbn [snd fst _buffer _contentLength].
  replace (cl =? 0) with false by (symmetry; now apply N.eqb_neq).
  replace (negb (empty b)) with true by (destruct b; [congruence | reflexivity]).
  now apply take_content_spec.
Qed.

Lemma size_pos (s : string) : s <> EmptyString -> 0 < size s.
Proof. destruct s; [congruence | unfold size; simpl String.length; lia]. Qed.

Lemma receive_content (fuel : nat) (pieces : list string) :
  forall (p : string) (t : TcpClient.Object) (ev : list Event),
    Forall (fun p => p <> EmptyString) (p :: pieces) ->
    size (join (p :: pieces)) < two64 ->
    receive (3 + fuel) (p :: pieces)
      (machine State_ResponseContent,
       {| _buffer := ""; _contentLength := size (join (p :: pieces)); tcp := t;
          raised := ev |})
    = Returns tt
        (machine State_EndOfResponse,
         {| _buffer := ""; _contentLength := 0; tcp := t;
            raised := (ev ++ map ContentReceived (p :: pieces) ++ [ResponseEnded])%list |}).
Proof.
  induction pieces as [|q pieces IH]; intros b t ev Hall Hsize;
    inversion Hall as [|? ? Hp Hrest]; subst;
    change (receive (3 + fuel) (b :: ?l))
      with (OnDataReceived (3 + fuel) b ;; receive (3 + fuel) l);
    unfold bind at 1;
    unfold OnDataReceived, get_buffer, set_buffer, bind at 1, bind at 1, modify;
    cbn [snd fst _buffer _contentLength tcp raised];
    change ("" ++ b) with b;
    change (3 + fuel)%nat with (S (S (S fuel)));
    rewrite Fire_Continue_Content;
    pose proof (size_pos Hp) as Hb;
    assert (Hnat : N.to_nat (size b) = String.length b)
      by (unfold size; apply Nat2N.id);
    change (join (b :: ?l)) with (b ++ join l) in *; rewrite size_app in *.
  - change (join []) with "" in *. change (size "") with 0 in *.
    rewrite N.add_0_r in *.
    rewrite ContentEntered_content by (try assumption; lia).
    rewrite N.ltb_irrefl, Hnat, drop_all, take_all, N.sub_diag.
    rewrite Fire_Continue_Content.
    change (ContentEntered (Fire (S fuel))
              (machine State_ResponseContent,
               {| _buffer := ""; _contentLength := 0; tcp := t;
                  raised := (ev ++ [ContentReceived b])%list |}))
      with (Fire (S fuel) Trigger_Break
              (machine State_ResponseContent,
               {| _buffer := ""; _contentLength := 0; tcp := t;
                  raised := (ev ++ [ContentReceived b])%list |})).
    rewrite Fire_Break_Content.
    unfold EndEntered, raise, modify. cbn [snd fst _buffer _contentLength tcp raised].
    simpl receive. unfold ret. simpl map. now rewrite <- List.app_assoc.
  - set (rest := size (join (q :: pieces))) in *.
    assert (Hq : 0 < rest).
    { inversion Hrest; subst. unfold rest.
      change (join (q :: pieces)) with (q ++ join pieces). rewrite size_app.
      assert (0 < size q) by now apply size_pos. lia. }
    rewrite ContentEntered_content by (try assumption; lia).
    replace (size b + rest <? size b) with false by (symmetry; apply N.ltb_ge; lia).
    rewrite Hnat, drop_all, take_all.
    replace (size b + rest - size b) with rest by lia.
    rewrite Fire_Continue_Content.
    change (ContentEntered (Fire (S fuel))
              (machine State_ResponseContent,
               {| _buffer := ""; _contentLength := rest; tcp := t;
                  raised := (ev ++ [ContentReceived b])%list |}))
      with ((if rest =? 0 then Fire (S fuel) Trigger_Break else ret tt)
              (machine State_ResponseContent,
               {| _buffer := ""; _contentLength := rest; tcp := t;
                  raised := (ev ++ [ContentReceived b])%list |})).
    replace (rest =? 0) with false by (symmetry; apply N.eqb_neq; lia).
    unfold ret at 1.
    specialize (IH q t (ev ++ [ContentReceived b])%list Hrest).
    fold rest in IH.
    change (3 + fuel)%nat with (S (S (S fuel))) in IH.
    rewrite IH by lia.
    simpl map. now rewrite <- List.app_assoc.
Qed.

(** X11: a body of announced length may arrive in any pieces. Received in
    [State_ResponseContent] with [_contentLength] the total length, each
    non-empty piece raises one [ContentReceived] with that piece, in order,
    and the last one is followed by [ResponseEnded], the client ending in
    [State_EndOfResponse] with nothing buffered. *)
Theorem content_of_known_length (fuel : nat) (pieces : list string)
    (t : TcpClient.Object) (ev : list Event) :
  pieces <> [] ->
  Forall (fun p => p <> EmptyString) pieces ->
  size (join pieces) < two64 ->
  receive (3 + fuel) pieces
    (machine State_ResponseContent,
     {| _buffer := ""; _contentLength := size (join pieces); tcp := t; raised := ev |})
  = Returns tt
      (machine State_EndOfResponse,
       {| _buffer := ""; _contentLength := 0; tcp := t;
          raised := (ev ++ map ContentReceived pieces ++ [ResponseEnded])%list |}).
Proof.
  intros Hne Hall Hsize. destruct pieces as [|p pieces]; [congruence|].
  now apply receive_content.
Qed.

Lemma content_of_known_length_witness :
  receive 3 ["ab"; "c"]
    (machine State_ResponseContent,
     {| _buffer := ""; _contentLength := 3;
        tcp := (TcpClient.machine TcpClient.State_Sending, Examples.fields);
        raised := [] |})
  = Returns tt
      (machine State_EndOfResponse,
       {| _buffer := ""; _contentLength := 0;
          tcp := (TcpClient.machine TcpClient.State_Sending, Examples.fields);
          raised := [ContentReceived "ab"; ContentReceived "c"; ResponseEnded] |}).
Proof.
  apply (@content_of_known_length 0 ["ab"; "c"]
           (TcpClient.machine TcpClient.State_Sending, Examples.fields) []).
  - discriminate.
  - repeat constructor; discriminate.
  - reflexivity.
Defined.

(** *** The end of the headers *)

(** X12: the blank line that ends the headers of a response which
    announced neither a length, nor chunks, nor [Connection: close], ends
    the response at once: [ResponseEnded] is raised, no content is, and
    whatever follows the blank line stays in the buffer of a client in
    [State_EndOfResponse]. *)
Theorem response_without_length (fuel : nat) (rest : string)
    (t : TcpClient.Object) (ev : list Event) :
  OnDataReceived (3 + fuel) (CRLF ++ rest)
    (machine State_ResponseHeaderLine,
     {| _buffer := ""; _contentLength := 0; tcp := t; raised := ev |})
  = Returns tt
      (machine State_EndOfResponse,
       {| _buffer := rest; _contentLength := 0; tcp := t;
          raised := (ev ++ [ResponseEnded])%list |}).
Proof.
  unfold OnDataReceived, get_buffer, set_buffer, bind at 1, bind at 1, modify.
  cbn [snd fst _buffer _contentLength tcp raised].
  change ("" ++ CRLF ++ rest) with (CRLF ++ rest).
  change (3 + fuel)%nat with (S (S (S fuel))).
  change (Fire (S (S (S fuel))) Trigger_Continue
            (machine State_ResponseHeaderLine, ?d))
    with (HeaderLineEntered (Fire (S (S fuel))) (machine State_ResponseHeaderLine, d)).
  unfold HeaderLineEntered, get_buffer. unfold bind at 1.
  cbn [snd fst _buffer].
  rewrite (@find_first CR (String LF EmptyString) EmptyString rest eq_refl
             : find (CRLF ++ rest) CRLF 0 = 0).
  change (0 =? npos) with false. change (0 =? 0) with true. cbv iota.
  unfold bind at 1, set_buffer, modify.
  cbn [snd fst _buffer _contentLength tcp raised].
  rewrite (@erase0_app CRLF rest 2 eq_refl).
  reflexivity.
Qed.

(** *** Data outside a response *)

(** X13: data that arrives while the client is not reading a response
    (connected with no request sent, while a request is being written, after
    the end of a response, or waiting for the disconnection) is appended to
    the buffer, and [OnDataReceived] throws [UndefinedTriggerException]. *)
Theorem data_outside_a_response (fuel : nat) (data : string) (s : State) (d : Fields) :
  awaits_response s = false ->
  OnDataReceived (S fuel) data (machine s, d)
    = Throws UndefinedTriggerException
        (machine s,
         {| _buffer := _buffer d ++ data; _contentLength := _contentLength d;
            tcp := tcp d; raised := raised d |}).
Proof.
  intros H. destruct s; try discriminate H; reflexivity.
Qed.

Lemma data_outside_a_response_witness :
  OnDataReceived 1 "HTTP/1.1 100 Continue"
    (machine State_RequestChunk,
     {| _buffer := ""; _contentLength := 0;
        tcp := (TcpClient.machine TcpClient.State_Sending, Examples.fields);
        raised := [] |})
  = Throws UndefinedTriggerException
      (machine State_RequestChunk,
       {| _buffer := "HTTP/1.1 100 Continue"; _contentLength := 0;
          tcp := (TcpClient.machine TcpClient.State_Sending, Examples.fields);
          raised := [] |}).
Proof.
  exact (@data_outside_a_response 0 "HTTP/1.1 100 Continue" State_RequestChunk
           {| _buffer := ""; _contentLength := 0;
              tcp := (TcpClient.machine TcpClient.State_Sending, Examples.fields);
              raised := [] |} eq_refl).
Defined.

(** *** A header line *)

Lemma mem_app (c : ascii) (a b : string) : mem c (a ++ b) = mem c a || mem c b.
Proof.
  induction a as [|x a IH]; simpl; [reflexivity|].
  now rewrite IH, orb_assoc.
Qed.

(** The line [key ':' sep value CRLF] at the front of the buffer: the key
    is what stands before the colon, the character after the colon is
    passed over, and the value is what follows up to the end of the
    line. *)
Lemma HeaderLineEntered_line fire (m : Machine) (key value rest : string) (sep : ascii)
    (cl : N) t ev :
  mem ":" key = false ->
  mem CR key = false -> Ascii.eqb CR sep = false -> mem CR value = false ->
  size key + size value + 4 < two64 ->
  HeaderLineEntered fire
    (m, {| _buffer := key ++ String ":" (String sep value) ++ CRLF ++ rest;
           _contentLength := cl; tcp := t; raised := ev |})
  = (if String.eqb (ToLowerCase key) "transfer-encoding"
        && String.eqb (ToLowerCase value) "chunked"
     then fire Trigger_TransferEncodingChunked
     else if String.eqb (ToLowerCase key) "content-length" then
       length <- convert (Convert_size_t 10 value) ;;
       set_contentLength length ;;
       fire Trigger_ContentLength
     else if String.eqb (ToLowerCase key) "connection"
             && String.eqb (ToLowerCase value) "close"
     then fire Trigger_ConnectionClose
     else fire Trigger_Continue)
      (m, {| _buffer := rest; _contentLength := cl; tcp := t;
             raised := (ev ++ [HeaderReceived key value])%list |}).
Proof.
  intros Hcolon Hcr Hsep Hcrv Hsize.
  set (line := key ++ String ":" (String sep value)).
  assert (Hline : size line = size key + size value + 2).
  { unfold line. rewrite size_app. unfold size. simpl String.length. lia. }
  assert (Hmem : mem CR line = false).
  { unfold line. rewrite mem_app, Hcr. cbn [mem orb].
    change (Ascii.eqb CR ":") with false. cbn [orb]. now rewrite Hsep, Hcrv. }
  assert (Hbuf : key ++ String ":" (String sep value) ++ CRLF ++ rest
                 = line ++ CRLF ++ rest).
  { unfold line. now rewrite <- !app_assoc. }
  unfold HeaderLineEntered, get_buffer. unfold bind at 1.
  cbn [snd fst _buffer]. rewrite Hbuf.
  rewrite (@find_first CR (String LF EmptyString) line rest Hmem
             : find (line ++ CRLF ++ rest) CRLF 0 = size line).
  replace (size line =? npos) with false
    by (symmetry; apply N.eqb_neq; unfold npos, two64 in *; lia).
  replace (size line =? 0) with false by (symmetry; apply N.eqb_neq; lia).
  rewrite <- Hbuf.
  rewrite (@find_first ":" EmptyString key (String sep value ++ CRLF ++ rest) Hcolon
             : find (key ++ String ":" (String sep value) ++ CRLF ++ rest) ":" 0
               = size key).
  replace (size key =? npos) with false
    by (symmetry; apply N.eqb_neq; unfold npos, two64 in *; lia).
  unfold bind at 1. unfold substr.
  rewrite (@substr0_app key _ (size key) eq_refl).
  unfold ret at 1. unfold bind at 1.
  rewrite size_add_small by lia.
  rewrite Hline.
  rewrite (@size_sub_small (size key + size value + 2) (size key)) by lia.
  rewrite size_sub_small by lia.
  replace (size key + size value + 2 - size key - 2) with (size value) by lia.
  replace (key ++ String ":" (String sep value) ++ CRLF ++ rest)
    with ((key ++ String ":" (String sep EmptyString)) ++ value ++ CRLF ++ rest)
    by (rewrite app_assoc; reflexivity).
  replace (size key + 2) with (size (key ++ String ":" (String sep EmptyString)))
    by (rewrite size_app; reflexivity).
  rewrite substr_app.
  unfold ret at 1.
  unfold bind at 1, set_buffer, modify.
  cbn [snd fst _buffer _contentLength tcp raised].
  unfold bind at 1, raise, modify.
  cbn [snd fst _buffer _contentLength tcp raised].
  rewrite size_add_small by lia.
  replace ((key ++ String ":" (String sep EmptyString)) ++ value ++ CRLF ++ rest)
    with ((line ++ CRLF) ++ rest)
    by (unfold line; rewrite !app_assoc; reflexivity).
  rewrite (@erase0_app (line ++ CRLF) rest).
  - reflexivity.
  - rewrite !size_app. change (size CRLF) with 2.
    change (size (String ":" (String sep ""))) with 2. rewrite Hline. lia.
Qed.

(** X14: a complete header line [key:] separator [value] line-end received
    in [State_ResponseHeaderLine] raises [HeaderReceived] with the key and
    the value, the one character after the colon being dropped whatever it
    is, and then goes by the lower-cased key and value: to the chunked
    state for [transfer-encoding: chunked]; for [content-length] to the
    content-length state with the value read as a decimal size, or an
    [InvalidFormatException] with the state unchanged when the value is no
    number; to the connection-close state for [connection: close]; and back
    to [State_ResponseHeaderLine] otherwise. *)
Theorem header_line_received (fuel : nat) (key value : string) (sep : ascii) (cl : N)
    (t : TcpClient.Object) (ev : list Event) :
  mem ":" key = false ->
  mem CR key = false -> Ascii.eqb CR sep = false -> mem CR value = false ->
  size key + size value + 4 < two64 ->
  let received :=
    OnDataReceived (2 + fuel) (key ++ String ":" (String sep value) ++ CRLF)
      (machine State_ResponseHeaderLine,
       {| _buffer := ""; _contentLength := cl; tcp := t; raised := ev |}) in
  let after (length : N) : Fields :=
    {| _buffer := ""; _contentLength := length; tcp := t;
       raised := (ev ++ [HeaderReceived key value])%list |} in
  let chunked :=
    String.eqb (ToLowerCase key) "transfer-encoding"
    && String.eqb (ToLowerCase value) "chunked" in
  let length := String.eqb (ToLowerCase key) "content-length" in
  let close :=
    String.eqb (ToLowerCase key) "connection"
    && String.eqb (ToLowerCase value) "close" in
  (chunked = true ->
     received
       = Returns tt (machine State_ResponseHeaderLineAndTransferEncodingChunked, after cl))
  /\ (chunked = false -> length = true ->
      match Convert_size_t 10 value with
      | Some n =>
          received
            = Returns tt (machine State_ResponseHeaderLineAndContentLength, after n)
      | None =>
          received
            = Throws InvalidFormatException (machine State_ResponseHeaderLine, after cl)
      end)
  /\ (chunked = false -> length = false -> close = true ->
      received = Returns tt (machine State_ResponseHeaderLineConnectionClose, after cl))
  /\ (chunked = false -> length = false -> close = false ->
      received = Returns tt (machine State_ResponseHeaderLine, after cl)).
Proof.
  intros Hcolon Hcr Hsep Hcrv Hsize received after chunked length close.
  assert (E : received
              = HeaderLineEntered (Fire (S fuel))
                  (machine State_ResponseHeaderLine,
                   {| _buffer := key ++ String ":" (String sep value) ++ CRLF ++ "";
                      _contentLength := cl; tcp := t; raised := ev |}))
    by reflexivity.
  rewrite (@HeaderLineEntered_line (Fire (S fuel)) _ key value "" sep cl t ev
             Hcolon Hcr Hsep Hcrv Hsize) in E.
  fold chunked length close in E. rewrite E. clear E.
  split; [|split; [|split]].
  - intros ->. reflexivity.
  - intros -> ->. unfold bind at 1.
    destruct (Convert_size_t 10 value) as [n|]; reflexivity.
  - intros -> -> ->. reflexivity.
  - intros -> -> ->. reflexivity.
Qed.

Lemma header_line_received_witness :
  OnDataReceived 2 ("Content-Length: 42" ++ CRLF)
    (machine State_ResponseHeaderLine,
     {| _buffer := ""; _contentLength := 0;
        tcp := (TcpClient.machine TcpClient.State_Sending, Examples.fields);
        raised := [] |})
  = Returns tt
      (machine State_ResponseHeaderLineAndContentLength,
       {| _buffer := ""; _contentLength := 42;
          tcp := (TcpClient.machine TcpClient.State_Sending, Examples.fields);
          raised := [HeaderReceived "Content-Length" "42"] |}).
Proof.
  exact (proj1 (proj2 (@header_line_received 0 "Content-Length" "42" " " 0
                         (TcpClient.machine TcpClient.State_Sending, Examples.fields) []
                         eq_refl eq_refl eq_refl eq_refl eq_refl))
           eq_refl eq_refl).
Defined.

(** *** The order of the calls that build a request *)

(** X15: the calls that write a request are refused out of order, with
    [UndefinedTriggerException] and nothing written or changed: [Begin]
    outside [State_Connected] and [State_EndOfResponse]; [SendHeader]
    outside the action-line and header-line states; [Send] outside those
    and [State_RequestChunk]; [End] outside [State_RequestChunk], that is
    before a first [Send]. *)
Theorem request_calls_out_of_order (fuel : nat) (s : State) (d : Fields) :
  let refused := Throws UndefinedTriggerException (machine s, d) in
  (forall method path protocol,
     s <> State_Connected -> s <> State_EndOfResponse ->
     Begin (S fuel) method path protocol (machine s, d) = refused)
  /\ (forall key value,
        s <> State_RequestActionLine -> s <> State_RequestHeaderLine ->
        SendHeader (S fuel) key value (machine s, d) = refused)
  /\ (forall data,
        s <> State_RequestActionLine -> s <> State_RequestHeaderLine ->
        s <> State_RequestChunk ->
        Send (S fuel) data (machine s, d) = refused)
  /\ (s <> State_RequestChunk -> End (S fuel) (machine s, d) = refused).
Proof.
  intros refused. unfold refused.
  split; [|split; [|split]]; intros; destruct s; try congruence; reflexivity.
Qed.

Lemma request_calls_out_of_order_witness :
  End 1 (machine State_RequestHeaderLine,
         {| _buffer := ""; _contentLength := 0;
            tcp := (TcpClient.machine TcpClient.State_Sending, Examples.fields);
            raised := [] |})
  = Throws UndefinedTriggerException
      (machine State_RequestHeaderLine,
       {| _buffer := ""; _contentLength := 0;
          tcp := (TcpClient.machine TcpClient.State_Sending, Examples.fields);
          raised := [] |}).
Proof.
  refine (proj2 (proj2 (proj2 (@request_calls_out_of_order 0 State_RequestHeaderLine
                                 _))) _).
  discriminate.
Defined.

(** *** The connection going down *)

(** X16: what the loss of the connection does, state by state. While the
    content runs until the connection closes, it ends the response:
    [ResponseEnded] is raised and the client waits for the disconnection in
    [State_WaitForDisconnect]; in [State_WaitForConnection] it is an
    [UndefinedTriggerException]; in every other state the client goes back
    to [State_WaitForConnection] with its buffer cleared and no event
    raised, a response cut short included. *)
Theorem disconnected_while (fuel : nat) (s : State) (d : Fields) :
  OnClientDisconnected (S (S fuel)) (machine s, d)
  = match s with
    | State_WaitForConnection =>
        Throws UndefinedTriggerException (machine s, d)
    | State_ResponseContentUntilClosed =>
        Returns tt
          (machine State_WaitForDisconnect,
           {| _buffer := _buffer d; _contentLength := _contentLength d; tcp := tcp d;
              raised := (raised d ++ [ResponseEnded])%list |})
    | _ =>
        Returns tt
          (machine State_WaitForConnection,
           {| _buffer := ""; _contentLength := _contentLength d; tcp := tcp d;
              raised := raised d |})
    end.
Proof. destruct s; reflexivity. Qed.

End HttpClientBehaviour.

Module StateMachineBehaviour.
Import StateMachine StateMachineTheory.

Section Behaviour.

Context {StateType TriggerType : Type}.
Context {StateOrd : Ordered StateType} {TriggerOrd : Ordered TriggerType}.
Variables Handler Guard World : Type.
Variable invoke : Handler -> M (Object StateType TriggerType Handler Guard World) unit.
Variable holds : Guard -> StateType -> World -> bool.

Local Abbreviation Machine := (StateMachine StateType TriggerType Handler Guard).
Local Abbreviation Config := (StateConfiguration StateType TriggerType Handler Guard).

(** **** A guard that is an empty delegate *)

Lemma own_loop_app (m : Machine) (w : World) before rest result :
  Forall (fun t => is_bound t = true) before ->
  own_loop holds (before ++ rest) result (m, w) =
    match result, filter (guard_holds holds m w) before with
    | _, [] => own_loop holds rest result (m, w)
    | None, [t] => own_loop holds rest (Some t) (m, w)
    | _, _ => Throws MultipleTriggerException (m, w)
    end.
Proof.
  revert result. induction before as [|i before IH]; intros result Hb.
  - destruct result; reflexivity.
  - inversion Hb as [|? ? Hi Hrest]; subst.
    simpl app. simpl own_loop. unfold bind at 1.
    rewrite (CanTransition_bound holds w i (extends_refl m) Hi).
    simpl filter.
    destruct (guard_holds holds m w i).
    + destruct result as [r|].
      * reflexivity.
      * rewrite (IH _ Hrest).
        destruct (filter (guard_holds holds m w) before) as [|x l]; [reflexivity|].
        reflexivity.
    + apply IH. assumption.
Qed.

(** X17: a transition permitted with an empty guard delegate makes [Fire]
    throw [EmptyDelegateException] as soon as the scan of the transitions
    of the current state for the trigger reaches it (the guards before it
    being bound, with at most one that holds): no handler runs and the
    state does not change. *)
Theorem Fire_unbound_guard (m : Machine) (w : World) (trigger : TriggerType)
    (c : Config) (before rest : list (TriggerConfiguration StateType Guard))
    (t : TriggerConfiguration StateType Guard) :
  find (_state m) (_stateConfigurations m) = Some c ->
  equal_range trigger c = before ++ t :: rest ->
  Forall (fun t => is_bound t = true) before ->
  List.length (filter (guard_holds holds m w) before) <= 1 ->
  _predicate t = Unbound ->
  forall depth,
    Fire invoke holds (S depth) trigger (m, w) = Throws EmptyDelegateException (m, w).
Proof.
  intros Hc Hrange Hb Hone Ht depth.
  unfold Fire. unfold bind at 1. unfold CanFire, State. simpl fst. rewrite Hc.
  unfold bind at 1. simpl Transition. unfold bind at 1.
  rewrite Hrange, (own_loop_app m w (t :: rest) None Hb).
  assert (E : forall r, own_loop holds (t :: rest) r (m, w)
                        = Throws EmptyDelegateException (m, w)).
  { intros r. simpl. unfold bind, CanTransition. now rewrite Ht. }
  destruct (filter (guard_holds holds m w) before) as [|x [|y l]].
  - now rewrite E.
  - now rewrite E.
  - simpl in Hone. lia.
Qed.

(** **** Handlers that throw *)

(** X18: an exception thrown by a handler leaves [Fire] half done. When
    the exit handler of the current state throws, the state is unchanged;
    when there is no exit handler and the entry handler of the destination
    throws, the machine is already in the destination: the exception
    reaches the caller of [Fire] with the transition made. *)
Theorem Fire_handler_throws (m : Machine) (w : World) (trigger : TriggerType)
    (destination : StateType) (h : Handler) (e : exception) :
  Provides holds m w trigger (_state m) destination ->
  (forall o, invoke h o = Throws e o) ->
  (_stateExited (configuration m (_state m)) = Bound h ->
     exists n, forall depth, n <= depth ->
       exists m', _state m' = _state m /\
         Fire invoke holds depth trigger (m, w) = Throws e (m', w))
  /\ (_stateExited (configuration m (_state m)) = Unbound ->
      _stateEntered (configuration m destination) = Bound h ->
      exists n, forall depth, n <= depth ->
        exists m', _state m' = destination /\
          Fire invoke holds depth trigger (m, w) = Throws e (m', w)).
Proof.
  intros Hp Hh.
  destruct (@Fire_selects _ _ _ _ _ _ _ invoke holds m w trigger (Some destination) Hp)
    as [n Hn].
  split.
  - intros Hexit. exists n. intros depth Hd.
    destruct (Hn depth Hd) as [m' [[Hs _] E]].
    exists m'. split; [exact Hs|].
    rewrite E. unfold fired, OnStateExited. rewrite Hexit.
    unfold bind at 1. simpl call. now rewrite Hh.
  - intros Hexit Hentry. exists n. intros depth Hd.
    destruct (Hn depth Hd) as [m' [[Hs Hc] E]].
    rewrite E. unfold fired, OnStateExited. rewrite Hexit.
    unfold bind at 1. simpl call. unfold ret at 1.
    unfold bind at 1, modify, DefaultStateMutator. simpl fst. simpl snd.
    set (m1 := {| _stateConfigurations := _stateConfigurations m';
                  _state := destination |}).
    destruct (lookup_spec destination m1 w) as [m2 [[Hs2 Hc2] E2]].
    exists m2. split; [exact Hs2|].
    unfold bind at 1. rewrite E2.
    assert (Hcfg : configuration m1 destination = configuration m destination).
    { rewrite <- Hc. reflexivity. }
    rewrite Hcfg. unfold OnStateEntered. rewrite Hentry. simpl call. apply Hh.
Qed.

(** **** The configuration table *)

(** X19: [Configure(s)] followed by builder calls changes the
    configuration of [s] only: the table then holds, for [s], the result of
    the calls on the configuration [s] had (a fresh one when it had none),
    the configurations of the other states are as before, and so is the
    current state. *)
Theorem Configuring_lookup (s : StateType) (f : Config -> Config) (m : Machine) :
  find s (_stateConfigurations (Configuring s f m)) = Some (f (configuration m s))
  /\ (forall s', s' <> s ->
        find s' (_stateConfigurations (Configuring s f m))
          = find s' (_stateConfigurations m))
  /\ _state (Configuring s f m) = _state m.
Proof.
  unfold Configuring, Configure, configuration.
  destruct (find s (_stateConfigurations m)) as [c|] eqn:E; simpl.
  - split; [apply find_assign_same|]. split; [|reflexivity].
    intros s' Hne. now apply find_assign_other.
  - split; [apply find_assign_same|]. split; [|reflexivity].
    intros s' Hne. now rewrite !find_assign_other.
Qed.

End Behaviour.
Lemma Fire_unbound_guard_witness :
  Fire (TcpClient.invoke (TcpClient.Fire 3)) TcpClient.holds 1 TcpClient.Trigger_Connect
    (Examples.unguarded, Examples.fields)
  = Throws EmptyDelegateException (Examples.unguarded, Examples.fields).
Proof.
  refine (@Fire_unbound_guard _ _ _ _ _ _ _ (TcpClient.invoke (TcpClient.Fire 3))
            TcpClient.holds Examples.unguarded Examples.fields TcpClient.Trigger_Connect
            _ [] [] _ eq_refl eq_refl _ _ eq_refl 0).
  - constructor.
  - simpl. lia.
Defined.

Lemma Fire_handler_throws_witness :
  let m := TcpClient.machine TcpClient.State_Connecting in
  Provides TcpClient.holds m Examples.fields TcpClient.Trigger_Disconnected (_state m)
    TcpClient.State_Disconnected
  /\ exists n, forall depth, n <= depth ->
       exists m', _state m' = TcpClient.State_Disconnected /\
         Fire Examples.throwing TcpClient.holds depth TcpClient.Trigger_Disconnected
           (m, Examples.fields)
         = Throws SendException (m', Examples.fields).
Proof.
  intros m.
  assert (Hp : Provides TcpClient.holds m Examples.fields TcpClient.Trigger_Disconnected
                 (_state m) TcpClient.State_Disconnected).
  { apply (@Provides_own _ _ _ _ _ _ _ TcpClient.holds m Examples.fields
             TcpClient.Trigger_Disconnected TcpClient.State_Connecting
             {| _destination := TcpClient.State_Disconnected;
                _predicate := Bound (DefaultPredicate TcpClient.Guard) |}).
    - repeat constructor.
    - reflexivity. }
  split; [exact Hp|].
  exact (proj2 (@Fire_handler_throws _ _ _ _ _ _ _ Examples.throwing TcpClient.holds m
                  Examples.fields TcpClient.Trigger_Disconnected
                  TcpClient.State_Disconnected TcpClient.Disconnected_OnEntry_
                  SendException Hp (fun o => eq_refl))
           eq_refl eq_refl).
Defined.

Lemma Configuring_lookup_witness :
  find TcpClient.State_Connected
    (_stateConfigurations
       (Configuring TcpClient.State_Idle
          (TcpClient.permit TcpClient.Trigger_Timeout TcpClient.State_Disconnected)
          TcpClient.configured))
  = find TcpClient.State_Connected (_stateConfigurations TcpClient.configured).
Proof.
  refine (proj1 (proj2 (@Configuring_lookup _ _ _ _ _ TcpClient.State_Idle
                          (TcpClient.permit TcpClient.Trigger_Timeout
                             TcpClient.State_Disconnected)
                          TcpClient.configured)) TcpClient.State_Connected _).
  discriminate.
Defined.

End StateMachineBehaviour.

Module XmlBehaviour.
Import StdString StdStringTheory StringBehaviour XmlElement XmlElementTheory Xml.
Local Open Scope string_scope.
Local Open Scope list_scope.

(** *** Looking up what a look-up inserted *)

Lemma find_from_insert (V : Type) (key : string) (v : V) (l : list (string * V)) :
  forall k,
    find_from key l k = None ->
    find_from key (fst (multimap_insert key v l)) k
      = Some (k + snd (multimap_insert key v l)).
Proof.
  induction l as [|[k0 v0] l IH]; intros k Hnone; simpl.
  - rewrite String.eqb_refl. f_equal. lia.
  - simpl in Hnone. destruct (String.eqb key k0) eqn:E; [discriminate|].
    destruct (String.ltb key k0).
    + simpl. rewrite String.eqb_refl. f_equal. lia.
    + specialize (IH (S k) Hnone).
      destruct (multimap_insert key v l) as [r i]. simpl in *.
      rewrite E, IH. f_equal. lia.
Qed.

Lemma lookup_again (e : XmlElement) (ns name : string) :
  (Element ns name (fst (Element ns name e)) = Element ns name e
   /\ Element_const ns name (fst (Element ns name e)) = snd (Element ns name e))
  /\ (Attribute ns name (fst (Attribute ns name e)) = Attribute ns name e
      /\ Attribute_const ns name (fst (Attribute ns name e))
         = snd (Attribute ns name e)).
Proof.
  split.
  - unfold Element, Element_const, Add, find.
    destruct (find_from (Key ns name) (Elements e) 0) as [i|] eqn:E.
    + simpl. unfold find. rewrite E. split; reflexivity.
    + pose proof (find_from_insert (Key ns name) (make ns name) (Elements e) 0 E) as H.
      destruct (multimap_insert (Key ns name) (make ns name) (Elements e)) as [l i].
      simpl in *. unfold find. rewrite H. split; reflexivity.
  - unfold Attribute, Attribute_const, find.
    destruct (find_from (Key ns name) (Attributes e) 0) as [i|] eqn:E.
    + simpl. unfold find. rewrite E. split; reflexivity.
    + rewrite map_insert_multimap_insert.
      pose proof (find_from_insert (Key ns name) (XmlAttribute.make ns name)
                    (Attributes e) 0 E) as H.
      destruct (multimap_insert (Key ns name) (XmlAttribute.make ns name) (Attributes e))
        as [l i].
      simpl in *. unfold find. rewrite H. split; reflexivity.
Qed.

(** X20: looking a child element or an attribute up twice gives the same
    as once: the first non-const lookup may add an empty entry, the second
    finds it and changes nothing, and the const lookup then returns the same
    entry. *)
Theorem lookup_is_stable (e : XmlElement) (ns name : string) :
  (Element ns name (fst (Element ns name e)) = Element ns name e
   /\ Element_const ns name (fst (Element ns name e)) = snd (Element ns name e))
  /\ (Attribute ns name (fst (Attribute ns name e)) = Attribute ns name e
      /\ Attribute_const ns name (fst (Attribute ns name e))
         = snd (Attribute ns name e)).
Proof. apply lookup_again. Qed.

(** *** Keys ignore case *)

Lemma map_chars_app (f : ascii -> ascii) (a b : string) :
  map_chars f (a ++ b)%string = (map_chars f a ++ map_chars f b)%string.
Proof. induction a as [|c a IH]; simpl; [reflexivity | now rewrite IH]. Qed.

Lemma Key_lower (ns name : string) :
  Key ns name = (ToLowerCase ns ++ ":" ++ ToLowerCase name)%string.
Proof. unfold Key, ToLowerCase. now rewrite !map_chars_app. Qed.

Lemma Element_entry (e : XmlElement) (ns name : string) :
  exists i, snd (Element ns name e) = ToEntry i.
Proof.
  unfold Element, Add. destruct (find (Key ns name) (Elements e)) as [i|].
  - now exists i.
  - destruct (multimap_insert (Key ns name) (make ns name) (Elements e)) as [l i].
    now exists i.
Qed.

Lemma Attribute_entry (e : XmlElement) (ns name : string) :
  exists i, snd (Attribute ns name e) = ToEntry i.
Proof.
  unfold Attribute. destruct (find (Key ns name) (Attributes e)) as [i|].
  - now exists i.
  - destruct (map_insert (Key ns name) (XmlAttribute.make ns name) (Attributes e))
      as [l i].
    now exists i.
Qed.

(** X21: the names of child elements and attributes are looked up without
    regard to case, name space included: two spellings with the same
    lower-case form give the same result for the const lookups, and the
    non-const lookup with one spelling finds the entry made with the
    other instead of adding a second one. *)
Theorem lookup_ignores_case (e : XmlElement) (ns name ns' name' : string) :
  ToLowerCase ns = ToLowerCase ns' ->
  ToLowerCase name = ToLowerCase name' ->
  (Element_const ns' name' e = Element_const ns name e
   /\ Element ns' name' (fst (Element ns name e)) = Element ns name e)
  /\ (Attribute_const ns' name' e = Attribute_const ns name e
      /\ Attribute ns' name' (fst (Attribute ns name e)) = Attribute ns name e).
Proof.
  intros Hns Hname.
  assert (Hk : Key ns' name' = Key ns name) by (rewrite !Key_lower; congruence).
  destruct (lookup_again e ns name) as [[E1 E2] [A1 A2]].
  split; split.
  - unfold Element_const. now rewrite Hk.
  - destruct (Element_entry e ns name) as [i Hi].
    rewrite Hi in E2. unfold Element_const in E2.
    unfold Element at 1. rewrite Hk.
    destruct (find (Key ns name) (Elements (fst (Element ns name e)))) as [j|];
      [|discriminate E2].
    rewrite E2, <- Hi. now destruct (Element ns name e).
  - unfold Attribute_const. now rewrite Hk.
  - destruct (Attribute_entry e ns name) as [i Hi].
    rewrite Hi in A2. unfold Attribute_const in A2.
    unfold Attribute at 1. rewrite Hk.
    destruct (find (Key ns name) (Attributes (fst (Attribute ns name e)))) as [j|];
      [|discriminate A2].
    rewrite A2, <- Hi. now destruct (Attribute ns name e).
Qed.

Lemma lookup_ignores_case_witness :
  Attribute_const "" "ATTR1" UnitTest_document
    = Attribute_const "" "attr1" UnitTest_document
  /\ Attribute "" "ATTR1" (fst (Attribute "" "attr1" UnitTest_document))
     = Attribute "" "attr1" UnitTest_document.
Proof.
  exact (proj2 (@lookup_ignores_case UnitTest_document "" "attr1" "" "ATTR1"
                  eq_refl eq_refl)).
Defined.

End XmlBehaviour.

Module ProgressiveParserBehaviour.
Import StdString StdStringTheory StringBehaviour ProgressiveParser.
Local Open Scope string_scope.

(** *** Text in front of the first tag *)

Lemma Append_stalled (fuel : nat) (c : ascii) (b chunk : string) l ev :
  Ascii.eqb c "<" = false ->
  Append (S fuel) chunk
    (machine State_OpenElement,
     {| _buffer := String c b; _elementNamespaceAndName := l; raised := ev |})
  = Returns tt
      (machine State_OpenElement,
       {| _buffer := String c (b ++ chunk); _elementNamespaceAndName := l;
          raised := ev |}).
Proof.
  intros Hc.
  change (Append (S fuel) chunk
            (machine State_OpenElement,
             {| _buffer := String c b; _elementNamespaceAndName := l; raised := ev |}))
    with (State_OpenElement_Entered (Fire fuel)
            (machine State_OpenElement,
             {| _buffer := String c (b ++ chunk); _elementNamespaceAndName := l;
                raised := ev |})).
  unfold State_OpenElement_Entered, expect, get_buffer, at0, bind. simpl.
  now rewrite Hc.
Qed.

Lemma feed_stalled (fuel : nat) (c : ascii) (chunks : list string) :
  Ascii.eqb c "<" = false ->
  forall b l ev,
    feed (S fuel) chunks
      (machine State_OpenElement,
       {| _buffer := String c b; _elementNamespaceAndName := l; raised := ev |})
    = Returns tt
        (machine State_OpenElement,
         {| _buffer := String c (b ++ join chunks); _elementNamespaceAndName := l;
            raised := ev |}).
Proof.
  intros Hc. induction chunks as [|chunk chunks IH]; intros b l ev.
  - simpl. unfold ret. now rewrite app_empty_r.
  - change (feed (S fuel) (chunk :: chunks))
      with (Append (S fuel) chunk ;; feed (S fuel) chunks).
    unfold bind. rewrite (@Append_stalled fuel c b chunk l ev Hc).
    rewrite IH. simpl join. now rewrite app_assoc.
Qed.

(** X22: a document that does not start with [<] is never parsed. When the
    first piece given to the parser starts with another character, every
    piece is appended to the buffer, no event is raised and the parser stays
    in [State_OpenElement], whatever the pieces hold. *)
Theorem text_before_the_root (fuel : nat) (c : ascii) (rest : string)
    (chunks : list string) :
  c <> "<"%char ->
  feed (S fuel) (String c rest :: chunks) construct
    = Returns tt
        (machine State_OpenElement,
         {| _buffer := join (String c rest :: chunks);
            _elementNamespaceAndName := []; raised := [] |}).
Proof.
  intros Hc. apply Ascii.eqb_neq in Hc.
  change (feed (S fuel) (String c rest :: chunks) construct)
    with (match State_OpenElement_Entered (Fire fuel)
                  (machine State_OpenElement,
                   {| _buffer := String c rest; _elementNamespaceAndName := [];
                      raised := [] |}) with
          | Returns _ o => feed (S fuel) chunks o
          | Throws e o => Throws e o
          | OutOfFuel => OutOfFuel
          end).
  unfold State_OpenElement_Entered, expect, get_buffer, at0, bind. simpl.
  rewrite Hc. unfold ret.
  now rewrite (@feed_stalled fuel c chunks Hc).
Qed.

Lemma text_before_the_root_witness :
  feed 1 [" "; "<a/>"] construct
    = Returns tt
        (machine State_OpenElement,
         {| _buffer := " <a/>"; _elementNamespaceAndName := []; raised := [] |}).
Proof.
  apply (@text_before_the_root 0 " " "" ["<a/>"]). discriminate.
Defined.

(** *** The declaration *)

(** X23: a declaration [<?] body [?>] at the start of the input is
    skipped without an event: the parser continues with what follows as if
    the input had started there. The body holds no [?] and does not start
    with [>]. *)
Theorem declaration_is_skipped (fuel : nat) (body rest : string) :
  mem "?" body = false ->
  (forall b, body <> String ">" b) ->
  (size body + 3 < two64)%N ->
  Append (3 + fuel) ("<?" ++ body ++ "?>" ++ rest) construct
    = Append fuel rest construct.
Proof.
  intros Hq Hgt Hsize.
  change (Append (3 + fuel) ("<?" ++ body ++ "?>" ++ rest) construct)
    with (State_OpenElement_Entered (Fire (2 + fuel))
            (machine State_OpenElement,
             {| _buffer := String "<" ("?" ++ body ++ "?>" ++ rest);
                _elementNamespaceAndName := []; raised := [] |})).
  unfold State_OpenElement_Entered, expect, get_buffer, at0. unfold bind at 1.
  cbn [snd fst _buffer empty negb StdString.at0].
  unfold bind at 1, ret at 1. change (Ascii.eqb "<" "<") with true. cbv iota.
  unfold bind at 1, set_buffer, modify.
  cbn [snd fst _buffer _elementNamespaceAndName raised].
  rewrite (@erase0_cons "<" ("?" ++ body ++ "?>" ++ rest) 1 eq_refl).
  change (1 - 1)%N with 0%N.
  assert (E0 : forall s, erase0 s 0 = s)
    by (intros s0; unfold erase0; now rewrite N.min_0_l).
  rewrite E0.
  change (Fire (2 + fuel) Trigger_OpenElementReceived
            (machine State_OpenElement,
             {| _buffer := "?" ++ body ++ "?>" ++ rest;
                _elementNamespaceAndName := []; raised := [] |}))
    with (State_IgnoreDeclaration_Entered (Fire fuel)
            (machine State_IgnoreDeclaration,
             {| _buffer := "?" ++ body ++ "?>" ++ rest;
                _elementNamespaceAndName := []; raised := [] |})).
  assert (Hfind : find ("?" ++ body ++ "?>" ++ rest) "?>" 0 = (1 + size body)%N).
  { unfold find.
    replace (size ("?" ++ body ++ "?>" ++ rest) <? 0)%N with false
      by (symmetry; apply N.ltb_ge; lia).
    change (N.to_nat 0) with 0%nat. unfold drop.
    change ("?" ++ body ++ "?>" ++ rest) with (String "?" (body ++ "?>" ++ rest)).
    assert (Hp : String.prefix "?>" (String "?" (body ++ "?>" ++ rest)) = false).
    { change (String.prefix "?>" (String "?" (body ++ "?>" ++ rest)))
        with (String.prefix ">" (body ++ "?>" ++ rest)).
      destruct body as [|x body]; [reflexivity|].
      change (String.prefix ">" (String x body ++ "?>" ++ rest))
        with (match ascii_dec ">" x with
              | left _ => String.prefix "" (body ++ "?>" ++ rest)
              | right _ => false
              end).
      destruct (ascii_dec ">" x) as [e|]; [|reflexivity].
      subst x. exfalso. now apply (Hgt body). }
    unfold search at 1. rewrite Hp. fold search.
    change (N.succ 0) with 1%N.
    apply (@search_absent "?" ">" body rest 1 Hq). }
  unfold State_IgnoreDeclaration_Entered, get_buffer. unfold bind at 1.
  cbn [snd fst _buffer]. rewrite Hfind.
  replace (1 + size body =? npos)%N with false
    by (symmetry; apply N.eqb_neq; unfold npos, two64 in *; lia).
  cbn [negb]. unfold bind at 1, set_buffer, modify.
  cbn [snd fst _buffer _elementNamespaceAndName raised].
  unfold size_add. rewrite N.mod_small by lia.
  replace ("?" ++ body ++ "?>" ++ rest) with (("?" ++ body ++ "?>") ++ rest)
    by (rewrite !app_assoc; reflexivity).
  rewrite (@erase0_app ("?" ++ body ++ "?>") rest).
  - destruct fuel; reflexivity.
  - unfold size. simpl String.length. rewrite length_app. simpl String.length. lia.
Qed.

Lemma declaration_is_skipped_witness :
  Append 30 ("<?" ++ "xml version='1.0'" ++ "?>" ++ "<a:b x='1'><c/>") construct
    = Append 27 "<a:b x='1'><c/>" construct.
Proof.
  apply (@declaration_is_skipped 27 "xml version='1.0'" "<a:b x='1'><c/>").
  - reflexivity.
  - discriminate.
  - reflexivity.
Defined.

End ProgressiveParserBehaviour.

Module ReplaceTheory.
Import StdString StdStringTheory StringBehaviour.
Local Open Scope string_scope.
Local Open Scope N_scope.

Lemma expand_app (f : ascii -> string) (a b : string) :
  expand f (a ++ b) = expand f a ++ expand f b.
Proof.
  induction a as [|x a IH]; simpl; [reflexivity|].
  now rewrite IH, app_assoc.
Qed.

Lemma expand_same (f g : ascii -> string) (c : ascii) (s : string) :
  (forall x, x <> c -> g x = f x) -> mem c s = false -> expand g s = expand f s.
Proof.
  intros H. induction s as [|x s IH]; intros Hm; simpl; [reflexivity|].
  simpl in Hm. apply orb_false_iff in Hm. destruct Hm as [Hx Hm].
  apply Ascii.eqb_neq in Hx. rewrite (IH Hm), H by congruence. reflexivity.
Qed.

(** The first [c] of a text, if it has one. *)
Lemma first_occurrence (c : ascii) (s : string) :
  mem c s = false
  \/ exists a b, s = a ++ String c b /\ mem c a = false.
Proof.
  induction s as [|x s IH]; [now left|].
  destruct (Ascii.eqb c x) eqn:E.
  - apply Ascii.eqb_eq in E. subst x. right. exists "", s. split; reflexivity.
  - destruct IH as [IH | [a [b [-> Ha]]]].
    + left. simpl. now rewrite E, IH.
    + right. exists (String x a), b. split; [reflexivity|].
      simpl. now rewrite E, Ha.
Qed.

(** *** Whether the loop of [Replace] ends *)

Lemma prefix_length (pat s : string) :
  String.prefix pat s = true -> (String.length pat <= String.length s)%nat.
Proof.
  revert pat. induction s as [|c s IH]; intros pat H.
  - destruct pat; [simpl; lia | discriminate H].
  - destruct pat as [|a pat]; [simpl; lia|].
    simpl in H. destruct (ascii_dec a c); [|discriminate H].
    apply IH in H. simpl. lia.
Qed.

Lemma length_take (n : nat) (s : string) :
  String.length (take n s) = Nat.min n (String.length s).
Proof.
  revert s. induction n as [|n IH]; intros [|c s]; simpl; try reflexivity.
  now rewrite IH.
Qed.

Lemma search_position (pat : string) (s : string) :
  forall i j, search pat s i = j -> j <> npos -> i + size s < npos ->
    exists k, j = i + k /\ k + size pat <= size s.
Proof.
  induction s as [|c s IH]; intros i j E Hj Hi.
  - change (search pat "" i) with (if String.prefix pat "" then i else npos) in E.
    destruct (String.prefix pat "") eqn:P; [|congruence].
    exists 0. split; [lia|]. apply prefix_length in P. unfold size. lia.
  - change (search pat (String c s) i)
      with (if String.prefix pat (String c s) then i else search pat s (N.succ i)) in E.
    destruct (String.prefix pat (String c s)) eqn:P.
    + exists 0. split; [lia|]. apply prefix_length in P. unfold size. lia.
    + assert (Hs : size (String c s) = N.succ (size s)).
      { unfold size. simpl String.length. lia. }
      destruct (IH (N.succ i) j E Hj) as [k [Hk Hle]]; [lia|].
      exists (N.succ k). split; lia.
Qed.

Lemma find_position (s pat : string) (pos j : N) :
  find s pat pos = j -> j <> npos -> size s < npos ->
  pos <= j /\ j + size pat <= size s.
Proof.
  unfold find. intros E Hj Hs.
  destruct (size s <? pos) eqn:L; [congruence|].
  apply N.ltb_ge in L.
  assert (Hd : size (drop (N.to_nat pos) s) = size s - pos).
  { unfold size in *. rewrite length_drop. lia. }
  destruct (@search_position pat (drop (N.to_nat pos) s) pos j E Hj) as [k [Hk Hle]];
    [lia|]. lia.
Qed.

Lemma size_replace (s : string) (pos n : N) (t : string) :
  pos + n <= size s -> size (replace s pos n t) = size s - n + size t.
Proof.
  intros H. unfold replace. rewrite !size_app.
  rewrite N.min_l by lia.
  unfold size in *. rewrite length_take, length_drop. lia.
Qed.

(** With a text to search for that is not empty the loop ends: every
    round that replaces leaves less of the text after [i]. *)
Lemma Replace_loop_returns (pre post : string) :
  pre <> EmptyString ->
  forall rounds replaced i,
    i <= size replaced ->
    (N.to_nat (size replaced - i) < rounds)%nat ->
    size replaced + N.of_nat rounds * size post < npos ->
    exists r, Replace_loop rounds replaced pre post i = Some r.
Proof.
  intros Hpre.
  assert (Hp : 0 < size pre).
  { destruct pre; [congruence | unfold size; simpl; lia]. }
  induction rounds as [|rounds IH]; intros replaced i Hi Hr Hb; [lia|].
  simpl Replace_loop.
  replace (i =? npos) with false by (symmetry; apply N.eqb_neq; lia).
  destruct (find replaced pre i =? npos) eqn:F; simpl negb; cbv iota.
  - now exists replaced.
  - apply N.eqb_neq in F.
    destruct (@find_position replaced pre i (find replaced pre i) eq_refl F) as [H1 H2]; [lia|].
    set (j := find replaced pre i) in *.
    assert (Hsz : size (replace replaced j (size pre) post)
                  = size replaced - size pre + size post)
      by (apply size_replace; lia).
    assert (Hadd : size_add j (size post) = j + size post).
    { unfold size_add. apply N.mod_small. unfold two64, npos in *. nia. }
    rewrite Hadd. apply IH; rewrite ?Hsz; lia || nia.
Qed.

Lemma Replace_returns (value pre post : string) :
  pre <> EmptyString ->
  (size value + 1) * (size post + 1) < npos ->
  exists r, Replace value pre post = Some r.
Proof.
  intros Hpre Hb. unfold Replace.
  apply Replace_loop_returns; try assumption.
  - lia.
  - unfold size. lia.
  - unfold size in *. nia.
Qed.

(** With an empty text to search for, [find] succeeds wherever it is asked
    and the loop does not end. *)
Lemma Replace_loop_never_ends (post : string) :
  forall rounds replaced i,
    i <= size replaced ->
    size replaced + N.of_nat rounds * size post < npos ->
    Replace_loop rounds replaced EmptyString post i = None.
Proof.
  induction rounds as [|rounds IH]; intros replaced i Hi Hb; [reflexivity|].
  simpl Replace_loop.
  replace (i =? npos) with false by (symmetry; apply N.eqb_neq; lia).
  assert (F : find replaced "" i = i).
  { unfold find. replace (size replaced <? i) with false
      by (symmetry; apply N.ltb_ge; lia).
    destruct (drop (N.to_nat i) replaced); reflexivity. }
  rewrite F.
  replace (i =? npos) with false by (symmetry; apply N.eqb_neq; lia).
  simpl negb. cbv iota.
  assert (Hsz : size (replace replaced i (size "") post) = size replaced + size post).
  { rewrite size_replace; change (size "") with 0; lia. }
  assert (Hadd : size_add i (size post) = i + size post).
  { unfold size_add. apply N.mod_small. unfold two64, npos in *. nia. }
  rewrite Hadd. apply IH; rewrite ?Hsz; lia || nia.
Qed.

Lemma Replace_never_ends (value post : string) :
  (size value + 1) * (size post + 1) < npos ->
  Replace value EmptyString post = None.
Proof.
  intros Hb. unfold Replace. apply Replace_loop_never_ends; [lia|].
  unfold size in *. nia.
Qed.

(** *** Texts written token by token *)

Section Tokens.

Variables (f f' : ascii -> string) (c : ascii) (pre post : string).

Hypothesis f_c : f c = pre.
Hypothesis f'_c : f' c = post.
Hypothesis f'_other : forall x, x <> c -> f' x = f x.
Hypothesis clean : forall x, x <> c -> starts_nowhere pre (f x).
Hypothesis pre_not_empty : pre <> EmptyString.

Lemma search_skip (token : string) :
  starts_nowhere pre token ->
  forall rest i, search pre (token ++ rest) i = search pre rest (i + size token).
Proof.
  induction token as [|y token IH]; intros Hclean rest i.
  - simpl. f_equal. unfold size. simpl. lia.
  - assert (H0 : String.prefix pre (String y token ++ rest) = false).
    { apply (Hclean 0%nat). simpl. lia. }
    change (String y token ++ rest) with (String y (token ++ rest)) in *.
    unfold search at 1. rewrite H0. fold search.
    rewrite IH.
    + f_equal. unfold size. simpl String.length. lia.
    + intros k Hk rest'. apply (Hclean (S k)). simpl. lia.
Qed.

Lemma search_tokens (a : string) :
  mem c a = false ->
  forall rest i,
    search pre (expand f a ++ rest) i = search pre rest (i + size (expand f a)).
Proof.
  induction a as [|x a IH]; intros Hm rest i.
  - simpl. f_equal. unfold size. simpl. lia.
  - simpl in Hm. apply orb_false_iff in Hm. destruct Hm as [Hx Hm].
    apply Ascii.eqb_neq in Hx.
    simpl expand. rewrite app_assoc, search_skip by (apply clean; congruence).
    rewrite (IH Hm). f_equal. rewrite size_app. lia.
Qed.

Lemma search_empty (i : N) : search pre EmptyString i = npos.
Proof. destruct pre; [congruence | reflexivity]. Qed.

Lemma search_found (rest : string) (i : N) : search pre (pre ++ rest) i = i.
Proof.
  destruct (pre ++ rest) eqn:E.
  - destruct pre; [congruence | discriminate E].
  - unfold search. now rewrite <- E, prefix_app.
Qed.

Lemma find_after (done rest : string) :
  find (done ++ rest) pre (size done) = search pre rest (size done).
Proof.
  unfold find.
  replace (size (done ++ rest) <? size done) with false
    by (symmetry; apply N.ltb_ge; rewrite size_app; lia).
  replace (N.to_nat (size done)) with (String.length done)
    by (unfold size; now rewrite Nat2N.id).
  now rewrite drop_app.
Qed.

Lemma Replace_loop_tokens (rounds : nat) :
  forall todo done,
    (String.length todo < rounds)%nat ->
    size done + size (expand f todo) + size (expand f' todo) < npos ->
    Replace_loop rounds (done ++ expand f todo) pre post (size done)
      = Some (done ++ expand f' todo).
Proof.
  induction rounds as [|rounds IH]; intros todo done Hlen Hsize; [lia|].
  simpl Replace_loop.
  replace (size done =? npos) with false by (symmetry; apply N.eqb_neq; lia).
  rewrite find_after.
  destruct (first_occurrence c todo) as [Hnone | [a [b [-> Ha]]]].
  - pose proof (@search_tokens todo Hnone EmptyString (size done)) as Hs.
    rewrite app_empty_r, search_empty in Hs. rewrite Hs.
    change (npos =? npos) with true. simpl.
    now rewrite (@expand_same f f' c todo f'_other Hnone).
  - rewrite !expand_app in Hsize |- *. simpl expand in Hsize |- *.
    rewrite f_c in Hsize |- *. rewrite f'_c in Hsize |- *.
    rewrite (@expand_same f f' c a f'_other Ha) in Hsize |- *.
    rewrite !size_app in Hsize.
    rewrite (@search_tokens a Ha), search_found.
    replace (size done + size (expand f a) =? npos) with false
      by (symmetry; apply N.eqb_neq; lia).
    simpl negb. cbv iota.
    assert (Hrep : replace (done ++ expand f a ++ pre ++ expand f b)
                     (size done + size (expand f a)) (size pre) post
                   = (done ++ expand f a ++ post) ++ expand f b).
    { unfold replace.
      replace (done ++ expand f a ++ pre ++ expand f b)
        with ((done ++ expand f a) ++ pre ++ expand f b)
        by (now rewrite !app_assoc).
      rewrite <- size_app.
      set (d := done ++ expand f a).
      assert (Hd : N.to_nat (size d) = String.length d)
        by (unfold size; apply Nat2N.id).
      rewrite Hd, take_app.
      replace (size (d ++ pre ++ expand f b) - size d) with (size pre + size (expand f b))
        by (rewrite !size_app; lia).
      rewrite N.min_l by lia.
      replace (N.to_nat (size d + size pre)) with (String.length (d ++ pre))
        by (rewrite <- size_app; unfold size; now rewrite Nat2N.id).
      rewrite <- (app_assoc d pre), drop_app.
      unfold d. now rewrite !app_assoc. }
    rewrite Hrep.
    replace (size_add (size done + size (expand f a)) (size post))
      with (size (done ++ expand f a ++ post)).
    + rewrite IH.
      * now rewrite !app_assoc.
      * rewrite length_app in Hlen. simpl in Hlen. lia.
      * rewrite !size_app. lia.
    + rewrite !size_app. unfold size_add. rewrite N.mod_small; unfold two64, npos in *; lia.
Qed.

Hypothesis f_not_empty : forall x, f x <> EmptyString.

Lemma length_expand (s : string) : (String.length s <= String.length (expand f s))%nat.
Proof.
  induction s as [|x s IH]; simpl; [lia|].
  rewrite length_app. pose proof (@f_not_empty x) as Hx.
  destruct (f x); [congruence | simpl; lia].
Qed.

Lemma Replace_tokens (s : string) :
  size (expand f s) + size (expand f' s) < npos ->
  Replace (expand f s) pre post = Some (expand f' s).
Proof.
  intros Hsize. unfold Replace.
  apply (@Replace_loop_tokens (S (String.length (expand f s))) s EmptyString).
  - pose proof (length_expand s). lia.
  - change (size "") with 0. lia.
Qed.

End Tokens.

End ReplaceTheory.

Module EscapeTheory.
Import StdString StdStringTheory StringBehaviour ReplaceTheory XmlElement.
Local Open Scope string_scope.
Local Open Scope N_scope.

Lemma token_not_empty (E : string) (x : ascii) : token E x <> EmptyString.
Proof.
  unfold token, entity.
  destruct (mem x E); [|discriminate].
  repeat match goal with |- context [Ascii.eqb ?a ?b] => destruct (Ascii.eqb a b) end;
    discriminate.
Qed.

Lemma length_token (E : string) (x : ascii) : (String.length (token E x) <= 6)%nat.
Proof.
  unfold token, entity.
  destruct (mem x E); [|simpl; lia].
  repeat match goal with |- context [Ascii.eqb ?a ?b] => destruct (Ascii.eqb a b) end;
    simpl; lia.
Qed.

Lemma size_expand_token (E s : string) : size (expand (token E) s) <= 6 * size s.
Proof.
  unfold size. induction s as [|x s IH]; simpl expand; [simpl; lia|].
  rewrite length_app. pose proof (length_token E x). simpl String.length. lia.
Qed.

Lemma expand_plain (s : string) : expand (token EmptyString) s = s.
Proof. induction s as [|x s IH]; simpl; [reflexivity | now rewrite IH]. Qed.

Lemma expand_ext (f g : ascii -> string) (s : string) :
  (forall x, f x = g x) -> expand f s = expand g s.
Proof. intros H. induction s as [|x s IH]; simpl; [reflexivity | now rewrite IH, H]. Qed.

Ltac every_character x :=
  destruct x as [[] [] [] [] [] [] [] []].

Ltac unchanged :=
  let x := fresh "x" in let Hx := fresh "Hx" in
  intros x Hx; every_character x;
  try reflexivity; exfalso; apply Hx; reflexivity.

Ltac never_starts :=
  let x := fresh "x" in let Hx := fresh "Hx" in
  let k := fresh "k" in let Hk := fresh "Hk" in let rest := fresh "rest" in
  intros x Hx; every_character x;
  try (exfalso; apply Hx; reflexivity);
  intros k Hk rest; vm_compute in Hk;
  do 6 (destruct k as [|k]; [first [exfalso; lia | vm_compute; reflexivity]|]);
  exfalso; lia.

(** One [Replace] of [Escape] or [Unescape], on a text written character by
    character with the tokens of [E]: the tokens of [c] change, the others
    stay. *)
Lemma Replace_token_step (E E' : string) (c : ascii) (pre post s : string) :
  pre = token E c -> post = token E' c ->
  (forall x, x <> c -> token E' x = token E x) ->
  (forall x, x <> c -> starts_nowhere (token E c) (token E x)) ->
  12 * size s < npos ->
  Replace (expand (token E) s) pre post = Some (expand (token E') s).
Proof.
  intros -> -> Hsame Hclean Hs.
  apply (@Replace_tokens (token E) (token E') c (token E c) (token E' c)
           eq_refl eq_refl Hsame Hclean (token_not_empty E c) (token_not_empty E)).
  pose proof (size_expand_token E s). pose proof (size_expand_token E' s). lia.
Qed.

Lemma Escape_expand (s : string) :
  12 * size s < npos -> Escape s = expand entity s.
Proof.
  intros Hs. unfold Escape. cbv zeta.
  rewrite <- (expand_plain s) at 1.
  rewrite (@Replace_token_step "" "&" "&" "&" "&amp;" s eq_refl eq_refl) by (unchanged || never_starts || exact Hs).
  cbn [returned].
  rewrite (@Replace_token_step "&" "&'" "'" "'" "&apos;" s eq_refl eq_refl) by (unchanged || never_starts || exact Hs).
  cbn [returned].
  rewrite (@Replace_token_step "&'" ("&'" ++ DoubleQuoteString) DoubleQuote
             DoubleQuoteString "&quot;" s eq_refl eq_refl)
    by (unchanged || never_starts || exact Hs).
  cbn [returned].
  rewrite (@Replace_token_step ("&'" ++ DoubleQuoteString)
             ("&'" ++ DoubleQuoteString ++ "<") "<" "<" "&lt;" s eq_refl eq_refl)
    by (unchanged || never_starts || exact Hs).
  cbn [returned].
  rewrite (@Replace_token_step ("&'" ++ DoubleQuoteString ++ "<")
             ("&'" ++ DoubleQuoteString ++ "<>") ">" ">" "&gt;" s eq_refl eq_refl)
    by (unchanged || never_starts || exact Hs).
  cbn [returned].
  apply expand_ext. intros x. every_character x; reflexivity.
Qed.

Lemma Unescape_expand (s : string) :
  12 * size s < npos -> Unescape (expand entity s) = s.
Proof.
  intros Hs. unfold Unescape. cbv zeta.
  rewrite (@expand_ext entity (token ("&'" ++ DoubleQuoteString ++ "<>")) s)
    by (intros x; every_character x; reflexivity).
  rewrite (@Replace_token_step ("&'" ++ DoubleQuoteString ++ "<>")
             ("&" ++ DoubleQuoteString ++ "<>") "'" "&apos;" "'" s eq_refl eq_refl)
    by (unchanged || never_starts || exact Hs).
  cbn [returned].
  rewrite (@Replace_token_step ("&" ++ DoubleQuoteString ++ "<>") "&<>" DoubleQuote
             "&quot;" DoubleQuoteString s eq_refl eq_refl)
    by (unchanged || never_starts || exact Hs).
  cbn [returned].
  rewrite (@Replace_token_step "&<>" "&>" "<" "&lt;" "<" s eq_refl eq_refl)
    by (unchanged || never_starts || exact Hs).
  cbn [returned].
  rewrite (@Replace_token_step "&>" "&" ">" "&gt;" ">" s eq_refl eq_refl)
    by (unchanged || never_starts || exact Hs).
  cbn [returned].
  rewrite (@Replace_token_step "&" "" "&" "&amp;" "&" s eq_refl eq_refl)
    by (unchanged || never_starts || exact Hs).
  cbn [returned].
  apply expand_plain.
Qed.

(** X24: [Escape] writes each of the five reserved characters as its
    entity and every other character as itself, one character after the
    other: the ampersands of the entities it writes are not escaped again.
    The bound on the size keeps the positions within [size_t]. *)
Theorem Escape_writes_entities (s : string) :
  12 * size s < npos -> Escape s = expand entity s.
Proof. apply Escape_expand. Qed.

Lemma Escape_writes_entities_witness :
  12 * size "a<b & c" < npos
  /\ Escape "a<b & c" = "a&lt;b &amp; c".
Proof.
  assert (H : 12 * size "a<b & c" < npos) by reflexivity.
  split; [exact H | exact (@Escape_writes_entities "a<b & c" H)].
Defined.

(** X25: [Unescape] gives back the text that [Escape] was applied to,
    whatever the text, entities written out in it included. *)
Theorem Unescape_Escape (s : string) :
  12 * size s < npos -> Unescape (Escape s) = s.
Proof.
  intros Hs. rewrite (@Escape_expand s Hs). now apply Unescape_expand.
Qed.

Lemma Unescape_Escape_witness :
  12 * size "&lt; is <" < npos
  /\ Unescape (Escape "&lt; is <") = "&lt; is <".
Proof.
  assert (H : 12 * size "&lt; is <" < npos) by reflexivity.
  split; [exact H | exact (@Unescape_Escape "&lt; is <" H)].
Defined.

End EscapeTheory.

Module TimeSpanTheory.
Import TimeSpan.
Local Open Scope Z_scope.

Lemma to_signed_small (bits z : Z) :
  0 < bits -> - 2 ^ (bits - 1) <= z < 2 ^ (bits - 1) -> to_signed bits z = z.
Proof.
  intros Hb Hz. unfold to_signed.
  assert (E : 2 ^ bits = 2 * 2 ^ (bits - 1)).
  { replace bits with (Z.succ (bits - 1)) at 1 by lia. apply Z.pow_succ_r. lia. }
  rewrite Z.mod_small; lia.
Qed.

Lemma rem_bound (a b : Z) : 0 < b -> - b < Z.rem a b < b.
Proof.
  intros Hb. destruct (Z.le_gt_cases 0 a) as [Ha | Ha].
  - pose proof (Z.rem_bound_pos a b Ha Hb). lia.
  - assert (H : 0 <= Z.rem (- a) b < b) by (apply Z.rem_bound_pos; lia).
    rewrite Z.rem_opp_l in H by lia. lia.
Qed.

Lemma rem_sign (a b : Z) :
  0 < b -> (0 <= a -> 0 <= Z.rem a b) /\ (a <= 0 -> Z.rem a b <= 0).
Proof.
  intros Hb. split; intros Ha.
  - pose proof (Z.rem_bound_pos a b Ha Hb). lia.
  - assert (H : 0 <= Z.rem (- a) b < b) by (apply Z.rem_bound_pos; lia).
    rewrite Z.rem_opp_l in H by lia. lia.
Qed.

Lemma quot_sign (a b : Z) :
  0 < b -> (0 <= a -> 0 <= Z.quot a b) /\ (a <= 0 -> Z.quot a b <= 0).
Proof.
  intros Hb. split; intros Ha.
  - apply Z.quot_pos; lia.
  - rewrite <- (Z.opp_involutive a), Z.quot_opp_l by lia.
    assert (0 <= Z.quot (- a) b) by (apply Z.quot_pos; lia). lia.
Qed.

Lemma components (t : TimeSpan) :
  let ms := _milliseconds t in
  Milliseconds t = Z.rem ms 1000
  /\ Seconds t = Z.rem (Z.quot ms 1000) 60
  /\ Minutes t = Z.rem (Z.quot ms 60000) 60
  /\ Hours t = Z.rem (Z.quot ms 3600000) 24
  /\ Days t = Z.rem (Z.quot ms 86400000) 7
  /\ Weeks t = Z.quot ms 604800000.
Proof.
  intros ms. unfold Milliseconds, Seconds, Minutes, Hours, Days, Weeks. fold ms.
  rewrite !Z.quot_quot by lia.
  change (1000 * 60) with 60000. change (60000 * 60) with 3600000.
  change (3600000 * 24) with 86400000. change (86400000 * 7) with 604800000.
  repeat split.
  - apply to_signed_small; [lia|]. pose proof (@rem_bound ms 1000). simpl. lia.
  - apply to_signed_small; [lia|].
    pose proof (@rem_bound (Z.quot ms 1000) 60). simpl. lia.
  - apply to_signed_small; [lia|].
    pose proof (@rem_bound (Z.quot ms 60000) 60). simpl. lia.
  - apply to_signed_small; [lia|].
    pose proof (@rem_bound (Z.quot ms 3600000) 24). simpl. lia.
  - apply to_signed_small; [lia|].
    pose proof (@rem_bound (Z.quot ms 86400000) 7). simpl. lia.
Qed.

(** X26: the components of a time span add up to it: milliseconds, seconds,
    minutes, hours, days and weeks, weighted by their lengths, give the
    number of milliseconds the time span holds; the narrow integer types of
    the components lose nothing. *)
Theorem components_recombine (t : TimeSpan) :
  _milliseconds t
    = Milliseconds t
      + 1000 * (Seconds t
                + 60 * (Minutes t + 60 * (Hours t + 24 * (Days t + 7 * Weeks t)))).
Proof.
  unfold Milliseconds, Seconds, Minutes, Hours, Days, Weeks.
  set (ms := _milliseconds t).
  set (s := Z.quot ms 1000). set (m := Z.quot s 60). set (h := Z.quot m 60).
  set (d := Z.quot h 24).
  rewrite !to_signed_small;
    try lia;
    try (match goal with
         | |- _ <= Z.rem ?a ?b < _ => pose proof (@rem_bound a b); simpl; lia
         end).
  pose proof (Z.quot_rem' ms 1000). pose proof (Z.quot_rem' s 60).
  pose proof (Z.quot_rem' m 60). pose proof (Z.quot_rem' h 24).
  pose proof (Z.quot_rem' d 7).
  fold s in H. fold m in H0. fold h in H1. fold d in H2. lia.
Qed.

(** X27: every component of a time span is within its unit (less than 1000
    milliseconds, 60 seconds, 60 minutes, 24 hours, 7 days in absolute
    value) and has the sign of the time span: the components of a negative
    time span are negative or zero, not complements. *)
Theorem components_share_the_sign (t : TimeSpan) :
  (- 1000 < Milliseconds t < 1000 /\ - 60 < Seconds t < 60 /\ - 60 < Minutes t < 60
   /\ - 24 < Hours t < 24 /\ - 7 < Days t < 7)
  /\ (0 <= _milliseconds t ->
      0 <= Milliseconds t /\ 0 <= Seconds t /\ 0 <= Minutes t /\ 0 <= Hours t
      /\ 0 <= Days t /\ 0 <= Weeks t)
  /\ (_milliseconds t <= 0 ->
      Milliseconds t <= 0 /\ Seconds t <= 0 /\ Minutes t <= 0 /\ Hours t <= 0
      /\ Days t <= 0 /\ Weeks t <= 0).
Proof.
  destruct (components t) as [E1 [E2 [E3 [E4 [E5 E6]]]]].
  rewrite E1, E2, E3, E4, E5, E6. clear.
  set (ms := _milliseconds t).
  split; [|split].
  - pose proof (@rem_bound ms 1000). pose proof (@rem_bound (Z.quot ms 1000) 60).
    pose proof (@rem_bound (Z.quot ms 60000) 60).
    pose proof (@rem_bound (Z.quot ms 3600000) 24).
    pose proof (@rem_bound (Z.quot ms 86400000) 7). lia.
  - intros Hms.
    assert (H1 : forall b, 0 < b -> 0 <= Z.quot ms b)
      by (intros b Hb; now apply quot_sign).
    assert (H2 : forall a b, 0 < b -> 0 <= a -> 0 <= Z.rem a b)
      by (intros a b Hb Ha; now apply rem_sign).
    repeat apply conj; try (apply H2; [lia|]); try apply H1; lia.
  - intros Hms.
    assert (H1 : forall b, 0 < b -> Z.quot ms b <= 0)
      by (intros b Hb; now apply quot_sign).
    assert (H2 : forall a b, 0 < b -> a <= 0 -> Z.rem a b <= 0)
      by (intros a b Hb Ha; now apply rem_sign).
    repeat apply conj; try (apply H2; [lia|]); try apply H1; lia.
Qed.

Lemma components_share_the_sign_witness :
  let t := {| _milliseconds := -3999 |} in
  Milliseconds t <= 0 /\ Seconds t <= 0 /\ Minutes t <= 0 /\ Hours t <= 0
  /\ Days t <= 0 /\ Weeks t <= 0.
Proof.
  intros t.
  refine (proj2 (proj2 (components_share_the_sign t)) _).
  simpl. lia.
Defined.

End TimeSpanTheory.

Module EventTheory.
Import Event.

Section Theory.

Variable Target : Type.
Variable Equals : Target -> Target -> bool.

(** [Equals] compares the function and the instance a delegate points to:
    it holds exactly of equal targets. *)
Hypothesis Equals_spec : forall x y, Equals x y = true <-> x = y.

Local Abbreviation Handler := (EventHandler Target).
Local Abbreviation equal := (equal Equals).
Local Abbreviation unique := (unique Equals).
Local Abbreviation unique_after := (unique_after Equals).
Local Abbreviation add := (add Equals).
Local Abbreviation sub := (sub Equals).

Lemma equal_spec (a b : Handler) : equal a b = true <-> a = b.
Proof.
  destruct a as [|x], b as [|y]; simpl; try (split; congruence).
  rewrite Equals_spec. split; congruence.
Qed.

Lemma equal_refl (a : Handler) : equal a a = true.
Proof. now apply equal_spec. Qed.

Lemma equal_neq (a b : Handler) : a <> b -> equal a b = false.
Proof.
  intros H. destruct (equal a b) eqn:E; [|reflexivity].
  apply equal_spec in E. congruence.
Qed.

Lemma unique_after_again (l : list Handler) (h : Handler) :
  forall first,
    unique_after first (unique_after first (l ++ [h]) ++ [h])
      = unique_after first (l ++ [h]).
Proof.
  induction l as [|x l IH]; intros first; simpl.
  - destruct (equal first h) eqn:E; simpl.
    + now rewrite E.
    + now rewrite E, equal_refl.
  - destruct (equal first x) eqn:E; simpl.
    + apply IH.
    + now rewrite E, IH.
Qed.

(** The handlers of a list without equal neighbours, none of which is
    [h]. *)
Lemma unique_after_fresh (l : list Handler) (h : Handler) :
  forall first,
    first <> h -> ~ In h l -> unique_after first l = l ->
    unique_after first (l ++ [h]) = l ++ [h].
Proof.
  induction l as [|x l IH]; intros first Hf Hin Hu; simpl.
  - now rewrite (equal_neq Hf).
  - simpl in Hu. destruct (equal first x) eqn:E.
    + exfalso.
      assert (Hlen : forall f (k : list Handler),
                 List.length (unique_after f k) <= List.length k).
      { intros f k. revert f. induction k as [|y k IHk]; intros f; simpl; [lia|].
        destruct (equal f y); simpl; [specialize (IHk f) | specialize (IHk y)]; lia. }
      specialize (Hlen first l). rewrite Hu in Hlen. simpl in Hlen. lia.
    + injection Hu as Hu. f_equal. apply IH; try assumption.
      * intros ->. apply Hin. now left.
      * intros H. apply Hin. now right.
Qed.

Lemma remove_fresh (l : list Handler) (h : Handler) :
  ~ In h l -> remove Equals h (l ++ [h]) = l.
Proof.
  intros Hin. unfold remove. rewrite filter_app. simpl.
  rewrite equal_refl. simpl. rewrite app_nil_r.
  induction l as [|x l IH]; simpl; [reflexivity|].
  rewrite equal_neq by (intros ->; apply Hin; now left). simpl.
  f_equal. apply IH. intros H. apply Hin. now right.
Qed.

(** X28: adding to an event the handler that was added last changes
    nothing, but a handler that was added before another one is added
    again and is then held twice: [operator +=] removes adjacent duplicates
    only. *)
Theorem subscribing_again (e : Event Target) (h k : Handler) :
  add h (add h e) = add h e
  /\ (h <> k -> add h (add k (add h (Empty Target))) = [h; k; h]).
Proof.
  split.
  - unfold Event.add, Event.unique. destruct e as [|x e]; simpl.
    + now rewrite equal_refl.
    + f_equal. apply unique_after_again.
  - intros Hne. unfold Event.add, Event.unique, Empty. simpl.
    rewrite (equal_neq Hne). simpl.
    rewrite (equal_neq Hne). simpl.
    assert (Hkh : equal k h = false) by (apply equal_neq; congruence).
    now rewrite Hkh.
Qed.

(** X29: [operator -=] removes every occurrence of the handler and leaves
    the other handlers; removing a handler that was just added to an event
    without it gives the event back. *)
Theorem unsubscribing (e : Event Target) (h : Handler) :
  ~ In h (sub h e)
  /\ (forall k, k <> h -> (In k (sub h e) <-> In k e))
  /\ (~ In h e -> unique e = e -> sub h (add h e) = e).
Proof.
  split; [|split].
  - unfold Event.sub, remove. rewrite filter_In. intros [_ H].
    now rewrite equal_refl in H.
  - intros k Hk. unfold Event.sub, remove. rewrite filter_In.
    rewrite (equal_neq Hk). simpl. tauto.
  - intros Hin Hu. unfold Event.sub, Event.add.
    assert (E : unique (e ++ [h]) = e ++ [h]).
    { destruct e as [|x e]; [reflexivity|].
      simpl in Hu |- *. injection Hu as Hu. f_equal.
      apply unique_after_fresh; try assumption.
      - intros ->. apply Hin. now left.
      - intros H. apply Hin. now right. }
    rewrite E. now apply remove_fresh.
Qed.

Variable S : Type.
Variable invoke : Target -> M S unit.

Lemma raise_app (e1 e2 : Event Target) (s : S) :
  raise invoke (e1 ++ e2) s = (raise invoke e1 ;; raise invoke e2) s.
Proof.
  revert s. induction e1 as [|h e1 IH]; intros s; simpl; [reflexivity|].
  unfold bind.
  destruct (call invoke h s) as [[] s' | x s' |]; try reflexivity.
  rewrite IH. reflexivity.
Qed.

(** X30: raising an event invokes the handlers in the order in which they
    were added: with one more handler added, the event invokes the handlers
    it had and then the new one, in the state they leave. *)
Theorem raise_in_subscription_order (e : Event Target) (h : Handler) (s : S) :
  ~ In h e -> unique e = e ->
  raise invoke (add h e) s = (raise invoke e ;; call invoke h) s.
Proof.
  intros Hin Hu.
  assert (E : add h e = e ++ [h]).
  { unfold Event.add. destruct e as [|x e]; [reflexivity|].
    simpl in Hu |- *. injection Hu as Hu. f_equal.
    apply unique_after_fresh; try assumption.
    - intros ->. apply Hin. now left.
    - intros H. apply Hin. now right. }
  rewrite E, raise_app. unfold bind.
  destruct (raise invoke e s) as [[] s' | x s' |]; try reflexivity.
  simpl. unfold bind. destruct (call invoke h s') as [[] s'' | x s'' |]; reflexivity.
Qed.

End Theory.

Lemma nat_Equals : forall x y, Nat.eqb x y = true <-> x = y.
Proof. exact Nat.eqb_eq. Qed.

Lemma subscribing_again_witness :
  add Nat.eqb (Bound 1) (add Nat.eqb (Bound 2) (add Nat.eqb (Bound 1) (Empty nat)))
    = [Bound 1; Bound 2; Bound 1].
Proof.
  refine (proj2 (@subscribing_again nat Nat.eqb nat_Equals (Empty nat) (Bound 1)
                   (Bound 2)) _).
  discriminate.
Defined.

Lemma unsubscribing_witness :
  sub Nat.eqb (Bound 2) (add Nat.eqb (Bound 2) [Bound 1]) = [Bound 1].
Proof.
  refine (proj2 (proj2 (@unsubscribing nat Nat.eqb nat_Equals [Bound 1] (Bound 2))) _ _).
  - intros [H | []]. discriminate H.
  - reflexivity.
Defined.

Lemma raise_in_subscription_order_witness :
  raise (fun target : nat => modify (fun log => log ++ [target]))
    (add Nat.eqb (Bound 2) [Bound 1]) []
  = Returns tt [1; 2].
Proof.
  refine (eq_trans
            (@raise_in_subscription_order nat Nat.eqb nat_Equals (list nat)
               (fun target : nat => modify (fun log => log ++ [target]))
               [Bound 1] (Bound 2) [] _ _) _).
  - intros [H | []]. discriminate H.
  - reflexivity.
  - reflexivity.
Defined.

End EventTheory.
